(** * Gilgamesh (Squared) language core: lexer, scope model, interpreter

    A shallow embedding of [src/mesh/parser.js]: the indentation-sensitive
    [Lexer], the chained [Scope] frames and the tree-walking [Interpreter].

    Conventions of the embedding.
    - A JavaScript string is a [string] whose characters stand for code
      units below 256; the regular expressions of the lexer only test
      characters in that range.
    - A JavaScript number is a binary64 [float].
    - A function that may throw returns an [outcome]; mutable objects
      ([Scope] instances, plain objects) live in stores indexed by address,
      so that aliasing is visible.
    - Loops that JavaScript does not bound are run with a fuel counter;
      [OutOfFuel] is a third outcome, distinct from returning and throwing:
      the embedding has not followed the run to its end.
    - [Promise.all] over the arguments of a call starts every argument
      before any completes. The embedding follows a call when the arguments
      then run as if one after the other: when none of them awaits, or when
      one does and the others are constants. It does not follow the other
      calls, whose arguments run interleaved: they too end in [OutOfFuel]. *)

From Stdlib Require Import Ascii String Floats ZArith Lia.
From stdpp Require Import base list strings.

Local Open Scope string_scope.

(** ** Characters and string primitives of the host language *)

Module Js.

Definition code (c : ascii) : nat := nat_of_ascii c.

(** [\d] *)
Definition is_digit (c : ascii) : bool :=
  (48 <=? code c)%nat && (code c <=? 57)%nat.

(** [[a-zA-Z_]] *)
Definition is_ident_start (c : ascii) : bool :=
  ((65 <=? code c)%nat && (code c <=? 90)%nat)
  || ((97 <=? code c)%nat && (code c <=? 122)%nat)
  || (code c =? 95)%nat.

(** [[a-zA-Z0-9_]] *)
Definition is_ident_char (c : ascii) : bool :=
  is_ident_start c || is_digit c.

(** The characters that [.] refuses (line terminators below 256). *)
Definition is_line_terminator (c : ascii) : bool :=
  (code c =? 10)%nat || (code c =? 13)%nat.

(** The characters that [String.prototype.trim] removes, below 256:
    tab, line feed, vertical tab, form feed, carriage return, space and
    the no-break space. *)
Definition is_white (c : ascii) : bool :=
  ((9 <=? code c)%nat && (code c <=? 13)%nat)
  || (code c =? 32)%nat || (code c =? 160)%nat.

Definition dquote : ascii := ascii_of_nat 34.
Definition is_dquote (c : ascii) : bool := Ascii.eqb c dquote.

(** Number of leading characters of [s] that satisfy [p]. *)
Fixpoint span_len (p : ascii -> bool) (s : string) : nat :=
  match s with
  | String c r => if p c then S (span_len p r) else 0
  | EmptyString => 0
  end.

Fixpoint drop (n : nat) (s : string) : string :=
  match n, s with
  | S k, String _ r => drop k r
  | _, _ => s
  end.

Fixpoint take (n : nat) (s : string) : string :=
  match n, s with
  | S k, String c r => String c (take k r)
  | _, _ => EmptyString
  end.

(** [s.startsWith(p)] *)
Fixpoint startsWith (p s : string) : bool :=
  match p, s with
  | EmptyString, _ => true
  | String a p', String b s' => Ascii.eqb a b && startsWith p' s'
  | String _ _, EmptyString => false
  end.

(** [s.slice(1, -1)] *)
Definition slice_1_m1 (s : string) : string :=
  take (String.length s - 2) (drop 1 s).

Fixpoint trimStart (s : string) : string :=
  match s with
  | String c r => if is_white c then trimStart r else s
  | EmptyString => EmptyString
  end.

Fixpoint trimEnd (s : string) : string :=
  match s with
  | String c r =>
      match trimEnd r with
      | EmptyString => if is_white c then EmptyString else String c EmptyString
      | r' => String c r'
      end
  | EmptyString => EmptyString
  end.

(** [s.trim()] *)
Definition trim (s : string) : string := trimEnd (trimStart s).

(** [s.split(/\r?\n/)]: [cur] holds the current piece, reversed. *)
Fixpoint split_lines_from (cur : list ascii) (s : string) : list string :=
  match s with
  | EmptyString => [string_of_list_ascii (rev cur)]
  | String c r =>
      if (code c =? 10)%nat
      then string_of_list_ascii (rev cur) :: split_lines_from [] r
      else
        match r with
        | String d r' =>
            if (code c =? 13)%nat && (code d =? 10)%nat
            then string_of_list_ascii (rev cur) :: split_lines_from [] r'
            else split_lines_from (c :: cur) r
        | EmptyString => split_lines_from (c :: cur) r
        end
  end.

Definition split_lines (s : string) : list string := split_lines_from [] s.

(** Every character of [s] satisfies [p]. *)
Fixpoint all_chars (p : ascii -> bool) (s : string) : bool :=
  match s with
  | EmptyString => true
  | String c r => p c && all_chars p r
  end.

(** [new Error(message)] *)
Inductive exn := Error (message : string).

(** How a call ends: it returns a value or it throws. *)
Inductive completion (A : Type) :=
  | Normal (a : A)
  | Throw (e : exn).
Global Arguments Normal {A} a.
Global Arguments Throw {A} e.

End Js.

(** ** The lexer *)

Module Lexer.
Import Js.

Inductive token_type :=
  | INDENT | DEDENT | NEWLINE
  | NUMBER_LITERAL | STR_LITERAL | BOOL_LITERAL
  | OBJ_IDENTIFIER | IDENTIFIER | NUMBER | SYMBOL.

Global Instance token_type_eq_dec : EqDecision token_type.
Proof. solve_decision. Defined.

(** The [value] field of a token. [ParseFloat t] stands for the number
    [parseFloat(t)], kept as the text the conversion is applied to. *)
Inductive token_value :=
  | NoValue
  | Width (n : nat)
  | ParseFloat (text : string)
  | Text (s : string)
  | Flag (b : bool).

Record token := Token {
  type : token_type;
  value : token_value;
  line : option nat
}.

(** *** The token regular expression of [tokenizeLine]

    Each alternative is a function giving the length of its match at the
    start of the text, in the order of the alternation. *)

(** [--.*] *)
Definition re_comment (s : string) : option nat :=
  if startsWith "--" s
  then Some (2 + span_len (fun c => negb (is_line_terminator c)) (drop 2 s))
  else None.

(** [!(-?\d*\.?\d+)!]: after the optional sign the body is a run of
    digits, or a (possibly empty) run of digits, a dot and a non-empty run
    of digits; the closing [!] follows at once. *)
Definition re_number_literal (s : string) : option nat :=
  if startsWith "!" s then
    let r := drop 1 s in
    let sign := if startsWith "-" r then 1 else 0 in
    let r1 := drop sign r in
    let d1 := span_len is_digit r1 in
    let r2 := drop d1 r1 in
    if startsWith "!" r2 then
      if (0 <? d1)%nat then Some (1 + sign + d1 + 1) else None
    else if startsWith "." r2 then
      let d2 := span_len is_digit (drop 1 r2) in
      if startsWith "!" (drop d2 (drop 1 r2)) && (0 <? d2)%nat
      then Some (1 + sign + d1 + 1 + d2 + 1) else None
    else None
  else None.

(** A double quote, any run of characters other than a double quote, and
    a double quote: the string alternative of the expression. *)
Definition re_string (s : string) : option nat :=
  match s with
  | String c r =>
      if is_dquote c then
        let n := span_len (fun c => negb (is_dquote c)) r in
        match drop n r with
        | String _ _ => Some (n + 2)
        | EmptyString => None
        end
      else None
  | EmptyString => None
  end.

(** [#[a-zA-Z_][a-zA-Z0-9_]*#] *)
Definition re_obj_identifier (s : string) : option nat :=
  match s with
  | String c (String d r) =>
      if Ascii.eqb c "#" && is_ident_start d then
        let n := span_len is_ident_char r in
        if startsWith "#" (drop n r) then Some (n + 3) else None
      else None
  | _ => None
  end.

(** [\+=|-=|\*=|\/=|==|!=|<=|>=] *)
Definition two_char_operators : list string :=
  ["+="; "-="; "*="; "/="; "=="; "!="; "<="; ">="].

Definition re_operator2 (s : string) : option nat :=
  if existsb (fun op => startsWith op s) two_char_operators
  then Some 2 else None.

(** [[a-zA-Z_][a-zA-Z0-9_]*] *)
Definition re_identifier (s : string) : option nat :=
  match s with
  | String c r => if is_ident_start c then Some (S (span_len is_ident_char r)) else None
  | EmptyString => None
  end.

(** [\d+] *)
Definition re_digits (s : string) : option nat :=
  let n := span_len is_digit s in
  if (0 <? n)%nat then Some n else None.

(** [[=,.\+\-\*\/\(\)\[\]\{\}\<\>\!]] *)
Definition symbol_chars : list ascii :=
  ["="; ","; "."; "+"; "-"; "*"; "/"; "("; ")"; "["; "]"; "{"; "}"; "<"; ">"; "!"]%char.

Definition re_symbol (s : string) : option nat :=
  match s with
  | String c _ => if existsb (Ascii.eqb c) symbol_chars then Some 1 else None
  | EmptyString => None
  end.

Definition first_match (alts : list (string -> option nat)) (s : string) : option nat :=
  fold_right (fun alt rest => match alt s with Some n => Some n | None => rest end)
             None alts.

(** The whole alternation, tried at the start of [s]. *)
Definition regex_match_at (s : string) : option nat :=
  first_match
    [re_comment; re_number_literal; re_string; re_obj_identifier;
     re_operator2; re_identifier; re_digits; re_symbol] s.

(** The body of the [while] loop of [tokenizeLine]: the token pushed for
    the matched text [val]. *)
Definition classify (lineNum : nat) (val : string) : token :=
  let base := Some lineNum in
  if startsWith "!" val then Token NUMBER_LITERAL (ParseFloat (slice_1_m1 val)) base
  else if startsWith (String dquote EmptyString) val then Token STR_LITERAL (Text (slice_1_m1 val)) base
  else if String.eqb val "True" || String.eqb val "False"
       then Token BOOL_LITERAL (Flag (String.eqb val "True")) base
  else if startsWith "#" val then Token OBJ_IDENTIFIER (Text (slice_1_m1 val)) base
  else if match val with String c _ => is_ident_start c | EmptyString => false end
       then Token IDENTIFIER (Text val) base
  else if (span_len is_digit val =? String.length val)%nat && (0 <? String.length val)%nat
       then Token NUMBER (Text val) base
  else Token SYMBOL (Text val) base.

(** [tokenizeLine(line, lineNum)], as the tokens it pushes. The global
    regular expression is run from [lastIndex]; [skip] is the distance from
    the current character to [lastIndex]. A character at which no
    alternative matches is passed over by [regex.exec]. *)
Fixpoint tokenizeLine_from (lineNum skip : nat) (s : string) : list token :=
  match s with
  | EmptyString => []
  | String _ rest =>
      match skip with
      | S k => tokenizeLine_from lineNum k rest
      | O =>
          match regex_match_at s with
          | None => tokenizeLine_from lineNum 0 rest
          | Some len =>
              let val := take len s in
              if startsWith "--" val then []
              else classify lineNum val :: tokenizeLine_from lineNum (len - 1) rest
          end
      end
  end.

Definition tokenizeLine (line : string) (lineNum : nat) : list token :=
  tokenizeLine_from lineNum 0 line.

(** *** The state of a [Lexer] instance

    [indentStack] is kept with its top first: the JavaScript array
    [[0, 4, 8]] is the list [[8; 4; 0]]. *)
Record t := Build {
  tokens : list token;
  indentStack : list nat
}.

Definition init : t := Build [] [0].

(** The length of the leading run of spaces and tabs of the line once
    every tab is replaced by four spaces. *)
Fixpoint indent_width (s : string) : nat :=
  match s with
  | String c r =>
      if (code c =? 32)%nat then 1 + indent_width r
      else if (code c =? 9)%nat then 4 + indent_width r
      else 0
  | EmptyString => 0
  end.

(** [while (indent < top) { push DEDENT; pop }]. On an empty stack the
    top is [undefined] and the comparison is false. *)
Fixpoint dedent_to (indent : nat) (lineNum : nat) (toks : list token) (stack : list nat)
  : list token * list nat :=
  match stack with
  | top :: below =>
      if (indent <? top)%nat
      then dedent_to indent lineNum (toks ++ [Token DEDENT NoValue (Some lineNum)]) below
      else (toks, stack)
  | [] => (toks, stack)
  end.

(** The [if (indent > top) ... else while ...] of [tokenize]. *)
Definition handle_indent (lx : t) (indent lineNum : nat) : t :=
  match indentStack lx with
  | top :: _ =>
      if (top <? indent)%nat
      then Build (tokens lx ++ [Token INDENT (Width indent) (Some lineNum)])
                 (indent :: indentStack lx)
      else let '(toks, st) := dedent_to indent lineNum (tokens lx) (indentStack lx) in
           Build toks st
  | [] => lx
  end.

(** One iteration of the [for] loop of [tokenize], for line [i]. *)
Definition tokenize_step (lx : t) (i : nat) (raw : string) : t :=
  let lineNum := i + 1 in
  if (String.length (trim raw) =? 0)%nat || startsWith "--" (trim raw) then lx
  else
    let indent := indent_width raw in
    let line := trim raw in
    let lx1 := handle_indent lx indent lineNum in
    Build (tokens lx1 ++ tokenizeLine line lineNum ++ [Token NEWLINE NoValue (Some lineNum)])
          (indentStack lx1).

Fixpoint tokenize_lines (lx : t) (i : nat) (lines : list string) : t :=
  match lines with
  | [] => lx
  | raw :: rest => tokenize_lines (tokenize_step lx i raw) (S i) rest
  end.

(** [while (this.indentStack.length > 1) { push DEDENT; pop }] *)
Fixpoint close_indents (toks : list token) (stack : list nat) : list token * list nat :=
  match stack with
  | _ :: (_ :: _) as below => close_indents (toks ++ [Token DEDENT NoValue None]) below
  | _ => (toks, stack)
  end.

(** The lexer after [tokenize()] has run on [input]. *)
Definition run (input : string) : t :=
  let lx := tokenize_lines init 0 (split_lines input) in
  let '(toks, st) := close_indents (tokens lx) (indentStack lx) in
  Build toks st.

(** [new Lexer(input).tokenize()]. Neither [tokenize] nor [tokenizeLine]
    has a [throw], and the string and array methods they call are total:
    the call completes normally with [this.tokens]. *)
Definition tokenize (input : string) : completion (list token) :=
  Normal (tokens (run input)).

Definition count (ty : token_type) (toks : list token) : nat :=
  length (filter (fun tok => type tok = ty) toks).

(** The two token types that frame a block. *)
Definition structural (ty : token_type) : Prop := ty = INDENT \/ ty = DEDENT.

(** The loop invariant of [tokenize]: the stack sits on its base level 0,
    and every level above it stands for one INDENT not yet closed. *)
Definition balanced (toks : list token) (stack : list nat) : Prop :=
  exists above, stack = (above ++ [0])%list
    /\ count INDENT toks = count DEDENT toks + length above.

End Lexer.

(** ** The level-based lexer of the older dialect

    The first [Lexer] of [src/unnamed/part_000] keeps no stack: it holds
    one number, [currentIndent], and steps it down by four columns. Its
    method [handleIndentation] is embedded, and the closing loop of
    [tokenize]; [lastIndex] is the [lastIndex] of [this.tokenRegex]. *)

Module LevelLexer.

Inductive token :=
  | NEWLINE
  | IDENTIFIER (value : string)
  | NUMBER (value : string)
  | LBRACKET
  | RBRACKET
  | SYMBOL (value : string)
  | INDENT (count : nat)
  | DEDENT.

Record t := Build {
  tokens : list token;
  currentIndent : nat;
  lastIndex : nat
}.

(** The first loop of [handleIndentation] on the input from [p] on: a
    space counts for one column and a tab for four. It gives [spaces],
    [p] and the input from there on. *)
Fixpoint blanks (s : string) (spaces p : nat) : nat * nat * string :=
  match s with
  | String c r =>
      if Ascii.eqb c " " then blanks r (S spaces) (S p)
      else if (Js.code c =? 9)%nat then blanks r (spaces + 4) (S p)
      else (spaces, p, s)
  | EmptyString => (spaces, p, s)
  end.

(** [this.input[p] === '\n' || this.input[p] === '#'], with [p] within
    the input. *)
Definition blank_or_comment (rest : string) : bool :=
  match rest with
  | String c _ => (Js.code c =? 10)%nat || Ascii.eqb c "#"
  | EmptyString => false
  end.

(** [while (spaces < this.currentIndent)]: push DEDENT, step down by 4,
    not below 0. The level falls at each turn, so [fuel] may be the level. *)
Fixpoint dedent_loop (fuel spaces : nat) (lx : t) : t :=
  match fuel with
  | O => lx
  | S fuel =>
      if (spaces <? currentIndent lx)%nat
      then dedent_loop fuel spaces
             (Build (tokens lx ++ [DEDENT]) (currentIndent lx - 4) (lastIndex lx))
      else lx
  end.

(** [handleIndentation()] on [this.input] *)
Definition handleIndentation (input : string) (lx : t) : t :=
  let '(spaces, p, rest) := blanks (Js.drop (lastIndex lx) input) 0 (lastIndex lx) in
  if blank_or_comment rest then Build (tokens lx) (currentIndent lx) p
  else if (currentIndent lx <? spaces)%nat
  then Build (tokens lx ++ [INDENT (spaces - currentIndent lx)]) spaces p
  else if (spaces <? currentIndent lx)%nat
       then Build (tokens (dedent_loop (currentIndent lx) spaces
                             (Build (tokens lx) (currentIndent lx) p)))
                  spaces p
       else Build (tokens lx) (currentIndent lx) p.

(** [while (this.currentIndent > 0)]: push DEDENT, step down by 4. The
    loop ends at the first level that is not above 0, kept here at 0. *)
Fixpoint close_loop (fuel : nat) (lx : t) : t :=
  match fuel with
  | O => lx
  | S fuel =>
      if (0 <? currentIndent lx)%nat
      then close_loop fuel
             (Build (tokens lx ++ [DEDENT]) (currentIndent lx - 4) (lastIndex lx))
      else lx
  end.

(** The closing loop of [tokenize] and the tokens it returns. *)
Definition close (lx : t) : list token := tokens (close_loop (currentIndent lx) lx).

End LevelLexer.

(** ** Abstract syntax, as built by [Parser] *)

Local Set Warnings "-register-all".

Inductive literal :=
  | LNum (n : float)
  | LStr (s : string)
  | LBool (b : bool).

Inductive expr :=
  | Literal (value : literal)
  | Identifier (value : string)
  | ArrayLiteral (elements : list expr)
  | BinaryExpression (left : expr) (operator : string) (right : expr)
  | CallExpression (callee : expr) (arguments : list expr)
  | MemberExpression (object : expr) (property : string)
  | EvalCall (argument : expr).

Inductive stmt :=
  | ImportStatement (moduleName : string)
  | FunctionDeclaration (name : string) (params : list string) (body : list stmt)
  | ObjectDefinition (name : string) (parent : option string) (properties : list stmt)
  | Assignment (name : string) (operator : string) (value : expr)
  | IfStatement (test : expr) (consequent : list stmt)
                (elifs : list (expr * list stmt)) (alternate : option (list stmt))
  | WhileStatement (test : expr) (body : list stmt)
  | ForStatement (iterator : string) (start : expr) (end_ : expr) (body : list stmt)
  | ReturnStatement (value : expr)
  | BreakStatement
  | ContinueStatement
  | ExpressionStatement (expression : expr).

(** ** Runtime values *)

(** The functions a script can hold: the two built-ins the constructor
    installs, and functions the embedding host supplies. *)
Inductive builtin :=
  | Print
  | ActivateCanvas
  | External (name : string).

Inductive value :=
  | VUndefined
  | VNull
  | VBool (b : bool)
  | VNum (n : float)
  | VStr (s : string)
  (** a plain object made by an object definition, by its address *)
  | VObject (addr : nat)
  (** an object owned by the host (a module, an array), by its name *)
  | VHostObject (name : string)
  (** the arrow function made by a function declaration: [id] tells two
      function objects apart, [scope] is the address of the captured frame *)
  | VClosure (id : nat) (params : list string) (body : list stmt) (scope : nat)
  | VBuiltin (b : builtin).

(** ** [Map] with string keys, in insertion order *)

Abbreviation Map V := (list (string * V)).

Fixpoint Map_has {V} (m : Map V) (k : string) : bool :=
  match m with
  | [] => false
  | (k', _) :: m' => if String.eqb k' k then true else Map_has m' k
  end.

Fixpoint Map_lookup {V} (m : Map V) (k : string) : option V :=
  match m with
  | [] => None
  | (k', v) :: m' => if String.eqb k' k then Some v else Map_lookup m' k
  end.

(** [m.set(k, v)]: an existing key keeps its place. *)
Fixpoint Map_set {V} (m : Map V) (k : string) (v : V) : Map V :=
  match m with
  | [] => [(k, v)]
  | (k', v') :: m' =>
      if String.eqb k' k then (k', v) :: m' else (k', v') :: Map_set m' k v
  end.

Fixpoint Map_delete {V} (m : Map V) (k : string) : Map V :=
  match m with
  | [] => []
  | (k', v') :: m' =>
      if String.eqb k' k then m' else (k', v') :: Map_delete m' k
  end.

(** [m.get(k)] on a map of values: [undefined] for an absent key. *)
Definition Map_get (m : Map value) (k : string) : value :=
  default VUndefined (Map_lookup m k).

(** ** The [Scope] class

    Instances live in a store (a list indexed by address); [parent] is the
    address of the enclosing frame. *)

Record Scope := mkScope {
  values : Map value;
  parent : option nat;
  isObject : bool
}.

(** [get(name)], walking at most [fuel] frames. A frame is created after
    its parent, so the chain from address [a] has at most [S a] frames. *)
Fixpoint Scope_get_from (fuel : nat) (scopes : list Scope) (a : nat) (name : string) : value :=
  match fuel with
  | O => VUndefined
  | S fuel =>
      match scopes !! a with
      | None => VUndefined
      | Some sc =>
          if Map_has (values sc) name then Map_get (values sc) name
          else match parent sc with
               | Some p => Scope_get_from fuel scopes p name
               | None => VUndefined
               end
      end
  end.

Definition Scope_get (scopes : list Scope) (a : nat) (name : string) : value :=
  Scope_get_from (S a) scopes a name.

(** A frame with [this.values] changed. *)
Definition map_values (f : Map value -> Map value) (sc : Scope) : Scope :=
  mkScope (f (values sc)) (parent sc) (isObject sc).

(** [set(name, val)] on the frame at [a]. *)
Definition Scope_set (scopes : list Scope) (a : nat) (name : string) (val : value)
  : list Scope :=
  alter (map_values (fun m => Map_set m name val)) a scopes.

(** [assign(name, val)]: the flag it returns and the store it leaves. *)
Fixpoint Scope_assign_from (fuel : nat) (scopes : list Scope) (a : nat)
    (name : string) (val : value) : bool * list Scope :=
  match fuel with
  | O => (false, scopes)
  | S fuel =>
      match scopes !! a with
      | None => (false, scopes)
      | Some sc =>
          if Map_has (values sc) name then (true, Scope_set scopes a name val)
          else match parent sc with
               | Some p => Scope_assign_from fuel scopes p name val
               | None => (false, scopes)
               end
      end
  end.

Definition Scope_assign (scopes : list Scope) (a : nat) (name : string) (val : value)
  : bool * list Scope :=
  Scope_assign_from (S a) scopes a name val.

(** ** The operators of the host language on runtime values *)

Definition typeof (v : value) : string :=
  match v with
  | VUndefined => "undefined"
  | VNull | VObject _ | VHostObject _ => "object"
  | VBool _ => "boolean"
  | VNum _ => "number"
  | VStr _ => "string"
  | VClosure _ _ _ _ | VBuiltin _ => "function"
  end.

(** The truth value a condition takes ([if (v)], [!v], [v || w]). *)
Definition truthy (v : value) : bool :=
  match v with
  | VUndefined | VNull => false
  | VBool b => b
  | VNum n => negb (PrimFloat.eqb n 0 || PrimFloat.is_nan n)
  | VStr s => negb (String.eqb s "")
  | VObject _ | VHostObject _ | VClosure _ _ _ _ | VBuiltin _ => true
  end.

Definition bool_to_number (b : bool) : float := if b then 1%float else 0%float.

(** Conversion to a number of the values that need no parsing. *)
Definition numeric (v : value) : option float :=
  match v with
  | VUndefined => Some nan
  | VNull => Some 0%float
  | VBool b => Some (bool_to_number b)
  | VNum n => Some n
  | _ => None
  end.

(** Conversion to a string of the values that need no number formatting. *)
Definition textual (v : value) : option string :=
  match v with
  | VUndefined => Some "undefined"
  | VNull => Some "null"
  | VBool true => Some "true"
  | VBool false => Some "false"
  | VStr s => Some s
  | _ => None
  end.

(** Comparison of strings by code units. *)
Fixpoint string_ltb (s t : string) : bool :=
  match s, t with
  | _, EmptyString => false
  | EmptyString, String _ _ => true
  | String a s', String b t' =>
      if (Js.code a <? Js.code b)%nat then true
      else if (Js.code b <? Js.code a)%nat then false
      else string_ltb s' t'
  end.

Definition is_reference (v : value) : bool :=
  match v with
  | VObject _ | VHostObject _ | VClosure _ _ _ _ | VBuiltin _ => true
  | _ => false
  end.

(** Identity of function objects and of objects. *)
Definition same_reference (a b : value) : option bool :=
  match a, b with
  | VObject x, VObject y => Some (x =? y)%nat
  | VHostObject x, VHostObject y => Some (String.eqb x y)
  | VClosure x _ _ _, VClosure y _ _ _ => Some (x =? y)%nat
  | VBuiltin Print, VBuiltin Print => Some true
  | VBuiltin ActivateCanvas, VBuiltin ActivateCanvas => Some true
  | VBuiltin (External x), VBuiltin (External y) => Some (String.eqb x y)
  | _, _ => if is_reference a && is_reference b then Some false else None
  end.

(** [a == b] where no string is parsed and no object is converted. *)
Definition loose_eq (a b : value) : option bool :=
  match a, b with
  | (VUndefined | VNull), (VUndefined | VNull) => Some true
  | (VUndefined | VNull), _ | _, (VUndefined | VNull) => Some false
  | VStr s, VStr t => Some (String.eqb s t)
  | (VBool _ | VNum _), (VBool _ | VNum _) =>
      match numeric a, numeric b with
      | Some x, Some y => Some (PrimFloat.eqb x y)
      | _, _ => None
      end
  | _, _ => same_reference a b
  end.

(** [a < b] where no string is parsed and no object is converted. *)
Definition less_than (a b : value) : option bool :=
  match a, b with
  | VStr s, VStr t => Some (string_ltb s t)
  | _, _ =>
      match numeric a, numeric b with
      | Some x, Some y => Some (PrimFloat.ltb x y)
      | _, _ => None
      end
  end.

Definition less_equal (a b : value) : option bool :=
  match a, b with
  | VStr s, VStr t => Some (negb (string_ltb t s))
  | _, _ =>
      match numeric a, numeric b with
      | Some x, Some y => Some (PrimFloat.leb x y)
      | _, _ => None
      end
  end.

Definition plus (a b : value) : option value :=
  match numeric a, numeric b with
  | Some x, Some y => Some (VNum (x + y))
  | _, _ =>
      match a, b with
      | VStr _, _ | _, VStr _ =>
          match textual a, textual b with
          | Some s, Some t => Some (VStr (s ++ t))
          | _, _ => None
          end
      | _, _ => None
      end
  end.

Definition arith (f : float -> float -> float) (a b : value) : option value :=
  match numeric a, numeric b with
  | Some x, Some y => Some (VNum (f x y))
  | _, _ => None
  end.

(** ** What the embedding environment supplies

    The conversions of the host language that parse or print numbers or
    look inside objects, the functions and objects of the host, and the
    interpreter's injected [deps]. *)

Inductive resolution :=
  | ResolvedObject (value : value)
  | ResolvedUrl (url : string).

Class Host := {
  (** a binary operator on operands that need such a conversion *)
  host_binop : string -> value -> value -> value;
  (** [Number(v)] and [String(v)] for such values *)
  host_ToNumber : value -> float;
  host_ToString : value -> string;
  (** [v[prop]] when [prop] is not an own property of a plain object *)
  host_member : value -> string -> value;
  (** the own enumerable properties of a host object *)
  host_entries : string -> Map value;
  (** [fn.apply(context, args)] for a function of the host, which may read
      the plain objects it is handed *)
  host_apply : string -> value -> list value -> list (Map value) -> Js.completion value;
  (** [deps.ModuleManager.resolve(name)] *)
  deps_ModuleManager_resolve : string -> resolution;
  (** [mod.default || mod] after [import(url)] *)
  host_import : string -> Js.completion value;
  (** [new deps.Lexer(code).tokenize()] *)
  deps_Lexer_tokenize : string -> Js.completion (list Lexer.token);
  (** [new deps.Parser(tokens).parse().body] *)
  deps_Parser_parse : list Lexer.token -> Js.completion (list stmt)
}.

(** ** The state of an [Interpreter] instance *)

Record Interpreter := mkInterpreter {
  (** every [Scope] created so far, by address *)
  scopes : list Scope;
  (** every plain object created so far, by address *)
  objects : list (Map value);
  (** number of function objects made by declarations *)
  functions : nat;
  (** the argument lists handed to [console.log] *)
  console : list (list value);
  globals : nat;
  stop : bool;
  evalCache : Map (list stmt);
  opCounter : nat
}.

Definition set_scopes (f : list Scope -> list Scope) (st : Interpreter) : Interpreter :=
  mkInterpreter (f (scopes st)) (objects st) (functions st) (console st)
                (globals st) (stop st) (evalCache st) (opCounter st).

(** [new Interpreter(output, input, external, deps)] with [external] a
    [Map] of values, or anything else ([None]). *)
Definition new_Interpreter (external : option (Map value)) : Interpreter :=
  let g0 := fold_left (fun m kv => Map_set m kv.1 kv.2) (default [] external) [] in
  let g1 := Map_set g0 "print" (VBuiltin Print) in
  let g2 := Map_set g1 "activateCanvas" (VBuiltin ActivateCanvas) in
  mkInterpreter [mkScope g2 None false] [] 0 [] 0 false [] 0.

(** ** Calls that may throw, on the interpreter state *)

Inductive outcome (A : Type) :=
  | Returned (a : A) (st : Interpreter)
  | Thrown (e : Js.exn) (st : Interpreter)
  | OutOfFuel.
Global Arguments Returned {A} a st.
Global Arguments Thrown {A} e st.
Global Arguments OutOfFuel {A}.

Definition M (A : Type) := Interpreter -> outcome A.

Definition ret {A} (a : A) : M A := fun st => Returned a st.

Definition bind {A B} (m : M A) (k : A -> M B) : M B :=
  fun st =>
    match m st with
    | Returned a st' => k a st'
    | Thrown e st' => Thrown e st'
    | OutOfFuel => OutOfFuel
    end.

Definition throw {A} (message : string) : M A := fun st => Thrown (Js.Error message) st.
Definition out_of_fuel {A} : M A := fun _ => OutOfFuel.
Definition gets {A} (f : Interpreter -> A) : M A := fun st => Returned (f st) st.
Definition modify (f : Interpreter -> Interpreter) : M unit := fun st => Returned tt (f st).

Definition lift {A} (c : Js.completion A) : M A :=
  fun st => match c with
            | Js.Normal a => Returned a st
            | Js.Throw e => Thrown e st
            end.

Notation "'let*' x ':=' m 'in' k" := (bind m (fun x => k))
  (at level 10, x name, m at level 100, k at level 200).
Notation "m ';;' k" := (bind m (fun _ => k))
  (at level 100, k at level 200, right associativity).

(** *** State accessors *)

(** [scope.values.has(k)] *)
Definition own_has_in (scopes : list Scope) (scope : nat) (k : string) : bool :=
  match scopes !! scope with
  | Some sc => Map_has (values sc) k
  | None => false
  end.

Definition own_has (scope : nat) (k : string) : M bool :=
  gets (fun st => own_has_in (scopes st) scope k).

(** [scope.values.delete(k)] *)
Definition own_delete (scope : nat) (k : string) : M unit :=
  modify (set_scopes (alter (map_values (fun m => Map_delete m k)) scope)).

Definition scope_get (scope : nat) (k : string) : M value :=
  gets (fun st => Scope_get (scopes st) scope k).

Definition scope_set (scope : nat) (k : string) (v : value) : M unit :=
  modify (set_scopes (fun s => Scope_set s scope k v)).

Definition scope_assign (scope : nat) (k : string) (v : value) : M bool :=
  fun st =>
    Returned (Scope_assign (scopes st) scope k v).1
             (set_scopes (fun s => (Scope_assign s scope k v).2) st).

(** [new Scope(parent)]: the address of the new frame. *)
Definition new_Scope (parent : option nat) : M nat :=
  fun st => Returned (length (scopes st))
                     (set_scopes (fun s => (s ++ [mkScope [] parent false])%list) st).

(** [Object.fromEntries(entries)]: a new plain object. *)
Definition new_object (entries : Map value) : M value :=
  fun st => Returned (VObject (length (objects st)))
    (mkInterpreter (scopes st) (objects st ++ [entries])%list (functions st) (console st)
                   (globals st) (stop st) (evalCache st) (opCounter st)).

(** The arrow function of a declaration: a new function object. *)
Definition new_function (params : list string) (body : list stmt) (scope : nat) : M value :=
  fun st => Returned (VClosure (functions st) params body scope)
    (mkInterpreter (scopes st) (objects st) (S (functions st)) (console st)
                   (globals st) (stop st) (evalCache st) (opCounter st)).

Definition console_log (args : list value) : M unit :=
  modify (fun st =>
    mkInterpreter (scopes st) (objects st) (functions st) (console st ++ [args])%list
                  (globals st) (stop st) (evalCache st) (opCounter st)).

Definition with_stop (b : bool) (st : Interpreter) : Interpreter :=
  mkInterpreter (scopes st) (objects st) (functions st) (console st)
                (globals st) b (evalCache st) (opCounter st).

(** [this.stop = b] *)
Definition set_stop (b : bool) : M unit := modify (with_stop b).

Definition evalCache_set (code : string) (ast : list stmt) : M unit :=
  modify (fun st =>
    mkInterpreter (scopes st) (objects st) (functions st) (console st)
                  (globals st) (stop st) (Map_set (evalCache st) code ast) (opCounter st)).

(** [++this.opCounter]; the pause every thousandth statement hands control
    to the event loop and changes nothing here. *)
Definition count_op : M unit :=
  modify (fun st =>
    mkInterpreter (scopes st) (objects st) (functions st) (console st)
                  (globals st) (stop st) (evalCache st) (S (opCounter st))).

(** *** Arguments that run in turn

    [list.map(a => this.evaluate(a, scope))] calls [evaluate] on every
    element, and each call runs until its first [await]: a literal, an
    identifier and an array literal (for which [evaluate] has no case) are
    done by then, and have read the scope at most; any other node has only
    started, and goes on when [Promise.all] is awaited. *)

(** [evaluate] completes on the node without awaiting. *)
Definition immediate (node : expr) : bool :=
  match node with
  | Literal _ | Identifier _ | ArrayLiteral _ => true
  | _ => false
  end.

(** [evaluate] completes without awaiting, reading or throwing. *)
Definition constant (node : expr) : bool :=
  match node with
  | Literal _ | ArrayLiteral _ => true
  | _ => false
  end.

(** The elements run as if one after the other: none awaits (the values
    are read in order and the first error by index is thrown), or one at
    most is no constant (it runs alone). *)
Definition in_turn (nodes : list expr) : bool :=
  forallb immediate nodes
  || (length (List.filter (fun node => negb (constant node)) nodes) <=? 1)%nat.

(** Elements that run interleaved: the embedding does not follow them. *)
Definition interleaved {A} : M A := fun _ => OutOfFuel.

Section Interpreter.
Context `{Host}.

Definition or_host (op : string) (a b : value) (r : option value) : value :=
  default (host_binop op a b) r.

(** The [switch (node.operator)] of [evaluate]; an operator outside the
    ten cases leaves the switch and the method returns [null]. *)
Definition binop (op : string) (l r : value) : value :=
  if String.eqb op "+" then or_host op l r (plus l r)
  else if String.eqb op "-" then or_host op l r (arith PrimFloat.sub l r)
  else if String.eqb op "*" then or_host op l r (arith PrimFloat.mul l r)
  else if String.eqb op "/" then or_host op l r (arith PrimFloat.div l r)
  else if String.eqb op "==" then or_host op l r (VBool <$> loose_eq l r)
  else if String.eqb op "!=" then or_host op l r (VBool <$> (negb <$> loose_eq l r))
  else if String.eqb op ">" then or_host op l r (VBool <$> less_than r l)
  else if String.eqb op "<" then or_host op l r (VBool <$> less_than l r)
  else if String.eqb op ">=" then or_host op l r (VBool <$> less_equal r l)
  else if String.eqb op "<=" then or_host op l r (VBool <$> less_equal l r)
  else VNull.

(** [Number(v)] *)
Definition ToNumber (v : value) : float := default (host_ToNumber v) (numeric v).

(** [String(v)] *)
Definition ToString (v : value) : string := default (host_ToString v) (textual v).

(** [name.split('.')[0]] *)
Fixpoint before_dot (s : string) : string :=
  match s with
  | EmptyString => EmptyString
  | String c r => if Ascii.eqb c "." then EmptyString else String c (before_dot r)
  end.

(** The own enumerable properties copied by [{ ...p }]. *)
Definition spread (p : value) : M (Map value) :=
  gets (fun st =>
    match p with
    | VObject a => default [] (objects st !! a)
    | VHostObject h => host_entries h
    | _ => []
    end).

(** [obj[prop]] *)
Definition member (obj : value) (prop : string) : M value :=
  gets (fun st =>
    match obj with
    | VObject a =>
        match objects st !! a with
        | Some props =>
            if Map_has props prop then Map_get props prop else host_member obj prop
        | None => host_member obj prop
        end
    | _ => host_member obj prop
    end).

(** [node.params.forEach((p, i) => fnScope.set(p, args[i]))], from index [i]. *)
Fixpoint bind_params (fnScope : nat) (i : nat) (params : list string) (args : list value)
  : M unit :=
  match params with
  | [] => ret tt
  | p :: ps =>
      scope_set fnScope p (default VUndefined (args !! i));;
      bind_params fnScope (S i) ps args
  end.

(** [Object.entries(base).forEach(([k, v]) => objScope.set(k, v))] *)
Fixpoint set_entries (objScope : nat) (entries : Map value) : M unit :=
  match entries with
  | [] => ret tt
  | (k, v) :: rest => scope_set objScope k v;; set_entries objScope rest
  end.

(** [if (!this.evalCache.has(code)) { ...; this.evalCache.set(code, ast) }] *)
Definition fill_evalCache (code : string) : M unit :=
  let* cached := gets (fun st => Map_has (evalCache st) code) in
  if cached then ret tt else
    let* tokens := lift (deps_Lexer_tokenize code) in
    let* ast := lift (deps_Parser_parse tokens) in
    evalCache_set code ast.

(** The inner [switch] of an assignment on the compound operators. *)
Definition compound (op : string) (current val : value) : value :=
  if String.eqb op "+=" then binop "+" current val
  else if String.eqb op "-=" then binop "-" current val
  else if String.eqb op "*=" then binop "*" current val
  else if String.eqb op "/=" then binop "/" current val
  else val.

(** ** [executeBlock], [executeStatement] and [evaluate]

    Every call consumes one unit of [fuel]. Awaiting a promise lets other
    tasks of the host run; the embedding follows one script on its own. *)

Fixpoint executeBlock_from (fuel : nat) (res : value) (stmts : list stmt) (scope : nat)
    {struct fuel} : M value :=
  match fuel with
  | O => out_of_fuel
  | S fuel =>
      match stmts with
      | [] => ret res
      | node :: rest =>
          let* stopped := gets stop in
          if stopped then ret VNull else
          let* res := executeStatement fuel node scope in
          let* returning := own_has scope "__ret__" in
          if returning then scope_get scope "__ret__" else
          let* breaking := own_has scope "__break__" in
          if breaking then ret res else
          let* continuing := own_has scope "__continue__" in
          if continuing then ret res else
          count_op;;
          executeBlock_from fuel res rest scope
      end
  end

with executeStatement (fuel : nat) (node : stmt) (scope : nat) {struct fuel} : M value :=
  match fuel with
  | O => out_of_fuel
  | S fuel =>
      match node with
      | ImportStatement moduleName =>
          let* moduleVal :=
            match deps_ModuleManager_resolve moduleName with
            | ResolvedObject v => ret v
            | ResolvedUrl url => lift (host_import url)
            end in
          scope_set scope (before_dot moduleName) moduleVal;;
          ret VUndefined
      | FunctionDeclaration name params body =>
          let* fn := new_function params body scope in
          scope_set scope name fn;;
          ret VUndefined
      | ObjectDefinition name parent properties =>
          let* base :=
            match parent with
            | Some parentName =>
                (* [if (node.parent)]: an empty name counts as none *)
                if String.eqb parentName "" then ret [] else
                let* p := scope_get scope parentName in
                if truthy p && String.eqb (typeof p) "object" then spread p else ret []
            | None => ret []
            end in
          let* objScope := new_Scope None in
          set_entries objScope base;;
          let* _ := executeBlock_from fuel VNull properties objScope in
          let* entries :=
            gets (fun st => default [] (values <$> scopes st !! objScope)) in
          let* obj := new_object entries in
          scope_set scope name obj;;
          ret VUndefined
      | Assignment name operator value =>
          let* val := evaluate fuel value scope in
          let* val :=
            if negb (String.eqb operator "=") then
              let* found := scope_get scope name in
              let current := if truthy found then found else VNum 0 in
              ret (compound operator current val)
            else ret val in
          let* assigned := scope_assign scope name val in
          (if assigned then ret tt else scope_set scope name val);;
          ret VUndefined
      | IfStatement test consequent elifs alternate =>
          let* t := evaluate fuel test scope in
          if truthy t then executeBlock_from fuel VNull consequent scope
          else executeElifs fuel elifs alternate scope
      | WhileStatement test body =>
          executeWhile fuel test body scope;;
          ret VUndefined
      | ForStatement iterator start end_ body =>
          let* s := evaluate fuel start scope in
          let* e := evaluate fuel end_ scope in
          executeFor fuel iterator (ToNumber s) (ToNumber e) body scope;;
          ret VUndefined
      | ReturnStatement value =>
          let* v := evaluate fuel value scope in
          scope_set scope "__ret__" v;;
          ret VUndefined
      | BreakStatement =>
          scope_set scope "__break__" (VBool true);;
          ret VUndefined
      | ContinueStatement =>
          scope_set scope "__continue__" (VBool true);;
          ret VUndefined
      | ExpressionStatement expression =>
          evaluate fuel expression scope
      end
  end

(** The [for] over [node.elifs], then [node.alternate]. *)
with executeElifs (fuel : nat) (elifs : list (expr * list stmt))
    (alternate : option (list stmt)) (scope : nat) {struct fuel} : M value :=
  match fuel with
  | O => out_of_fuel
  | S fuel =>
      match elifs with
      | (test, body) :: rest =>
          let* t := evaluate fuel test scope in
          if truthy t then executeBlock_from fuel VNull body scope
          else executeElifs fuel rest alternate scope
      | [] =>
          match alternate with
          | Some body => executeBlock_from fuel VNull body scope
          | None => ret VUndefined
          end
      end
  end

(** The [while] loop of a [WhileStatement]. *)
with executeWhile (fuel : nat) (test : expr) (body : list stmt) (scope : nat)
    {struct fuel} : M unit :=
  match fuel with
  | O => out_of_fuel
  | S fuel =>
      let* stopped := gets stop in
      if stopped then ret tt else
      let* t := evaluate fuel test scope in
      if negb (truthy t) then ret tt else
      let* _ := executeBlock_from fuel VNull body scope in
      let* returning := own_has scope "__ret__" in
      if returning then ret tt else
      let* breaking := own_has scope "__break__" in
      if breaking then own_delete scope "__break__" else
      let* continuing := own_has scope "__continue__" in
      (if continuing then own_delete scope "__continue__" else ret tt);;
      executeWhile fuel test body scope
  end

(** The [for] loop of a [ForStatement], from [i]. *)
with executeFor (fuel : nat) (iterator : string) (i end_ : float) (body : list stmt)
    (scope : nat) {struct fuel} : M unit :=
  match fuel with
  | O => out_of_fuel
  | S fuel =>
      if negb (PrimFloat.leb i end_) then ret tt else
      let* stopped := gets stop in
      if stopped then ret tt else
      scope_set scope iterator (VNum i);;
      let* _ := executeBlock_from fuel VNull body scope in
      let* returning := own_has scope "__ret__" in
      if returning then ret tt else
      executeFor fuel iterator (i + 1)%float end_ body scope
  end

with evaluate (fuel : nat) (node : expr) (scope : nat) {struct fuel} : M value :=
  match fuel with
  | O => out_of_fuel
  | S fuel =>
      match node with
      | Literal (LNum n) => ret (VNum n)
      | Literal (LStr s) => ret (VStr s)
      | Literal (LBool b) => ret (VBool b)
      | Identifier name =>
          let* v := scope_get scope name in
          match v with
          | VUndefined => throw ("Undefined: " ++ name)
          | _ => ret v
          end
      | BinaryExpression node_left operator node_right =>
          let* l := evaluate fuel node_left scope in
          if String.eqb operator "and" then
            if negb (truthy l) then ret l else evaluate fuel node_right scope
          else if String.eqb operator "or" then
            if truthy l then ret l else evaluate fuel node_right scope
          else
            let* r := evaluate fuel node_right scope in
            ret (binop operator l r)
      | CallExpression callee arguments =>
          let* target :=
            match callee with
            | MemberExpression object property =>
                let* context := evaluate fuel object scope in
                if truthy context && String.eqb (typeof context) "object"
                then let* fn := member context property in ret (fn, context)
                else ret (VUndefined, context)
            | _ =>
                let* fn := evaluate fuel callee scope in ret (fn, VNull)
            end in
          let* args := evaluateAll fuel arguments scope in
          if negb (String.eqb (typeof target.1) "function")
          then throw "Execution Error: Call target is not a function."
          else apply fuel target.1 target.2 args
      | MemberExpression object property =>
          let* obj := evaluate fuel object scope in
          match obj with
          | VUndefined =>
              throw ("Execution Error: Cannot access property '" ++ property ++ "' of undefined.")
          | VNull =>
              throw ("Execution Error: Cannot access property '" ++ property ++ "' of null.")
          | _ => member obj property
          end
      | EvalCall argument =>
          let* v := evaluate fuel argument scope in
          let code := ToString v in
          fill_evalCache code;;
          let* ast := gets (fun st => Map_lookup (evalCache st) code) in
          match ast with
          | Some [ExpressionStatement expression] => evaluate fuel expression scope
          | Some body => executeBlock_from fuel VNull body scope
          | None => throw "TypeError: Cannot read properties of undefined (reading 'body')"
          end
      (* no case for an array literal: the switch is left and the method
         returns undefined *)
      | ArrayLiteral _ => ret VUndefined
      end
  end

(** [Promise.all(node.arguments.map(a => this.evaluate(a, scope)))], for
    arguments that run in turn. *)
with evaluateAll (fuel : nat) (nodes : list expr) (scope : nat) {struct fuel}
    : M (list value) :=
  match fuel with
  | O => out_of_fuel
  | S fuel =>
      if negb (in_turn nodes) then interleaved else
      match nodes with
      | [] => ret []
      | node :: rest =>
          let* v := evaluate fuel node scope in
          let* vs := evaluateAll fuel rest scope in
          ret (v :: vs)
      end
  end

(** [fn.apply(context, args)] for a value whose [typeof] is [function]. *)
with apply (fuel : nat) (fn context : value) (args : list value) {struct fuel} : M value :=
  match fuel with
  | O => out_of_fuel
  | S fuel =>
      match fn with
      | VClosure _ params body scope =>
          let* fnScope := new_Scope (Some scope) in
          bind_params fnScope 0 params args;;
          executeBlock_from fuel VNull body fnScope
      | VBuiltin Print => console_log args;; ret VUndefined
      | VBuiltin ActivateCanvas => ret VUndefined
      | VBuiltin (External name) =>
          let* objs := gets objects in
          lift (host_apply name context args objs)
      | _ => throw "TypeError: fn.apply is not a function"
      end
  end.

(** [executeBlock(stmts, scope)] *)
Definition executeBlock (fuel : nat) (stmts : list stmt) (scope : nat) : M value :=
  executeBlock_from fuel VNull stmts scope.

(** [run(ast)] *)
Definition run (fuel : nat) (body : list stmt) : M value :=
  set_stop false;;
  let* g := gets globals in
  executeBlock fuel body g.

End Interpreter.

(** ** Relations and predicates used by the statements below *)


Definition persistent (k : string) : bool :=
  negb (String.eqb k "__break__" || String.eqb k "__continue__").

Definition frame_extends (sc sc' : Scope) : Prop :=
  parent sc' = parent sc
  /\ forall k, persistent k = true -> Map_has (values sc) k = true -> Map_has (values sc') k = true.

Record extends (st st' : Interpreter) : Prop := {
  ext_scopes : forall a sc, scopes st !! a = Some sc ->
      exists sc', scopes st' !! a = Some sc' /\ frame_extends sc sc';
  ext_objects : objects st `prefix_of` objects st';
  ext_globals : globals st' = globals st;
  ext_cache : forall code ast, Map_lookup (evalCache st) code = Some ast ->
      Map_lookup (evalCache st') code = Some ast
}.

Definition preserves {A} (m : M A) : Prop :=
  forall st, match m st with
             | Returned _ st' | Thrown _ st' => extends st st'
             | OutOfFuel => True
             end.


Section Specification.
Context `{Host}.

(** The value an assignment stores, from the value [found] that
    [scope.get(name)] gives and the value [val] of the right-hand side. *)
Definition assigned (op : string) (found val : value) : value :=
  if String.eqb op "=" then val
  else compound op (if truthy found then found else VNum 0) val.

Definition all_preserve (fuel : nat) : Prop :=
  (forall res stmts scope, preserves (executeBlock_from fuel res stmts scope))
  /\ (forall node scope, preserves (executeStatement fuel node scope))
  /\ (forall elifs alternate scope, preserves (executeElifs fuel elifs alternate scope))
  /\ (forall test body scope, preserves (executeWhile fuel test body scope))
  /\ (forall iterator i end_ body scope, preserves (executeFor fuel iterator i end_ body scope))
  /\ (forall node scope, preserves (evaluate fuel node scope))
  /\ (forall nodes scope, preserves (evaluateAll fuel nodes scope))
  /\ (forall fn context args, preserves (apply fuel fn context args)).

End Specification.




Definition own_value (scopes : list Scope) (b : nat) (name : string) : value :=
  match scopes !! b with
  | Some sc => Map_get (values sc) name
  | None => VUndefined
  end.

Definition scopes_wf (scopes : list Scope) : bool :=
  forallb (fun x : nat * Scope =>
             match parent x.2 with Some p => (p <? x.1)%nat | None => true end)
          (imap pair scopes).



(** The state after [scope.values.delete(k)]. *)
Definition delete_own (scope : nat) (k : string) (st : Interpreter) : Interpreter :=
  set_scopes (alter (map_values (fun m => Map_delete m k)) scope) st.


(** The map after [entries.forEach(([k, v]) => m.set(k, v))]. *)
Definition set_all (entries : Map value) (m : Map value) : Map value :=
  fold_left (fun m kv => Map_set m kv.1 kv.2) entries m.

(** The frame values after [params.forEach((p, i) => fnScope.set(p, args[i]))],
    from index [i]. *)
Fixpoint bind_all (i : nat) (params : list string) (args : list value) (m : Map value)
  : Map value :=
  match params with
  | [] => m
  | p :: ps => bind_all (S i) ps args (Map_set m p (default VUndefined (args !! i)))
  end.

(** *** Well-formed states

    A frame's parent is an older frame, and so is the scope captured by any
    function stored in a frame or in an object; the global frame exists. *)

(** The scope captured by [v], if [v] is a function, is one of the first [n] frames. *)
Definition value_ok (n : nat) (v : value) : Prop :=
  match v with
  | VClosure _ _ _ scope => scope < n
  | _ => True
  end.

(** So is the scope of every function among the values of [m]. *)
Definition map_ok (n : nat) (m : Map value) : Prop :=
  Forall (fun kv => value_ok n kv.2) m.

(** Parents precede their children, and the frames and the objects hold
    only functions over existing frames. *)
Record state_ok (st : Interpreter) : Prop := {
  ok_parents : scopes_wf (scopes st) = true;
  ok_frames : Forall (fun sc => map_ok (length (scopes st)) (values sc)) (scopes st);
  ok_objects : Forall (map_ok (length (scopes st))) (objects st);
  ok_globals : globals st < length (scopes st)
}.

(** The embedding environment hands out no function of an interpreter. *)
Class HostOk `{Host} : Prop := {
  host_binop_ok : forall n op a b,
    value_ok n a -> value_ok n b -> value_ok n (host_binop op a b);
  host_member_ok : forall n v prop, value_ok n v -> value_ok n (host_member v prop);
  host_entries_ok : forall n h, map_ok n (host_entries h);
  host_apply_ok : forall n name context args objs v,
    value_ok n context -> Forall (value_ok n) args -> Forall (map_ok n) objs ->
    host_apply name context args objs = Js.Normal v -> value_ok n v;
  host_resolve_ok : forall n name v,
    deps_ModuleManager_resolve name = ResolvedObject v -> value_ok n v;
  host_import_ok : forall n url v, host_import url = Js.Normal v -> value_ok n v
}.

(** [m], run in a well-formed state of at least [n0] frames, leaves a
    well-formed state with no fewer frames, and a result satisfying [P]
    there. *)
Definition good {A} (n0 : nat) (P : nat -> A -> Prop) (m : M A) : Prop :=
  forall st, state_ok st -> n0 <= length (scopes st) ->
    match m st with
    | Returned a st' =>
        state_ok st' /\ length (scopes st) <= length (scopes st')
        /\ P (length (scopes st')) a
    | Thrown _ st' => state_ok st' /\ length (scopes st) <= length (scopes st')
    | OutOfFuel => True
    end.

Section WellFormed.
Context `{Host}.

(** The methods of the interpreter, given [fuel], keep states well formed. *)
Definition all_good (fuel : nat) : Prop :=
  (forall n0 res stmts scope, scope < n0 -> value_ok n0 res ->
     good n0 value_ok (executeBlock_from fuel res stmts scope))
  /\ (forall n0 node scope, scope < n0 ->
     good n0 value_ok (executeStatement fuel node scope))
  /\ (forall n0 elifs alternate scope, scope < n0 ->
     good n0 value_ok (executeElifs fuel elifs alternate scope))
  /\ (forall n0 test body scope, scope < n0 ->
     good n0 (fun _ _ => True) (executeWhile fuel test body scope))
  /\ (forall n0 iterator i end_ body scope, scope < n0 ->
     good n0 (fun _ _ => True) (executeFor fuel iterator i end_ body scope))
  /\ (forall n0 node scope, scope < n0 ->
     good n0 value_ok (evaluate fuel node scope))
  /\ (forall n0 nodes scope, scope < n0 ->
     good n0 (fun n vs => Forall (value_ok n) vs) (evaluateAll fuel nodes scope))
  /\ (forall n0 fn context args,
     value_ok n0 fn -> value_ok n0 context -> Forall (value_ok n0) args ->
     good n0 value_ok (apply fuel fn context args)).

End WellFormed.

(** ** Example programs *)

Definition num (n : float) : expr := Literal (LNum n).

(** [[
count = 0
for i = 1 to 3
    count += 1
    break
    count += 100
after = 1
]] *)
Definition break_in_for : list stmt :=
  [Assignment "count" "=" (num 0);
   ForStatement "i" (num 1) (num 3)
     [Assignment "count" "+=" (num 1); BreakStatement; Assignment "count" "+=" (num 100)];
   Assignment "after" "=" (num 1)].

(** The same body under [while True]. *)
Definition break_in_while : list stmt :=
  [Assignment "count" "=" (num 0);
   WhileStatement (Literal (LBool true))
     [Assignment "count" "+=" (num 1); BreakStatement; Assignment "count" "+=" (num 100)];
   Assignment "after" "=" (num 1)].

(** The first program with [continue] in place of [break]. *)
Definition continue_in_for : list stmt :=
  [Assignment "count" "=" (num 0);
   ForStatement "i" (num 1) (num 3)
     [Assignment "count" "+=" (num 1); ContinueStatement; Assignment "count" "+=" (num 100)];
   Assignment "after" "=" (num 1)].

(** [[
function second(a, b)
    return = b
r = second(1)
]] *)
Definition call_with_missing_argument : list stmt :=
  [FunctionDeclaration "second" ["a"; "b"] [ReturnStatement (Identifier "b")];
   Assignment "r" "=" (CallExpression (Identifier "second") [num 1])].

(** [[
function f()
    print(1)
    return = True
r = False and f()
]] *)
Definition false_and_call : list stmt :=
  [FunctionDeclaration "f" []
     [ExpressionStatement (CallExpression (Identifier "print") [num 1]);
      ReturnStatement (Literal (LBool true))];
   Assignment "r" "=" (BinaryExpression (Literal (LBool false)) "and"
                         (CallExpression (Identifier "f") []))].

(** ** An embedding environment for the examples

    Nothing is registered with the module manager, the host offers no
    function or object of its own, and [deps] holds the lexer above with a
    parser for programs whose lines are [name] or [name = name] (names that
    are not keywords), on which it builds what [Parser.parse] builds. *)

Fixpoint example_parse (toks : list Lexer.token) : option (list stmt) :=
  match toks with
  | [] => Some []
  | Lexer.Token Lexer.IDENTIFIER (Lexer.Text x) _
      :: Lexer.Token Lexer.NEWLINE _ _ :: rest =>
      cons (ExpressionStatement (Identifier x)) <$> example_parse rest
  | Lexer.Token Lexer.IDENTIFIER (Lexer.Text x) _
      :: Lexer.Token Lexer.SYMBOL (Lexer.Text op) _
      :: Lexer.Token Lexer.IDENTIFIER (Lexer.Text y) _
      :: Lexer.Token Lexer.NEWLINE _ _ :: rest =>
      if String.eqb op "="
      then cons (Assignment x "=" (Identifier y)) <$> example_parse rest
      else None
  | _ => None
  end.

Definition example_host : Host := {|
  host_binop := fun _ _ _ => VUndefined;
  host_ToNumber := fun _ => nan;
  host_ToString := fun _ => "[object Object]";
  host_member := fun _ _ => VUndefined;
  host_entries := fun _ => [];
  host_apply := fun _ _ _ _ => Js.Normal VUndefined;
  deps_ModuleManager_resolve := fun name => ResolvedUrl ("./" ++ name);
  host_import := fun _ => Js.Throw (Js.Error "Failed to fetch dynamically imported module");
  deps_Lexer_tokenize := Lexer.tokenize;
  deps_Parser_parse := fun toks =>
    match example_parse toks with
    | Some body => Js.Normal body
    | None => Js.Throw (Js.Error "Unexpected token")
    end
|}.





(** A new interpreter whose global frame binds [Base] to the object
    [{ x: 1 }]. *)
Definition with_Base : Interpreter :=
  mkInterpreter
    [mkScope [("print", VBuiltin Print); ("activateCanvas", VBuiltin ActivateCanvas);
              ("Base", VObject 0)] None false]
    [[("x", VNum 1)]] 0 [] 0 false [] 0.

(** A new interpreter whose global frame binds [f] to a function that
    prints. *)
Definition with_f : Interpreter :=
  mkInterpreter
    [mkScope [("print", VBuiltin Print); ("activateCanvas", VBuiltin ActivateCanvas);
              ("f", VClosure 0 []
                      [ExpressionStatement (CallExpression (Identifier "print") [num 1]);
                       ReturnStatement (Literal (LBool true))] 0)] None false]
    [] 1 [] 0 false [] 0.

Definition f_call : expr := CallExpression (Identifier "f") [].

(** ** What the statements on the lexer speak of *)

Module LexerSpec.
Import Js Lexer.

(** The lines that [tokenize] does not skip: neither blank nor a comment. *)
Definition significant (raw : string) : bool :=
  negb ((String.length (trim raw) =? 0)%nat || startsWith "--" (trim raw)).

(** The INDENT and DEDENT tokens of [toks] replayed on a stack of widths
    (top first): an INDENT must carry a width above the top and pushes it,
    a DEDENT pops a level other than the last one. [None] when a token
    does not fit. *)
Fixpoint replay (stack : list nat) (toks : list token) : option (list nat) :=
  match toks with
  | [] => Some stack
  | tok :: rest =>
      match type tok with
      | INDENT =>
          match value tok, stack with
          | Width w, top :: _ => if (top <? w)%nat then replay (w :: stack) rest else None
          | _, _ => None
          end
      | DEDENT =>
          match stack with
          | _ :: (_ :: _) as below => replay below rest
          | _ => None
          end
      | _ => replay stack rest
      end
  end.

(** [[a-zA-Z_][a-zA-Z0-9_]*], the whole of [s] *)
Definition is_identifier (s : string) : bool :=
  match s with
  | String c r => is_ident_start c && all_chars is_ident_char r
  | EmptyString => false
  end.

(** [\d+], the whole of [s] *)
Definition is_digits (s : string) : bool :=
  all_chars is_digit s && (0 <? String.length s)%nat.

(** The texts of the SYMBOL tokens: the characters of the last
    alternative and the two-character operators, but for those that begin
    with an exclamation mark. *)
Definition symbol_texts : list string :=
  ["="; ","; "."; "+"; "-"; "*"; "/"; "("; ")"; "["; "]"; "{"; "}"; "<"; ">";
   "+="; "-="; "*="; "/="; "=="; "<="; ">="].

(** The [value] and [line] fields that go with each token type. *)
Definition token_ok (tok : token) : bool :=
  match type tok, value tok with
  | INDENT, Width w => (0 <? w)%nat && bool_decide (is_Some (line tok))
  | DEDENT, NoValue => true
  | NEWLINE, NoValue => bool_decide (is_Some (line tok))
  | NUMBER_LITERAL, ParseFloat _ => bool_decide (is_Some (line tok))
  | STR_LITERAL, Text s =>
      all_chars (fun c => negb (is_dquote c)) s && bool_decide (is_Some (line tok))
  | BOOL_LITERAL, Flag _ => bool_decide (is_Some (line tok))
  | OBJ_IDENTIFIER, Text s => is_identifier s && bool_decide (is_Some (line tok))
  | IDENTIFIER, Text s =>
      is_identifier s && negb (String.eqb s "True") && negb (String.eqb s "False")
      && bool_decide (is_Some (line tok))
  | NUMBER, Text s => is_digits s && bool_decide (is_Some (line tok))
  | SYMBOL, Text s => bool_decide (s ∈ symbol_texts) && bool_decide (is_Some (line tok))
  | _, _ => false
  end.

(** The stack of widths is strictly decreasing from its top and ends on 0. *)
Fixpoint stack_ok (stack : list nat) : bool :=
  match stack with
  | [] => false
  | [base] => (base =? 0)%nat
  | top :: (next :: _) as below => (next <? top)%nat && stack_ok below
  end.

End LexerSpec.

(** ** The parser

    [Parser] of [src/mesh/parser.js]: a recursive descent over the array
    of tokens, with the cursor [pos] as its only state. A node keeps the
    [value] field of the token it was read from as it is; the loops and
    the recursion of the methods are run with a fuel counter. *)

Module Parser.
Import Lexer.
Local Set Warnings "-register-all".

(** The [value] of a [Literal] node. *)
Inductive literal_value :=
  (** the [value] field of the token *)
  | Held (v : token_value)
  (** [parseFloat] applied to the [value] field of the token *)
  | ParseFloatOf (v : token_value).

Inductive expr :=
  | Literal (value : literal_value)
  | Identifier (value : token_value)
  | ArrayLiteral (elements : list expr)
  | BinaryExpression (left : expr) (operator : token_value) (right : expr)
  | CallExpression (callee : expr) (arguments : list expr)
  | MemberExpression (object : expr) (property : token_value)
  | EvalCall (argument : expr).

(** A statement node and the [line] field that [parseStatement] gives it.
    The [moduleName] of an import is the concatenation, from the empty
    string, of the values listed. *)
Inductive stmt :=
  | Stmt (node : statement) (line : option nat)
with statement :=
  | ImportStatement (moduleName : list token_value)
  | FunctionDeclaration (name : token_value) (params : list token_value) (body : list stmt)
  | ObjectDefinition (name : token_value) (parent : option token_value)
                     (properties : list stmt) (operator : token_value)
  | Assignment (name : token_value) (operator : token_value) (value : expr)
  | IfStatement (test : expr) (consequent : list stmt)
                (elifs : list (expr * list stmt)) (alternate : option (list stmt))
  | WhileStatement (test : expr) (body : list stmt)
  | ForStatement (iterator : token_value) (start : expr) (end_ : expr) (body : list stmt)
  | ReturnStatement (value : expr)
  | BreakStatement
  | ContinueStatement
  | ExpressionStatement (expression : expr).

Record program := Program { body : list stmt }.

(** The errors the parser throws, by the template of their message:
    - [Expected type value but found token], where the text ends with
      [JSON.stringify] of the token under the cursor;
    - [Unexpected token at position pos: token];
    - the [TypeError] of reading [value] of [undefined], after a dot that
      ends the tokens. *)
Inductive error :=
  | Expected (type : token_type) (value : option string) (found : option token)
  | UnexpectedToken (pos : nat) (found : option token)
  | ValueOfUndefined.

Inductive result (A : Type) :=
  | Parsed (a : A) (pos : nat)
  | Failed (e : error)
  | NoFuel.
Global Arguments Parsed {A} a pos.
Global Arguments Failed {A} e.
Global Arguments NoFuel {A}.

(** A method of the parser, run from a position of the cursor. *)
Definition P (A : Type) : Type := nat -> result A.

Definition ret {A} (a : A) : P A := fun pos => Parsed a pos.

Definition bind {A B} (m : P A) (k : A -> P B) : P B :=
  fun pos =>
    match m pos with
    | Parsed a pos' => k a pos'
    | Failed e => Failed e
    | NoFuel => NoFuel
    end.

Definition throw {A} (e : error) : P A := fun _ => Failed e.
Definition no_fuel {A} : P A := fun _ => NoFuel.

Declare Scope parser_scope.
Delimit Scope parser_scope with parser.
Notation "'let*' x ':=' m 'in' k" := (bind m (fun x => k))
  (at level 10, x name, m at level 100, k at level 200) : parser_scope.
Notation "m ';;' k" := (bind m (fun _ => k))
  (at level 100, k at level 200, right associativity) : parser_scope.
Local Open Scope parser_scope.

(** [v === s] for a string [s] *)
Definition value_is (v : token_value) (s : string) : bool :=
  match v with
  | Text t => String.eqb t s
  | _ => false
  end.

(** [list.includes(v)] for a list of strings *)
Definition includes (texts : list string) (v : option token_value) : bool :=
  match v with
  | Some w => existsb (value_is w) texts
  | None => false
  end.

Section Methods.
Variable tokens : list token.

(** [this.peek(n)] *)
Definition peek (n : nat) : P (option token) :=
  fun pos => Parsed (tokens !! (pos + n)) pos.

(** The test of [check(type, value)] at [pos]; [value] is [None] when the
    argument is left out, and an empty string is as good as none. *)
Definition check_at (type_ : token_type) (value_ : option string) (pos : nat) : bool :=
  match tokens !! pos with
  | Some t =>
      bool_decide (type t = type_)
      && match value_ with
         | Some s => String.eqb s "" || value_is (value t) s
         | None => true
         end
  | None => false
  end.

Definition check (type_ : token_type) (value_ : option string) : P bool :=
  fun pos => Parsed (check_at type_ value_ pos) pos.

(** [match(type, value)] *)
Definition match_ (type_ : token_type) (value_ : option string) : P bool :=
  fun pos =>
    if check_at type_ value_ pos then Parsed true (S pos) else Parsed false pos.

Definition consume (type_ : token_type) (value_ : option string) : P token :=
  fun pos =>
    match tokens !! pos with
    | Some t =>
        if check_at type_ value_ pos then Parsed t (S pos)
        else Failed (Expected type_ value_ (Some t))
    | None => Failed (Expected type_ value_ None)
    end.

(** [consumeAny()]: the cursor moves on even at the end of the tokens. *)
Definition consumeAny : P (option token) :=
  fun pos => Parsed (tokens !! pos) (S pos).

(** [this.pos < this.tokens.length] *)
Definition more : P bool :=
  fun pos => Parsed (pos <? length tokens)%nat pos.

(** The [throw] that ends [parsePrimary]. *)
Definition unexpected {A} : P A :=
  fun pos => Failed (UnexpectedToken pos (tokens !! pos)).

(** The operators that [parseComparison] accepts. *)
Definition comparison_ops : list string := ["=="; "!="; "<"; ">"; "<="; ">="].

(** The operators that send [parseStatement] to [parseAssignment]. *)
Definition assignment_ops : list string := ["="; "+="; "-="; "*="; "/="].

(** *** Expressions *)

Fixpoint parseExpression (fuel : nat) {struct fuel} : P expr :=
  match fuel with
  | O => no_fuel
  | S fuel => parseLogicalOr fuel
  end

with parseLogicalOr (fuel : nat) {struct fuel} : P expr :=
  match fuel with
  | O => no_fuel
  | S fuel =>
      let* left := parseLogicalAnd fuel in
      parseLogicalOr_loop fuel left
  end

(** The [while] loop of [parseLogicalOr], with [left] so far. *)
with parseLogicalOr_loop (fuel : nat) (left : expr) {struct fuel} : P expr :=
  match fuel with
  | O => no_fuel
  | S fuel =>
      let* again := check IDENTIFIER (Some "or") in
      if again then
        let* op := consume IDENTIFIER None in
        let* right := parseLogicalAnd fuel in
        parseLogicalOr_loop fuel (BinaryExpression left (value op) right)
      else ret left
  end

with parseLogicalAnd (fuel : nat) {struct fuel} : P expr :=
  match fuel with
  | O => no_fuel
  | S fuel =>
      let* left := parseComparison fuel in
      parseLogicalAnd_loop fuel left
  end

with parseLogicalAnd_loop (fuel : nat) (left : expr) {struct fuel} : P expr :=
  match fuel with
  | O => no_fuel
  | S fuel =>
      let* again := check IDENTIFIER (Some "and") in
      if again then
        let* op := consume IDENTIFIER None in
        let* right := parseComparison fuel in
        parseLogicalAnd_loop fuel (BinaryExpression left (value op) right)
      else ret left
  end

with parseComparison (fuel : nat) {struct fuel} : P expr :=
  match fuel with
  | O => no_fuel
  | S fuel =>
      let* left := parseAdditive fuel in
      parseComparison_loop fuel left
  end

with parseComparison_loop (fuel : nat) (left : expr) {struct fuel} : P expr :=
  match fuel with
  | O => no_fuel
  | S fuel =>
      let* symbol := check SYMBOL None in
      let* next := peek 0 in
      if symbol && includes comparison_ops (value <$> next) then
        let* op := consume SYMBOL None in
        let* right := parseAdditive fuel in
        parseComparison_loop fuel (BinaryExpression left (value op) right)
      else ret left
  end

with parseAdditive (fuel : nat) {struct fuel} : P expr :=
  match fuel with
  | O => no_fuel
  | S fuel =>
      let* left := parseMultiplicative fuel in
      parseAdditive_loop fuel left
  end

with parseAdditive_loop (fuel : nat) (left : expr) {struct fuel} : P expr :=
  match fuel with
  | O => no_fuel
  | S fuel =>
      let* plus := check SYMBOL (Some "+") in
      let* minus := check SYMBOL (Some "-") in
      if plus || minus then
        let* op := consume SYMBOL None in
        let* right := parseMultiplicative fuel in
        parseAdditive_loop fuel (BinaryExpression left (value op) right)
      else ret left
  end

with parseMultiplicative (fuel : nat) {struct fuel} : P expr :=
  match fuel with
  | O => no_fuel
  | S fuel =>
      let* left := parsePrimary fuel in
      parseMultiplicative_loop fuel left
  end

with parseMultiplicative_loop (fuel : nat) (left : expr) {struct fuel} : P expr :=
  match fuel with
  | O => no_fuel
  | S fuel =>
      let* times := check SYMBOL (Some "*") in
      let* over := check SYMBOL (Some "/") in
      if times || over then
        let* op := consume SYMBOL None in
        let* right := parsePrimary fuel in
        parseMultiplicative_loop fuel (BinaryExpression left (value op) right)
      else ret left
  end

with parsePrimary (fuel : nat) {struct fuel} : P expr :=
  match fuel with
  | O => no_fuel
  | S fuel =>
      let* paren := match_ SYMBOL (Some "(") in
      if paren then
        let* e := parseExpression fuel in
        consume SYMBOL (Some ")");;
        ret e
      else
      let* bracket := match_ SYMBOL (Some "[") in
      if bracket then
        let* closing := check SYMBOL (Some "]") in
        let* elements := if closing then ret [] else parseExpressions fuel [] in
        consume SYMBOL (Some "]");;
        ret (ArrayLiteral elements)
      else
      let* number_literal := check NUMBER_LITERAL None in
      if number_literal then
        let* t := consume NUMBER_LITERAL None in ret (Literal (Held (value t)))
      else
      let* number := check NUMBER None in
      if number then
        let* t := consume NUMBER None in ret (Literal (ParseFloatOf (value t)))
      else
      let* str := check STR_LITERAL None in
      if str then
        let* t := consume STR_LITERAL None in ret (Literal (Held (value t)))
      else
      let* boolean := check BOOL_LITERAL None in
      if boolean then
        let* t := consume BOOL_LITERAL None in ret (Literal (Held (value t)))
      else
      let* identifier := check IDENTIFIER None in
      if identifier then
        let* idToken := consume IDENTIFIER None in
        if value_is (value idToken) "eval" then
          consume SYMBOL (Some "(");;
          let* arg := parseExpression fuel in
          consume SYMBOL (Some ")");;
          ret (EvalCall arg)
        else parseSuffix fuel (Identifier (value idToken))
      else
      let* obj_identifier := check OBJ_IDENTIFIER None in
      if obj_identifier then
        let* t := consume OBJ_IDENTIFIER None in
        parseSuffix fuel (Identifier (value t))
      else unexpected
  end

(** [parseSuffix(expr)]: each turn of its [while (true)] is one call. *)
with parseSuffix (fuel : nat) (e : expr) {struct fuel} : P expr :=
  match fuel with
  | O => no_fuel
  | S fuel =>
      let* dot := match_ SYMBOL (Some ".") in
      if dot then
        let* propToken := consumeAny in
        match propToken with
        | Some t => parseSuffix fuel (MemberExpression e (value t))
        | None => throw ValueOfUndefined
        end
      else
      let* call := match_ SYMBOL (Some "(") in
      if call then
        let* closing := check SYMBOL (Some ")") in
        let* args := if closing then ret [] else parseExpressions fuel [] in
        consume SYMBOL (Some ")");;
        parseSuffix fuel (CallExpression e args)
      else ret e
  end

(** [do { items.push(this.parseExpression()); } while (this.match('SYMBOL', ','))],
    the loop of array elements and of call arguments, with [items] so far. *)
with parseExpressions (fuel : nat) (items : list expr) {struct fuel} : P (list expr) :=
  match fuel with
  | O => no_fuel
  | S fuel =>
      let* e := parseExpression fuel in
      let* comma := match_ SYMBOL (Some ",") in
      if comma then parseExpressions fuel (items ++ [e])%list
      else ret (items ++ [e])%list
  end.

(** *** Statements *)

(** [do { params.push(this.consume('IDENTIFIER').value); } while (this.match('SYMBOL', ','))] *)
Fixpoint parseParams (fuel : nat) (params : list token_value) {struct fuel}
  : P (list token_value) :=
  match fuel with
  | O => no_fuel
  | S fuel =>
      let* t := consume IDENTIFIER None in
      let* comma := match_ SYMBOL (Some ",") in
      if comma then parseParams fuel (params ++ [value t])%list
      else ret (params ++ [value t])%list
  end.

(** The [while] loop of [parseImport], with the values appended so far. *)
Fixpoint parseImport_loop (fuel : nat) (moduleName : list token_value) {struct fuel}
  : P (list token_value) :=
  match fuel with
  | O => no_fuel
  | S fuel =>
      let* inside := more in
      let* newline := check NEWLINE None in
      if inside && negb newline then
        let* t := consumeAny in
        match t with
        | Some t => parseImport_loop fuel (moduleName ++ [value t])%list
        | None => throw ValueOfUndefined
        end
      else ret moduleName
  end.

Definition parseImport (fuel : nat) : P statement :=
  match fuel with
  | O => no_fuel
  | S fuel =>
      consume IDENTIFIER (Some "import");;
      let* moduleName := parseImport_loop fuel [] in
      let* inside := more in
      (if inside then consume NEWLINE None;; ret tt else ret tt);;
      ret (ImportStatement moduleName)
  end.

Definition parseAssignment (fuel : nat) : P statement :=
  match fuel with
  | O => no_fuel
  | S fuel =>
      let* name := consume IDENTIFIER None in
      let* op := consume SYMBOL None in
      let* val := parseExpression fuel in
      consume NEWLINE None;;
      ret (Assignment (value name) (value op) val)
  end.

Definition parseReturn (fuel : nat) : P statement :=
  match fuel with
  | O => no_fuel
  | S fuel =>
      consume IDENTIFIER (Some "return");;
      consume SYMBOL (Some "=");;
      let* val := parseExpression fuel in
      consume NEWLINE None;;
      ret (ReturnStatement val)
  end.

Fixpoint parseBlock (fuel : nat) {struct fuel} : P (list stmt) :=
  match fuel with
  | O => no_fuel
  | S fuel => parseBlock_loop fuel []
  end

(** The [while] loop of [parseBlock], with [statements] so far. *)
with parseBlock_loop (fuel : nat) (statements : list stmt) {struct fuel} : P (list stmt) :=
  match fuel with
  | O => no_fuel
  | S fuel =>
      let* inside := more in
      let* dedent := check DEDENT None in
      if inside && negb dedent then
        let* newline := match_ NEWLINE None in
        if newline then parseBlock_loop fuel statements
        else
          let* s := parseStatement fuel in
          parseBlock_loop fuel (statements ++ [s])%list
      else ret statements
  end

with parseStatement (fuel : nat) {struct fuel} : P stmt :=
  match fuel with
  | O => no_fuel
  | S fuel =>
      let* first := peek 0 in
      let line := first ≫= Lexer.line in
      let* node :=
        let* is_function := check IDENTIFIER (Some "function") in
        if is_function then parseFunction fuel else
        let* is_if := check IDENTIFIER (Some "if") in
        if is_if then parseIf fuel else
        let* is_while := check IDENTIFIER (Some "while") in
        if is_while then parseWhile fuel else
        let* is_for := check IDENTIFIER (Some "for") in
        if is_for then parseFor fuel else
        let* is_return := check IDENTIFIER (Some "return") in
        if is_return then parseReturn fuel else
        let* is_import := check IDENTIFIER (Some "import") in
        if is_import then parseImport fuel else
        let* is_break := check IDENTIFIER (Some "break") in
        if is_break then
          consume IDENTIFIER None;; consume NEWLINE None;; ret BreakStatement
        else
        let* is_continue := check IDENTIFIER (Some "continue") in
        if is_continue then
          consume IDENTIFIER None;; consume NEWLINE None;; ret ContinueStatement
        else
        let* is_obj := check OBJ_IDENTIFIER None in
        let* is_identifier := check IDENTIFIER None in
        let* second := peek 1 in
        if is_obj
           || (is_identifier && bool_decide (type <$> second = Some OBJ_IDENTIFIER))
        then parseObjectDefinition fuel
        else if is_identifier && includes assignment_ops (value <$> second)
        then parseAssignment fuel
        else
          let* e := parseExpression fuel in
          consume NEWLINE None;;
          ret (ExpressionStatement e) in
      ret (Stmt node line)
  end

with parseFor (fuel : nat) {struct fuel} : P statement :=
  match fuel with
  | O => no_fuel
  | S fuel =>
      consume IDENTIFIER (Some "for");;
      let* iterator := consume IDENTIFIER None in
      consume SYMBOL (Some "=");;
      let* start := parseExpression fuel in
      consume IDENTIFIER (Some "to");;
      let* end_ := parseExpression fuel in
      consume NEWLINE None;;
      consume INDENT None;;
      let* body := parseBlock fuel in
      consume DEDENT None;;
      ret (ForStatement (value iterator) start end_ body)
  end

with parseObjectDefinition (fuel : nat) {struct fuel} : P statement :=
  match fuel with
  | O => no_fuel
  | S fuel =>
      let* is_identifier := check IDENTIFIER None in
      let* header :=
        if is_identifier then
          let* name := consume IDENTIFIER None in
          let* parent := consume OBJ_IDENTIFIER None in
          ret (value name, Some (value parent))
        else
          let* name := consume OBJ_IDENTIFIER None in
          ret (value name, None) in
      let* op := consume SYMBOL None in
      consume SYMBOL (Some "[");;
      consume NEWLINE None;;
      consume INDENT None;;
      let* properties := parseBlock fuel in
      consume DEDENT None;;
      consume SYMBOL (Some "]");;
      consume NEWLINE None;;
      ret (ObjectDefinition header.1 header.2 properties (value op))
  end

with parseFunction (fuel : nat) {struct fuel} : P statement :=
  match fuel with
  | O => no_fuel
  | S fuel =>
      consume IDENTIFIER (Some "function");;
      let* name := consume IDENTIFIER None in
      consume SYMBOL (Some "(");;
      let* closing := check SYMBOL (Some ")") in
      let* params := if closing then ret [] else parseParams fuel [] in
      consume SYMBOL (Some ")");;
      consume NEWLINE None;;
      consume INDENT None;;
      let* body := parseBlock fuel in
      consume DEDENT None;;
      ret (FunctionDeclaration (value name) params body)
  end

with parseIf (fuel : nat) {struct fuel} : P statement :=
  match fuel with
  | O => no_fuel
  | S fuel =>
      consume IDENTIFIER (Some "if");;
      let* test := parseExpression fuel in
      consume NEWLINE None;;
      consume INDENT None;;
      let* consequent := parseBlock fuel in
      consume DEDENT None;;
      let* elifs := parseElifs fuel [] in
      let* has_else := match_ IDENTIFIER (Some "else") in
      let* alternate :=
        if has_else then
          consume NEWLINE None;;
          consume INDENT None;;
          let* alternate := parseBlock fuel in
          consume DEDENT None;;
          ret (Some alternate)
        else ret None in
      ret (IfStatement test consequent elifs alternate)
  end

(** The [while (this.match('IDENTIFIER', 'elif'))] loop of [parseIf]. *)
with parseElifs (fuel : nat) (elifs : list (expr * list stmt)) {struct fuel}
  : P (list (expr * list stmt)) :=
  match fuel with
  | O => no_fuel
  | S fuel =>
      let* again := match_ IDENTIFIER (Some "elif") in
      if again then
        let* elifTest := parseExpression fuel in
        consume NEWLINE None;;
        consume INDENT None;;
        let* elifBody := parseBlock fuel in
        consume DEDENT None;;
        parseElifs fuel (elifs ++ [(elifTest, elifBody)])%list
      else ret elifs
  end

with parseWhile (fuel : nat) {struct fuel} : P statement :=
  match fuel with
  | O => no_fuel
  | S fuel =>
      consume IDENTIFIER (Some "while");;
      let* test := parseExpression fuel in
      consume NEWLINE None;;
      consume INDENT None;;
      let* body := parseBlock fuel in
      consume DEDENT None;;
      ret (WhileStatement test body)
  end.

(** [parse()] *)
Definition parse (fuel : nat) : P program :=
  match fuel with
  | O => no_fuel
  | S fuel =>
      let* body := parseBlock fuel in
      ret (Program body)
  end.

End Methods.

(** Fuel that is enough for [tokens], whatever they are. *)
Definition enough (tokens : list token) : nat := 12 * length tokens + 12.

(** [new Parser(tokens).parse()]: the cursor starts at 0. *)
Definition run (tokens : list token) : result program :=
  parse tokens (enough tokens) 0.

End Parser.

(** ** What the statements on the parser speak of *)

Module ParserSpec.
Import Lexer Parser.

Section Specs.
Variable tokens : list token.

(** [Q] holds of what [m] returns from [pos]; with [total], [m] does not
    run out of fuel there either. *)
Definition wp (total : bool) {A} (m : P A) (Q : A -> nat -> Prop) (pos : nat) : Prop :=
  match m pos with
  | Parsed a pos' => Q a pos'
  | Failed _ => True
  | NoFuel => total = false
  end.

(** The fuel that the tokens from [pos] on call for. *)
Definition weight (pos : nat) : nat := 12 * (length tokens - pos).

(** With fuel for the tokens left and for [rank] nested calls, [m] ends,
    and what it returns it returns past [pos], within the tokens. *)
Definition advancing (fuel rank : nat) {A} (m : P A) : Prop :=
  forall pos, weight pos + rank <= fuel ->
    wp true m (fun _ pos' => pos < pos' <= length tokens) pos.

(** The same for a method that may return without moving the cursor. *)
Definition staying (fuel rank : nat) {A} (m : P A) : Prop :=
  forall pos, weight pos + rank <= fuel ->
    wp true m (fun _ pos' => pos <= pos' /\ (pos <= length tokens -> pos' <= length tokens)) pos.

Definition all_end (fuel : nat) : Prop :=
  advancing fuel 7 (parseExpression tokens fuel)
  /\ advancing fuel 6 (parseLogicalOr tokens fuel)
  /\ (forall left, staying fuel 1 (parseLogicalOr_loop tokens fuel left))
  /\ advancing fuel 5 (parseLogicalAnd tokens fuel)
  /\ (forall left, staying fuel 1 (parseLogicalAnd_loop tokens fuel left))
  /\ advancing fuel 4 (parseComparison tokens fuel)
  /\ (forall left, staying fuel 1 (parseComparison_loop tokens fuel left))
  /\ advancing fuel 3 (parseAdditive tokens fuel)
  /\ (forall left, staying fuel 1 (parseAdditive_loop tokens fuel left))
  /\ advancing fuel 2 (parseMultiplicative tokens fuel)
  /\ (forall left, staying fuel 1 (parseMultiplicative_loop tokens fuel left))
  /\ advancing fuel 1 (parsePrimary tokens fuel)
  /\ (forall e, staying fuel 1 (parseSuffix tokens fuel e))
  /\ (forall items, advancing fuel 8 (parseExpressions tokens fuel items)).

Definition all_statements_end (fuel : nat) : Prop :=
  staying fuel 10 (parseBlock tokens fuel)
  /\ (forall statements, staying fuel 9 (parseBlock_loop tokens fuel statements))
  /\ advancing fuel 8 (parseStatement tokens fuel)
  /\ advancing fuel 1 (parseFor tokens fuel)
  /\ advancing fuel 1 (parseObjectDefinition tokens fuel)
  /\ advancing fuel 1 (parseFunction tokens fuel)
  /\ advancing fuel 1 (parseIf tokens fuel)
  /\ (forall elifs, staying fuel 1 (parseElifs tokens fuel elifs))
  /\ advancing fuel 1 (parseWhile tokens fuel).

(** [m'] returns or throws what [m] does, whenever [m] has fuel enough. *)
Definition refines {A} (m m' : P A) : Prop :=
  forall pos, m pos = NoFuel \/ m' pos = m pos.

Definition all_refine (fuel : nat) : Prop :=
  forall fuel', fuel <= fuel' ->
  refines (parseExpression tokens fuel) (parseExpression tokens fuel')
  /\ refines (parseLogicalOr tokens fuel) (parseLogicalOr tokens fuel')
  /\ (forall left, refines (parseLogicalOr_loop tokens fuel left)
                           (parseLogicalOr_loop tokens fuel' left))
  /\ refines (parseLogicalAnd tokens fuel) (parseLogicalAnd tokens fuel')
  /\ (forall left, refines (parseLogicalAnd_loop tokens fuel left)
                           (parseLogicalAnd_loop tokens fuel' left))
  /\ refines (parseComparison tokens fuel) (parseComparison tokens fuel')
  /\ (forall left, refines (parseComparison_loop tokens fuel left)
                           (parseComparison_loop tokens fuel' left))
  /\ refines (parseAdditive tokens fuel) (parseAdditive tokens fuel')
  /\ (forall left, refines (parseAdditive_loop tokens fuel left)
                           (parseAdditive_loop tokens fuel' left))
  /\ refines (parseMultiplicative tokens fuel) (parseMultiplicative tokens fuel')
  /\ (forall left, refines (parseMultiplicative_loop tokens fuel left)
                           (parseMultiplicative_loop tokens fuel' left))
  /\ refines (parsePrimary tokens fuel) (parsePrimary tokens fuel')
  /\ (forall e, refines (parseSuffix tokens fuel e) (parseSuffix tokens fuel' e))
  /\ (forall items, refines (parseExpressions tokens fuel items)
                            (parseExpressions tokens fuel' items)).

Definition all_statements_refine (fuel : nat) : Prop :=
  forall fuel', fuel <= fuel' ->
  refines (parseBlock tokens fuel) (parseBlock tokens fuel')
  /\ (forall statements, refines (parseBlock_loop tokens fuel statements)
                                 (parseBlock_loop tokens fuel' statements))
  /\ refines (parseStatement tokens fuel) (parseStatement tokens fuel')
  /\ refines (parseFor tokens fuel) (parseFor tokens fuel')
  /\ refines (parseObjectDefinition tokens fuel) (parseObjectDefinition tokens fuel')
  /\ refines (parseFunction tokens fuel) (parseFunction tokens fuel')
  /\ refines (parseIf tokens fuel) (parseIf tokens fuel')
  /\ (forall elifs, refines (parseElifs tokens fuel elifs) (parseElifs tokens fuel' elifs))
  /\ refines (parseWhile tokens fuel) (parseWhile tokens fuel').

End Specs.

(** The [operator] fields of the binary expressions of a tree. *)
Fixpoint operators (e : expr) : list token_value :=
  match e with
  | Literal _ | Identifier _ => []
  | ArrayLiteral elements => flat_map operators elements
  | BinaryExpression l op r => op :: operators l ++ operators r
  | CallExpression callee arguments => operators callee ++ flat_map operators arguments
  | MemberExpression object _ => operators object
  | EvalCall argument => operators argument
  end%list.

Fixpoint stmt_operators (s : stmt) : list token_value :=
  match s with
  | Stmt node _ => statement_operators node
  end
with statement_operators (node : statement) : list token_value :=
  match node with
  | ImportStatement _ | BreakStatement | ContinueStatement => []
  | FunctionDeclaration _ _ body => flat_map stmt_operators body
  | ObjectDefinition _ _ properties _ => flat_map stmt_operators properties
  | Assignment _ _ value => operators value
  | IfStatement test consequent elifs alternate =>
      operators test ++ flat_map stmt_operators consequent
      ++ flat_map (fun elif => operators elif.1 ++ flat_map stmt_operators elif.2) elifs
      ++ match alternate with
         | Some alternate => flat_map stmt_operators alternate
         | None => []
         end
  | WhileStatement test body => operators test ++ flat_map stmt_operators body
  | ForStatement _ start end_ body =>
      operators start ++ operators end_ ++ flat_map stmt_operators body
  | ReturnStatement value => operators value
  | ExpressionStatement expression => operators expression
  end%list.

(** The operators that [Interpreter.evaluate] has a case for. *)
Definition known_operators : list string :=
  ["and"; "or"; "+"; "-"; "*"; "/"; "=="; "!="; ">"; "<"; ">="; "<="].

(** [op] is one of the known operators, read from an [and] or [or]
    identifier or from a SYMBOL token of [tokens]. *)
Definition operator_from (tokens : list token) (op : token_value) : Prop :=
  exists tok s,
    tok ∈ tokens /\ value tok = op /\ op = Text s /\ s ∈ known_operators
    /\ (type tok = SYMBOL \/ (type tok = IDENTIFIER /\ (s = "and" \/ s = "or"))).

Section OperatorSpecs.
Variable tokens : list token.

Definition expr_ok (e : expr) : Prop := Forall (operator_from tokens) (operators e).
Definition stmts_ok (body : list stmt) : Prop :=
  Forall (operator_from tokens) (flat_map stmt_operators body).
Definition statement_ok (node : statement) : Prop :=
  Forall (operator_from tokens) (statement_operators node).

(** What a method returns holds known operators only, provided that what
    it was given does. *)
Definition gives_expr (m : P expr) : Prop :=
  forall pos, wp false m (fun e _ => expr_ok e) pos.

Definition all_operators_known (fuel : nat) : Prop :=
  gives_expr (parseExpression tokens fuel)
  /\ gives_expr (parseLogicalOr tokens fuel)
  /\ (forall left, expr_ok left -> gives_expr (parseLogicalOr_loop tokens fuel left))
  /\ gives_expr (parseLogicalAnd tokens fuel)
  /\ (forall left, expr_ok left -> gives_expr (parseLogicalAnd_loop tokens fuel left))
  /\ gives_expr (parseComparison tokens fuel)
  /\ (forall left, expr_ok left -> gives_expr (parseComparison_loop tokens fuel left))
  /\ gives_expr (parseAdditive tokens fuel)
  /\ (forall left, expr_ok left -> gives_expr (parseAdditive_loop tokens fuel left))
  /\ gives_expr (parseMultiplicative tokens fuel)
  /\ (forall left, expr_ok left -> gives_expr (parseMultiplicative_loop tokens fuel left))
  /\ gives_expr (parsePrimary tokens fuel)
  /\ (forall e, expr_ok e -> gives_expr (parseSuffix tokens fuel e))
  /\ (forall items pos, Forall expr_ok items ->
        wp false (parseExpressions tokens fuel items) (fun es _ => Forall expr_ok es) pos).

Definition all_statement_operators_known (fuel : nat) : Prop :=
  (forall pos, wp false (parseBlock tokens fuel) (fun body _ => stmts_ok body) pos)
  /\ (forall statements pos, stmts_ok statements ->
        wp false (parseBlock_loop tokens fuel statements) (fun body _ => stmts_ok body) pos)
  /\ (forall pos, wp false (parseStatement tokens fuel) (fun s _ => stmts_ok [s]) pos)
  /\ (forall pos, wp false (parseFor tokens fuel) (fun node _ => statement_ok node) pos)
  /\ (forall pos, wp false (parseObjectDefinition tokens fuel)
                    (fun node _ => statement_ok node) pos)
  /\ (forall pos, wp false (parseFunction tokens fuel) (fun node _ => statement_ok node) pos)
  /\ (forall pos, wp false (parseIf tokens fuel) (fun node _ => statement_ok node) pos)
  /\ (forall elifs pos,
        Forall (fun elif => expr_ok elif.1 /\ stmts_ok elif.2) elifs ->
        wp false (parseElifs tokens fuel elifs)
           (fun elifs _ => Forall (fun elif => expr_ok elif.1 /\ stmts_ok elif.2) elifs) pos)
  /\ (forall pos, wp false (parseWhile tokens fuel) (fun node _ => statement_ok node) pos).

End OperatorSpecs.

End ParserSpec.

(** ** The module manager

    [ModuleManager] of the module registry: two maps from names, to the
    URLs of registered module texts and to registered objects, and a map
    of globals. [URL.createObjectURL] belongs to the host: [register] is
    given the URL it returns. *)

Module ModuleManager.

Record t := Build {
  modules : Map string;
  objects : Map value;
  globals : Map value
}.

(** The object as the module that declares it leaves it. *)
Definition init : t := Build [] [] [].

(** [register(name, content)], with [url] the URL the host made for the
    blob of [content]: the URL returned and the manager afterwards. *)
Definition register (mm : t) (name content url : string) : string * t :=
  (url, Build (Map_set (modules mm) name url) (objects mm) (globals mm)).

Definition registerObject (mm : t) (name : string) (obj : value) : t :=
  Build (modules mm) (Map_set (objects mm) name obj) (globals mm).

Definition resolve (mm : t) (name : string) : resolution :=
  if Map_has (objects mm) name then ResolvedObject (Map_get (objects mm) name)
  else match Map_lookup (modules mm) name with
       | Some url => ResolvedUrl url
       | None => ResolvedUrl ("./" ++ name)
       end.

Definition clearGlobals (mm : t) : t := Build (modules mm) (objects mm) [].

End ModuleManager.

(** The environment of the examples with [mm] as its module manager. *)
Definition example_host_with (mm : ModuleManager.t) : Host := {|
  host_binop := @host_binop example_host;
  host_ToNumber := @host_ToNumber example_host;
  host_ToString := @host_ToString example_host;
  host_member := @host_member example_host;
  host_entries := @host_entries example_host;
  host_apply := @host_apply example_host;
  deps_ModuleManager_resolve := ModuleManager.resolve mm;
  host_import := @host_import example_host;
  deps_Lexer_tokenize := @deps_Lexer_tokenize example_host;
  deps_Parser_parse := @deps_Parser_parse example_host
|}.

(** ** Blocks in the tokens of a source text *)

Module BlockSpec.
Import Lexer Parser ParserSpec.

Definition structural_token (tok : token) : bool :=
  bool_decide (type tok = INDENT) || bool_decide (type tok = DEDENT).

(** An INDENT or a DEDENT stands first or right after a NEWLINE or a
    DEDENT; [prev] is the token before [toks], if any. *)
Fixpoint follows (prev : option token) (toks : list token) : bool :=
  match toks with
  | [] => true
  | tok :: rest =>
      (negb (structural_token tok)
       || match prev with
          | Some p => bool_decide (type p = NEWLINE) || bool_decide (type p = DEDENT)
          | None => true
          end)
      && follows (Some tok) rest
  end.

(** The invariant of the lexer for [follows]: the tokens so far are empty
    or end on a NEWLINE or a DEDENT. *)
Definition last_ok (toks : list token) : Prop :=
  match last toks with
  | Some p => type p = NEWLINE \/ type p = DEDENT
  | None => True
  end.

Record placed (toks : list token) : Prop := {
  placed_follows : follows None toks = true;
  placed_last : last_ok toks
}.

Section Counts.
Variable tokens : list token.

(** The INDENT and the DEDENT tokens before [pos]. *)
Definition opens (pos : nat) : nat := count INDENT (take pos tokens).
Definition closes (pos : nat) : nat := count DEDENT (take pos tokens).

(** What a token of type [type_] at [pos] adds to the two counts. *)
Definition level_step (type_ : token_type) (pos : nat) : Prop :=
  match type_ with
  | INDENT => opens (S pos) = S (opens pos) /\ closes (S pos) = closes pos
  | DEDENT => opens (S pos) = opens pos /\ closes (S pos) = S (closes pos)
  | _ => opens (S pos) = opens pos /\ closes (S pos) = closes pos
  end.

(** The token before [pos] is neither a NEWLINE, nor an INDENT nor a DEDENT. *)
Definition plain_before (pos : nat) : Prop :=
  exists pos0 prev,
    pos = S pos0 /\ tokens !! pos0 = Some prev
    /\ type prev <> NEWLINE /\ type prev <> INDENT /\ type prev <> DEDENT.

(** From [pos] to [pos'] as many blocks are opened as are closed. *)
Definition level (pos pos' : nat) : Prop :=
  opens pos' + closes pos = opens pos + closes pos'.

Definition keeps_level {A} (m : P A) : Prop :=
  forall pos, wp false m (fun _ pos' => level pos pos') pos.

Definition all_keep_level (fuel : nat) : Prop :=
  keeps_level (parseExpression tokens fuel)
  /\ keeps_level (parseLogicalOr tokens fuel)
  /\ (forall left, keeps_level (parseLogicalOr_loop tokens fuel left))
  /\ keeps_level (parseLogicalAnd tokens fuel)
  /\ (forall left, keeps_level (parseLogicalAnd_loop tokens fuel left))
  /\ keeps_level (parseComparison tokens fuel)
  /\ (forall left, keeps_level (parseComparison_loop tokens fuel left))
  /\ keeps_level (parseAdditive tokens fuel)
  /\ (forall left, keeps_level (parseAdditive_loop tokens fuel left))
  /\ keeps_level (parseMultiplicative tokens fuel)
  /\ (forall left, keeps_level (parseMultiplicative_loop tokens fuel left))
  /\ keeps_level (parsePrimary tokens fuel)
  /\ (forall e, keeps_level (parseSuffix tokens fuel e))
  /\ (forall items, keeps_level (parseExpressions tokens fuel items)).

Definition all_statements_keep_level (fuel : nat) : Prop :=
  keeps_level (parseBlock tokens fuel)
  /\ (forall statements, keeps_level (parseBlock_loop tokens fuel statements))
  /\ keeps_level (parseStatement tokens fuel)
  /\ keeps_level (parseFor tokens fuel)
  /\ keeps_level (parseObjectDefinition tokens fuel)
  /\ keeps_level (parseFunction tokens fuel)
  /\ keeps_level (parseIf tokens fuel)
  /\ (forall elifs, keeps_level (parseElifs tokens fuel elifs))
  /\ keeps_level (parseWhile tokens fuel).

End Counts.

(** A loop with a block of one line, closed by the end of the text. *)
Definition loop_source : string := "while x
  x = x - 1".

End BlockSpec.

(** * The older interpreter

    A shallow embedding of the [Interpreter] of [src/unnamed/part_001],
    which runs the same syntax trees. Its scopes are plain [Map]s without
    parent: a call works on a copy of the map the function was declared in,
    and an assignment writes the current map or the globals. Maps, plain
    objects and arrays live in stores indexed by address. As for the
    interpreter above, the embedding follows one script on its own, and
    follows the elements of an array literal and the arguments of a call
    when they run as if one after the other. *)

Module Legacy.

(** The functions a script can hold: the two built-ins the constructor
    installs, and functions the embedding host supplies. *)
Inductive builtin :=
  | Print
  | Input
  | External (name : string).

Inductive value :=
  | VUndefined
  | VNull
  | VBool (b : bool)
  | VNum (n : float)
  | VStr (s : string)
  (** a plain object or an array made by the interpreter, by its address *)
  | VObject (addr : nat)
  (** an object owned by the host, by its name *)
  | VHostObject (name : string)
  (** the arrow function made by a function declaration: [id] tells two
      function objects apart, [scope] is the address of the captured map *)
  | VClosure (id : nat) (params : list string) (body : list stmt) (scope : nat)
  | VBuiltin (b : builtin).

(** What the interpreter allocates besides maps. *)
Inductive cell :=
  | Plain (properties : Map value)
  | Array (items : list value).

(** [m.get(k)]: [undefined] for an absent key. *)
Definition Map_get (m : Map value) (k : string) : value :=
  default VUndefined (Map_lookup m k).

Definition typeof (v : value) : string :=
  match v with
  | VUndefined => "undefined"
  | VNull | VObject _ | VHostObject _ => "object"
  | VBool _ => "boolean"
  | VNum _ => "number"
  | VStr _ => "string"
  | VClosure _ _ _ _ | VBuiltin _ => "function"
  end.

(** The truth value a condition takes ([if (v)], [v || w], [v && w]). *)
Definition truthy (v : value) : bool :=
  match v with
  | VUndefined | VNull => false
  | VBool b => b
  | VNum n => negb (PrimFloat.eqb n 0 || PrimFloat.is_nan n)
  | VStr s => negb (String.eqb s "")
  | VObject _ | VHostObject _ | VClosure _ _ _ _ | VBuiltin _ => true
  end.

(** [String(v)] of the values that need no number formatting. *)
Definition textual (v : value) : option string :=
  match v with
  | VUndefined => Some "undefined"
  | VNull => Some "null"
  | VBool true => Some "true"
  | VBool false => Some "false"
  | VStr s => Some s
  | _ => None
  end.

(** [parts.join(sep)] *)
Fixpoint join (sep : string) (parts : list string) : string :=
  match parts with
  | [] => ""
  | [p] => p
  | p :: rest => p ++ sep ++ join sep rest
  end.

(** ** What the embedding environment supplies

    The operators of the host language, its conversions to strings, what
    it answers for its own objects and functions, the module registry of
    the page, the input callback, and the lexer and parser that [eval]
    imports. *)
Class Host := {
  (** [l op r] for the ten operators of the [switch] *)
  js_binop : string -> value -> value -> value;
  (** [String(v)] for a value that needs formatting *)
  js_String : value -> string;
  (** [JSON.stringify(v)] for an object that is no array *)
  JSON_stringify : list cell -> value -> Js.completion string;
  (** the elements of a host object, when it is an array *)
  host_items : string -> option (list value);
  (** [v[prop]] when [prop] is not an own property of a plain object *)
  host_member : list cell -> value -> string -> value;
  (** the own enumerable properties of an array and of a host object *)
  array_entries : list value -> Map value;
  host_entries : string -> Map value;
  (** [fn(...args)] for a function of the host, which may read the objects
      it is handed *)
  host_apply : string -> list value -> list cell -> Js.completion value;
  (** [window.__sqrdModules?.get(name)], when it is truthy *)
  sqrdModules_get : string -> option string;
  (** [mod.default || mod] after [import(url)] *)
  host_import : string -> Js.completion value;
  (** [ops[op](val)] for an [op] that is no key of the table of an
      assignment: the [TypeError] of calling [undefined], unless the
      prototype of the table has the key *)
  ops_inherited : string -> value -> Js.completion value;
  (** [this.inputPrompt(message)] *)
  inputPrompt : string -> Js.completion value;
  (** [new Lexer(code).tokenize()] and [new Parser(tokens).parse().body],
      after [import('./parser.js')] *)
  Lexer_tokenize : string -> Js.completion (list Lexer.token);
  Parser_parse : list Lexer.token -> Js.completion (list stmt)
}.

(** ** The state of an [Interpreter] instance *)

Record Interpreter := mkInterpreter {
  (** every [Map] used as a scope so far, by address *)
  maps : list (Map value);
  (** every plain object and array created so far, by address *)
  heap : list cell;
  (** number of function objects made by declarations *)
  functions : nat;
  (** the strings handed to [this.output] *)
  output : list string;
  globals : nat;
  stop : bool
}.

Definition set_maps (f : list (Map value) -> list (Map value)) (st : Interpreter)
  : Interpreter :=
  mkInterpreter (f (maps st)) (heap st) (functions st) (output st) (globals st) (stop st).

(** [new Interpreter(outputCallback, inputCallback, externalScope)], with
    the entries of [externalScope] when it is given: the built-ins are
    installed under the names that it leaves free. *)
Definition new_Interpreter (externalScope : option (Map value)) : Interpreter :=
  let g0 := default [] externalScope in
  let g1 := if Map_has g0 "print" then g0 else Map_set g0 "print" (VBuiltin Print) in
  let g2 := if Map_has g1 "input" then g1 else Map_set g1 "input" (VBuiltin Input) in
  mkInterpreter [g2] [] 0 [] 0 false.

(** ** Calls that may throw, on the interpreter state *)

Inductive outcome (A : Type) :=
  | Returned (a : A) (st : Interpreter)
  | Thrown (e : Js.exn) (st : Interpreter)
  | OutOfFuel.
Global Arguments Returned {A} a st.
Global Arguments Thrown {A} e st.
Global Arguments OutOfFuel {A}.

Definition M (A : Type) := Interpreter -> outcome A.

Definition ret {A} (a : A) : M A := fun st => Returned a st.

Definition bind {A B} (m : M A) (k : A -> M B) : M B :=
  fun st =>
    match m st with
    | Returned a st' => k a st'
    | Thrown e st' => Thrown e st'
    | OutOfFuel => OutOfFuel
    end.

Definition throw {A} (message : string) : M A := fun st => Thrown (Js.Error message) st.
Definition out_of_fuel {A} : M A := fun _ => OutOfFuel.
Definition gets {A} (f : Interpreter -> A) : M A := fun st => Returned (f st) st.
Definition modify (f : Interpreter -> Interpreter) : M unit := fun st => Returned tt (f st).

Definition lift {A} (c : Js.completion A) : M A :=
  fun st => match c with
            | Js.Normal a => Returned a st
            | Js.Throw e => Thrown e st
            end.

Declare Scope legacy_scope.
Delimit Scope legacy_scope with legacy.
Notation "'let*' x ':=' m 'in' k" := (bind m (fun x => k))
  (at level 10, x name, m at level 100, k at level 200) : legacy_scope.
Notation "m ';;' k" := (bind m (fun _ => k))
  (at level 100, k at level 200, right associativity) : legacy_scope.
Local Open Scope legacy_scope.

(** [items.map(f)] for an [f] that may throw *)
Fixpoint mapM {A B} (f : A -> M B) (items : list A) : M (list B) :=
  match items with
  | [] => ret []
  | a :: rest =>
      let* b := f a in
      let* bs := mapM f rest in
      ret (b :: bs)
  end.

(** *** State accessors *)

(** [scope.has(k)] *)
Definition has_in (maps : list (Map value)) (scope : nat) (k : string) : bool :=
  match maps !! scope with
  | Some m => Map_has m k
  | None => false
  end.

(** [scope.get(k)] *)
Definition get_in (maps : list (Map value)) (scope : nat) (k : string) : value :=
  match maps !! scope with
  | Some m => Map_get m k
  | None => VUndefined
  end.

Definition map_has (scope : nat) (k : string) : M bool :=
  gets (fun st => has_in (maps st) scope k).

Definition map_get (scope : nat) (k : string) : M value :=
  gets (fun st => get_in (maps st) scope k).

(** [scope.set(k, v)] *)
Definition map_set (scope : nat) (k : string) (v : value) : M unit :=
  modify (set_maps (alter (fun m => Map_set m k v) scope)).

(** [scope.delete(k)] *)
Definition map_delete (scope : nat) (k : string) : M unit :=
  modify (set_maps (alter (fun m => Map_delete m k) scope)).

(** [new Map(entries)]: the address of the new map. *)
Definition new_Map (entries : Map value) : M nat :=
  fun st => Returned (length (maps st)) (set_maps (fun s => (s ++ [entries])%list) st).

(** A new plain object or array. *)
Definition new_cell (c : cell) : M value :=
  fun st => Returned (VObject (length (heap st)))
    (mkInterpreter (maps st) (heap st ++ [c])%list (functions st) (output st)
                   (globals st) (stop st)).

(** The arrow function of a declaration: a new function object. *)
Definition new_function (params : list string) (body : list stmt) (scope : nat) : M value :=
  fun st => Returned (VClosure (functions st) params body scope)
    (mkInterpreter (maps st) (heap st) (S (functions st)) (output st)
                   (globals st) (stop st)).

(** [this.output(text)] *)
Definition emit (text : string) : M unit :=
  modify (fun st =>
    mkInterpreter (maps st) (heap st) (functions st) (output st ++ [text])%list
                  (globals st) (stop st)).

Definition with_stop (b : bool) (st : Interpreter) : Interpreter :=
  mkInterpreter (maps st) (heap st) (functions st) (output st) (globals st) b.

(** [this.stop = b] *)
Definition set_stop (b : bool) : M unit := modify (with_stop b).

(** The name under which a [return] leaves its value in the scope. *)
Definition return_value : string := "__return_value__".

(** *** Elements that run in turn

    [list.map(e => this.evaluateExpression(e, scope))] calls the method on
    every element, and each call runs until its first [await]: a literal
    and an identifier are done by then; any other node has only started,
    and goes on when [Promise.all] is awaited. *)

(** [evaluateExpression] completes on the node without awaiting. *)
Definition immediate (node : expr) : bool :=
  match node with
  | Literal _ | Identifier _ => true
  | _ => false
  end.

(** [evaluateExpression] completes without awaiting, reading or throwing. *)
Definition constant (node : expr) : bool :=
  match node with
  | Literal _ => true
  | _ => false
  end.

(** The elements run as if one after the other: none awaits (the values
    are read in order and the first error by index is thrown), or one at
    most is no constant (it runs alone). *)
Definition in_turn (nodes : list expr) : bool :=
  forallb immediate nodes
  || (length (List.filter (fun node => negb (constant node)) nodes) <=? 1)%nat.

(** Elements that run interleaved: the embedding does not follow them. *)
Definition interleaved {A} : M A := fun _ => OutOfFuel.

Section Interpreter.
Context `{Host}.

(** [String(v)] *)
Definition ToString (v : value) : string := default (js_String v) (textual v).

(** The inner [switch] of a binary expression; an operator outside the
    ten cases leaves it and the method returns [null]. *)
Definition binop (op : string) (l r : value) : value :=
  if existsb (String.eqb op) ["+"; "-"; "*"; "/"; "=="; "!="; ">"; "<"; ">="; "<="]
  then js_binop op l r
  else VNull.

(** [ops[op](val)], with [cur] the value that the table closes over. *)
Definition ops (op : string) (cur val : value) : M value :=
  if String.eqb op "=" then ret val
  else if String.eqb op "+=" then ret (js_binop "+" cur val)
  else if String.eqb op "-=" then ret (js_binop "-" cur val)
  else if String.eqb op "*=" then ret (js_binop "*" cur val)
  else if String.eqb op "/=" then ret (js_binop "/" cur val)
  else lift (ops_inherited op val).

(** The own enumerable properties copied by [{ ...p }]. *)
Definition spread (p : value) : M (Map value) :=
  gets (fun st =>
    match p with
    | VObject a =>
        match heap st !! a with
        | Some (Plain properties) => properties
        | Some (Array items) => array_entries items
        | None => []
        end
    | VHostObject h => host_entries h
    | _ => []
    end).

(** [obj[prop]] *)
Definition member (obj : value) (prop : string) : M value :=
  gets (fun st =>
    match obj with
    | VObject a =>
        match heap st !! a with
        | Some (Plain properties) =>
            if Map_has properties prop then Map_get properties prop
            else host_member (heap st) obj prop
        | _ => host_member (heap st) obj prop
        end
    | _ => host_member (heap st) obj prop
    end).

(** [node.params.forEach((p, i) => localScope.set(p, args[i]))], from index [i]. *)
Fixpoint bind_params (localScope : nat) (i : nat) (params : list string) (args : list value)
  : M unit :=
  match params with
  | [] => ret tt
  | p :: ps =>
      map_set localScope p (default VUndefined (args !! i));;
      bind_params localScope (S i) ps args
  end.

(** [stringify(val)] *)
Fixpoint stringify (fuel : nat) (val : value) {struct fuel} : M string :=
  match fuel with
  | O => out_of_fuel
  | S fuel =>
      match val with
      | VNull => ret "null"
      | VObject a =>
          let* c := gets (fun st => heap st !! a) in
          match c with
          | Some (Array items) =>
              let* parts := mapM (stringify fuel) items in
              ret ("[" ++ join ", " parts ++ "]")
          | _ => let* h := gets heap in lift (JSON_stringify h val)
          end
      | VHostObject name =>
          match host_items name with
          | Some items =>
              let* parts := mapM (stringify fuel) items in
              ret ("[" ++ join ", " parts ++ "]")
          | None => let* h := gets heap in lift (JSON_stringify h val)
          end
      | _ => ret (ToString val)
      end
  end.

(** ** [executeBlock], [executeStatement] and [evaluateExpression]

    Every call consumes one unit of [fuel]. *)

Fixpoint executeBlock_from (fuel : nat) (lastResult : value) (statements : list stmt)
    (scope : nat) {struct fuel} : M value :=
  match fuel with
  | O => out_of_fuel
  | S fuel =>
      match statements with
      | [] => ret lastResult
      | stmt :: rest =>
          let* stopped := gets stop in
          if stopped then ret VNull else
          let* lastResult := executeStatement fuel stmt scope in
          let* returning := map_has scope return_value in
          if returning then map_get scope return_value else
          executeBlock_from fuel lastResult rest scope
      end
  end

with executeStatement (fuel : nat) (node : stmt) (scope : nat) {struct fuel} : M value :=
  match fuel with
  | O => out_of_fuel
  | S fuel =>
      let* stopped := gets stop in
      if stopped then ret VNull else
      match node with
      | ImportStatement moduleName =>
          let url := default ("./" ++ moduleName) (sqrdModules_get moduleName) in
          let* mod_ := lift (host_import url) in
          map_set scope (before_dot moduleName) mod_;;
          ret VUndefined
      | FunctionDeclaration name params body =>
          let* fn := new_function params body scope in
          map_set scope name fn;;
          ret VUndefined
      | ObjectDefinition name parent properties =>
          let* obj :=
            match parent with
            | Some parentName =>
                (* [node.parent && ...]: an empty name counts as none *)
                if String.eqb parentName "" then ret [] else
                let* p := map_get scope parentName in
                if String.eqb (typeof p) "object" then spread p else ret []
            | None => ret []
            end in
          let* objScope := new_Map obj in
          let* _ := executeBlock_from fuel VNull properties objScope in
          let* entries := gets (fun st => default [] (maps st !! objScope)) in
          let* made := new_cell (Plain entries) in
          map_set scope name made;;
          ret VUndefined
      | Assignment name operator value =>
          let* val := evaluateExpression fuel value scope in
          let* own := map_has scope name in
          let* g := gets globals in
          let target := if own then scope else g in
          let* found := map_get target name in
          let cur := if truthy found then found else VNum 0 in
          let* v := ops operator cur val in
          map_set target name v;;
          ret VUndefined
      | IfStatement test consequent _ alternate =>
          let* t := evaluateExpression fuel test scope in
          if truthy t then executeBlock_from fuel VNull consequent scope
          else
            match alternate with
            | Some body => executeBlock_from fuel VNull body scope
            | None => ret VUndefined
            end
      | WhileStatement test body =>
          executeWhile fuel test body scope
      | ReturnStatement value =>
          let* val := evaluateExpression fuel value scope in
          map_set scope return_value val;;
          ret val
      | ExpressionStatement expression =>
          evaluateExpression fuel expression scope
      (* no case for these: the switch is left and the method returns
         undefined *)
      | ForStatement _ _ _ _ | BreakStatement | ContinueStatement => ret VUndefined
      end
  end

(** The [while] loop of a [WhileStatement], and what the statement returns. *)
with executeWhile (fuel : nat) (test : expr) (body : list stmt) (scope : nat)
    {struct fuel} : M value :=
  match fuel with
  | O => out_of_fuel
  | S fuel =>
      let* stopped := gets stop in
      if stopped then ret VUndefined else
      let* t := evaluateExpression fuel test scope in
      if negb (truthy t) then ret VUndefined else
      let* res := executeBlock_from fuel VNull body scope in
      let* returning := map_has scope return_value in
      if returning then ret res else
      executeWhile fuel test body scope
  end

with evaluateExpression (fuel : nat) (node : expr) (scope : nat) {struct fuel} : M value :=
  match fuel with
  | O => out_of_fuel
  | S fuel =>
      match node with
      | Literal (LNum n) => ret (VNum n)
      | Literal (LStr s) => ret (VStr s)
      | Literal (LBool b) => ret (VBool b)
      | ArrayLiteral elements =>
          let* items := evaluateAll fuel elements scope in
          new_cell (Array items)
      | Identifier name =>
          let* own := map_has scope name in
          if negb own then throw ("Undefined variable: " ++ name)
          else map_get scope name
      | BinaryExpression node_left operator node_right =>
          let* left := evaluateExpression fuel node_left scope in
          let* right := evaluateExpression fuel node_right scope in
          ret (binop operator left right)
      | CallExpression node_callee arguments =>
          let* callee := evaluateExpression fuel node_callee scope in
          let* args := evaluateAll fuel arguments scope in
          if String.eqb (typeof callee) "function" then call fuel callee args
          else ret VNull
      | MemberExpression object property =>
          let* obj := evaluateExpression fuel object scope in
          if truthy obj && String.eqb (typeof obj) "object" then member obj property
          else ret VNull
      | EvalCall argument =>
          let* code := evaluateExpression fuel argument scope in
          let* tokens := lift (Lexer_tokenize (ToString code)) in
          let* body := lift (Parser_parse tokens) in
          match body with
          | ExpressionStatement expression :: _ => evaluateExpression fuel expression scope
          | _ => executeBlock_from fuel VNull body scope
          end
      end
  end

(** [Promise.all(nodes.map(e => this.evaluateExpression(e, scope)))], for
    elements that run in turn. *)
with evaluateAll (fuel : nat) (nodes : list expr) (scope : nat) {struct fuel}
    : M (list value) :=
  match fuel with
  | O => out_of_fuel
  | S fuel =>
      if negb (in_turn nodes) then interleaved else
      match nodes with
      | [] => ret []
      | node :: rest =>
          let* v := evaluateExpression fuel node scope in
          let* vs := evaluateAll fuel rest scope in
          ret (v :: vs)
      end
  end

(** [callee(...args)] for a value whose [typeof] is [function]. *)
with call (fuel : nat) (callee : value) (args : list value) {struct fuel} : M value :=
  match fuel with
  | O => out_of_fuel
  | S fuel =>
      match callee with
      | VClosure _ params body scope =>
          let* entries := gets (fun st => default [] (maps st !! scope)) in
          let* localScope := new_Map entries in
          bind_params localScope 0 params args;;
          let* res := executeBlock_from fuel VNull body localScope in
          map_delete localScope return_value;;
          ret res
      | VBuiltin Print =>
          let* parts := mapM (stringify fuel) args in
          emit (join " " parts);;
          ret VUndefined
      | VBuiltin Input =>
          let* message := stringify fuel (default VUndefined (args !! 0)) in
          lift (inputPrompt message)
      | VBuiltin (External name) =>
          let* h := gets heap in
          lift (host_apply name args h)
      (* not reached: a call is made on functions only *)
      | _ => throw "TypeError: callee is not a function"
      end
  end.

(** [executeBlock(statements, scope)] *)
Definition executeBlock (fuel : nat) (statements : list stmt) (scope : nat) : M value :=
  executeBlock_from fuel VNull statements scope.

(** [run(ast)] *)
Definition run (fuel : nat) (body : list stmt) : M value :=
  set_stop false;;
  let* g := gets globals in
  executeBlock fuel body g.

End Interpreter.

(** An embedding environment for the examples: numbers are added, the host
    offers nothing else of its own, and [eval] finds no parser. *)
Definition example_host : Host := {|
  js_binop := fun op l r =>
    match l, r with
    | VNum x, VNum y => if String.eqb op "+" then VNum (x + y) else VUndefined
    | _, _ => VUndefined
    end;
  js_String := fun _ => "[object Object]";
  JSON_stringify := fun _ _ => Js.Normal "{}";
  host_items := fun _ => None;
  host_member := fun _ _ _ => VUndefined;
  array_entries := fun _ => [];
  host_entries := fun _ => [];
  host_apply := fun _ _ _ => Js.Throw (Js.Error "no such function");
  sqrdModules_get := fun _ => None;
  host_import := fun _ => Js.Throw (Js.Error "no such module");
  ops_inherited := fun _ _ => Js.Throw (Js.Error "TypeError: ops[node.operator] is not a function");
  inputPrompt := fun _ => Js.Normal (VStr "");
  Lexer_tokenize := fun _ => Js.Throw (Js.Error "no parser");
  Parser_parse := fun _ => Js.Throw (Js.Error "no parser")
|}.

End Legacy.

(** ** What the statements on the older interpreter speak of *)

Module LegacySpec.
Import Legacy.

(** From [st] to [st'] only the maps in [F] and the globals were written
    and only the maps in [D] lost a key: the globals are the same map, the
    other maps that existed are as they were, the objects and arrays that
    existed are as they were, and the [stop] flag is as it was. *)
Record only_writes (F D : nat -> Prop) (st st' : Interpreter) : Prop := {
  ow_globals : globals st' = globals st;
  ow_length : length (maps st) <= length (maps st');
  ow_same : forall a, a < length (maps st) -> ~ F a -> a <> globals st ->
            maps st' !! a = maps st !! a;
  ow_keys : forall a k, ~ D a -> has_in (maps st) a k = true -> has_in (maps st') a k = true;
  ow_heap : heap st `prefix_of` heap st';
  ow_stop : stop st' = stop st
}.

Definition nowhere : nat -> Prop := fun _ => False.

(** From [st] to [st'] only the maps in [F] and the globals were written
    and no map lost a key: the globals are the same map, the other maps
    that existed are as they were, and the [stop] flag is as it was. *)
Definition maps_kept (F : nat -> Prop) (st st' : Interpreter) : Prop :=
  globals st' = globals st
  /\ length (maps st) <= length (maps st')
  /\ (forall a, a < length (maps st) -> ~ F a -> a <> globals st ->
        maps st' !! a = maps st !! a)
  /\ (forall a k, has_in (maps st) a k = true -> has_in (maps st') a k = true)
  /\ stop st' = stop st.

Definition keeps (F D : nat -> Prop) {A} (m : M A) : Prop :=
  forall st,
    match m st with
    | Returned _ st' | Thrown _ st' => only_writes F D st st'
    | OutOfFuel => True
    end.

(** No [eval] in an expression. *)
Fixpoint eval_free (e : expr) : bool :=
  match e with
  | Literal _ | Identifier _ => true
  | ArrayLiteral elements => forallb eval_free elements
  | BinaryExpression l _ r => eval_free l && eval_free r
  | CallExpression callee arguments => eval_free callee && forallb eval_free arguments
  | MemberExpression object _ => eval_free object
  | EvalCall _ => false
  end.

(** An assignment whose right-hand side holds no [eval]. *)
Definition plain_assignment (s : stmt) : bool :=
  match s with
  | Assignment _ _ e => eval_free e
  | _ => false
  end.

(** The name an assignment writes. *)
Definition assigned_name (s : stmt) : option string :=
  match s with
  | Assignment name _ _ => Some name
  | _ => None
  end.

Section Specs.
Context `{Host}.

Definition all_keep (fuel : nat) : Prop :=
  (forall res statements scope,
     keeps (eq scope) nowhere (executeBlock_from fuel res statements scope))
  /\ (forall node scope, keeps (eq scope) nowhere (executeStatement fuel node scope))
  /\ (forall test body scope, keeps (eq scope) nowhere (executeWhile fuel test body scope))
  /\ (forall node scope, keeps (eq scope) nowhere (evaluateExpression fuel node scope))
  /\ (forall node scope, eval_free node = true ->
        keeps nowhere nowhere (evaluateExpression fuel node scope))
  /\ (forall nodes scope, keeps (eq scope) nowhere (evaluateAll fuel nodes scope))
  /\ (forall nodes scope, forallb eval_free nodes = true ->
        keeps nowhere nowhere (evaluateAll fuel nodes scope))
  /\ (forall callee args, keeps nowhere nowhere (call fuel callee args)).

End Specs.

End LegacySpec.

(** * Properties of the lexer *)

Module LexerFacts.
Import Js Lexer.
Local Open Scope list_scope.

Lemma count_app ty (a b : list token) : count ty (a ++ b) = count ty a + count ty b.
Proof. unfold count. by rewrite filter_app, length_app. Qed.

Lemma count_singleton ty tok : count ty [tok] = if decide (type tok = ty) then 1 else 0.
Proof. unfold count. rewrite filter_cons. by destruct (decide _). Qed.

Lemma classify_type lineNum val : ~ structural (type (classify lineNum val)).
Proof.
  unfold classify, structural.
  repeat match goal with |- context [if ?b then _ else _] => destruct b end;
    simpl; intros [?|?]; discriminate.
Qed.

Lemma tokenizeLine_from_count ty lineNum skip s :
  structural ty -> count ty (tokenizeLine_from lineNum skip s) = 0.
Proof.
  intros Hty. revert skip.
  induction s as [|c rest IH]; intros skip; cbn [tokenizeLine_from]; [done|].
  destruct skip as [|k]; [|apply IH].
  destruct (regex_match_at _) as [len|]; [|apply IH].
  match goal with |- context [if ?b then _ else _] => destruct b end; [done|].
  change (?x :: ?l) with ([x] ++ l). rewrite count_app, IH, count_singleton.
  destruct (decide _) as [Heq|]; [|done].
  exfalso. eapply classify_type. by rewrite Heq.
Qed.

Lemma dedent_to_balanced indent lineNum toks stack :
  balanced toks stack ->
  balanced (dedent_to indent lineNum toks stack).1 (dedent_to indent lineNum toks stack).2.
Proof.
  intros (above & -> & Hc). revert toks Hc.
  induction above as [|top above IH]; intros toks Hc; simpl.
  - exists []. done.
  - destruct (indent <? top)%nat; [|by exists (top :: above)].
    apply IH. rewrite !count_app, !count_singleton. cbn [type length] in *.
    repeat case_decide; simplify_eq; lia.
Qed.

Lemma handle_indent_balanced lx indent lineNum :
  balanced (tokens lx) (indentStack lx) ->
  balanced (tokens (handle_indent lx indent lineNum))
           (indentStack (handle_indent lx indent lineNum)).
Proof.
  intros Hb. unfold handle_indent.
  destruct (indentStack lx) as [|top below] eqn:Hs; [by rewrite Hs|].
  destruct (top <? _)%nat.
  - destruct Hb as (above & Hst & Hc). exists (indent :: above).
    cbn [tokens indentStack]. rewrite Hst. split; [done|].
    rewrite !count_app, !count_singleton. cbn [type length] in *.
    repeat case_decide; simplify_eq; lia.
  - rewrite <- Hs in Hb |- *.
    pose proof (dedent_to_balanced indent lineNum _ _ Hb) as Hd.
    by destruct (dedent_to _ _ _ _) as [toks st].
Qed.

Lemma tokenize_step_balanced lx i raw :
  balanced (tokens lx) (indentStack lx) ->
  balanced (tokens (tokenize_step lx i raw)) (indentStack (tokenize_step lx i raw)).
Proof.
  intros Hb. unfold tokenize_step.
  destruct (_ || _); [done|].
  destruct (handle_indent_balanced lx (indent_width raw) (i + 1) Hb) as (above & Hst & Hc).
  exists above. split; [done|]. cbn [tokens]. unfold tokenizeLine.
  rewrite !count_app, !count_singleton, !tokenizeLine_from_count by (by left + by right).
  cbn [type]. repeat case_decide; simplify_eq; lia.
Qed.

Lemma tokenize_lines_balanced lines lx i :
  balanced (tokens lx) (indentStack lx) ->
  balanced (tokens (tokenize_lines lx i lines)) (indentStack (tokenize_lines lx i lines)).
Proof.
  revert lx i. induction lines as [|raw rest IH]; intros lx i Hb; simpl; [done|].
  by apply IH, tokenize_step_balanced.
Qed.

Lemma close_indents_cons toks a b l :
  close_indents toks (a :: b :: l)
  = close_indents (toks ++ [Token DEDENT NoValue None]) (b :: l).
Proof. done. Qed.

Lemma close_indents_balanced toks stack :
  balanced toks stack ->
  (close_indents toks stack).2 = [0]
  /\ count INDENT (close_indents toks stack).1 = count DEDENT (close_indents toks stack).1.
Proof.
  intros (above & -> & Hc). revert toks Hc.
  induction above as [|top above IH]; intros toks Hc.
  - simpl in *. split; [done|lia].
  - change ((top :: above) ++ [0]) with (top :: (above ++ [0])).
    destruct (above ++ [0]) as [|x l] eqn:Hl; [by destruct above|].
    rewrite close_indents_cons. apply IH.
    rewrite !count_app, !count_singleton. cbn [type length] in *.
    repeat case_decide; simplify_eq; lia.
Qed.

(** C6. On every input the tokens that [tokenize] returns hold exactly as
    many INDENT as DEDENT tokens, and the indentation stack of the lexer
    is back at its single base level, [[0]], at the end of the input:
    the closing loop pops whatever the source left open. *)
Theorem indent_dedent_balance (input : string) :
  exists toks,
    tokenize input = Normal toks
    /\ count INDENT toks = count DEDENT toks
    /\ indentStack (run input) = [0].
Proof.
  exists (tokens (run input)). split; [done|]. unfold run.
  pose proof (tokenize_lines_balanced (split_lines input) init 0) as Hb.
  destruct (close_indents_balanced _ _ (Hb (ex_intro _ [] (conj eq_refl eq_refl)))) as [Hs Hc].
  by destruct (close_indents _ _) as [toks st].
Qed.

Lemma drop_span_all p s : all_chars p s = true -> drop (span_len p s) s = EmptyString.
Proof.
  induction s as [|c r IH]; simpl; [done|].
  intros [Hc Hr]%andb_true_iff. rewrite Hc. simpl. auto.
Qed.

Lemma span_ident_no_hash s :
  all_chars (fun c => negb (Ascii.eqb c "#")) s = true ->
  startsWith "#" (drop (span_len is_ident_char s) s) = false.
Proof.
  induction s as [|c r IH]; cbn [span_len drop all_chars startsWith]; [done|].
  intros [Hc Hr]%andb_true_iff.
  destruct (is_ident_char c); cbn [span_len drop all_chars startsWith]; [auto|].
  rewrite Ascii.eqb_sym. by destruct (Ascii.eqb c "#").
Qed.

Lemma regex_no_match_dquote s :
  all_chars (fun c => negb (is_dquote c)) s = true ->
  regex_match_at (String dquote s) = None.
Proof.
  intros Hs. unfold regex_match_at, first_match. cbn [fold_right].
  unfold re_string. change (is_dquote dquote) with true. cbv iota.
  rewrite (drop_span_all _ _ Hs). by destruct s.
Qed.

Lemma regex_no_match_hash s :
  all_chars (fun c => negb (Ascii.eqb c "#")) s = true ->
  regex_match_at (String "#" s) = None.
Proof.
  intros Hs. unfold regex_match_at, first_match. cbn [fold_right].
  assert (re_obj_identifier (String "#" s) = None) as ->.
  { destruct s as [|d r]; [done|]. cbn [all_chars] in Hs.
    apply andb_true_iff in Hs as [_ Hr]. unfold re_obj_identifier.
    change (Ascii.eqb "#" "#") with true. cbn [andb].
    destruct (is_ident_start d); [|done]. by rewrite (span_ident_no_hash _ Hr). }
  by destruct s.
Qed.

(** C3, as amended. Tokenization has no error path. When a line (or what
    is left of it) starts with a double quote that no later double quote
    closes, or with a [#] that no later [#] closes, no alternative of the
    token expression matches at that character: the lexer passes over it
    and the rest is tokenized as if the character were not there; the call
    completes normally. *)
Theorem unterminated_delimiter_is_skipped (delim : ascii) (s : string) (lineNum : nat) :
  delim = dquote \/ delim = "#"%char ->
  all_chars (fun c => negb (Ascii.eqb c delim)) s = true ->
  tokenizeLine (String delim s) lineNum = tokenizeLine s lineNum
  /\ exists toks, tokenize (String delim s) = Normal toks.
Proof.
  intros Hd Hs. split; [|by eexists].
  unfold tokenizeLine. cbn [tokenizeLine_from].
  destruct Hd as [-> | ->].
  - by rewrite regex_no_match_dquote.
  - by rewrite regex_no_match_hash.
Qed.

Lemma unterminated_delimiter_is_skipped_witness :
  tokenizeLine (String dquote "abc") 1 = tokenizeLine "abc" 1
  /\ exists toks, tokenize (String dquote "abc") = Normal toks.
Proof. apply unterminated_delimiter_is_skipped; [by left | reflexivity]. Defined.

(** On a double quote followed by [abc] the lexer returns an identifier
    token and throws nothing. *)
Lemma unterminated_string_completes :
  tokenize (String dquote "abc")
  = Normal [Token IDENTIFIER (Text "abc") (Some 1); Token NEWLINE NoValue (Some 1)]
  /\ forall e, tokenize (String dquote "abc") <> Throw e.
Proof. split; [reflexivity | discriminate]. Qed.

(** *** The level-based lexer *)

Lemma dedent_loop_tokens fuel spaces toks level p :
  level <= fuel ->
  LevelLexer.tokens (LevelLexer.dedent_loop fuel spaces (LevelLexer.Build toks level p))
  = toks ++ replicate ((level - spaces + 3) / 4) LevelLexer.DEDENT.
Proof.
  revert toks level. induction fuel as [|fuel IH]; intros toks level Hle;
    cbn [LevelLexer.dedent_loop LevelLexer.currentIndent LevelLexer.tokens LevelLexer.lastIndex].
  - replace level with 0 by lia. cbn. by rewrite app_nil_r.
  - destruct (Nat.ltb_spec spaces level) as [Hlt|Hge].
    + rewrite IH by lia. rewrite <- app_assoc. f_equal.
      change ([LevelLexer.DEDENT] ++ ?l) with (LevelLexer.DEDENT :: l).
      rewrite <- replicate_S. f_equal.
      destruct (Nat.le_gt_cases 4 (level - spaces)) as [Hbig|Hsmall].
      * replace (level - spaces + 3) with ((level - 4 - spaces + 3) + 1 * 4) by lia.
        rewrite Nat.div_add by done. lia.
      * replace (level - 4 - spaces) with 0 by lia.
        rewrite (Nat.div_small (0 + 3)) by lia.
        assert (1 <= (level - spaces + 3) / 4) by (apply Nat.div_le_lower_bound; lia).
        assert ((level - spaces + 3) / 4 < 2) by (apply Nat.Div0.div_lt_upper_bound; lia).
        lia.
    + cbn. replace (level - spaces) with 0 by lia. cbn. by rewrite app_nil_r.
Qed.

Lemma close_loop_tokens fuel toks level p :
  level <= fuel ->
  LevelLexer.tokens (LevelLexer.close_loop fuel (LevelLexer.Build toks level p))
  = toks ++ replicate ((level + 3) / 4) LevelLexer.DEDENT.
Proof.
  revert toks level. induction fuel as [|fuel IH]; intros toks level Hle;
    cbn [LevelLexer.close_loop LevelLexer.currentIndent LevelLexer.tokens LevelLexer.lastIndex].
  - replace level with 0 by lia. cbn. by rewrite app_nil_r.
  - destruct (Nat.ltb_spec 0 level) as [Hlt|Hge].
    + rewrite IH by lia. rewrite <- app_assoc. f_equal.
      change ([LevelLexer.DEDENT] ++ ?l) with (LevelLexer.DEDENT :: l).
      rewrite <- replicate_S. f_equal.
      destruct (Nat.le_gt_cases 4 level) as [Hbig|Hsmall].
      * replace (level + 3) with ((level - 4 + 3) + 1 * 4) by lia.
        rewrite Nat.div_add by done. lia.
      * replace (level - 4) with 0 by lia.
        rewrite (Nat.div_small (0 + 3)) by lia.
        assert (1 <= (level + 3) / 4) by (apply Nat.div_le_lower_bound; lia).
        assert ((level + 3) / 4 < 2) by (apply Nat.Div0.div_lt_upper_bound; lia).
        lia.
    + cbn. replace level with 0 by lia. cbn. by rewrite app_nil_r.
Qed.

(** X5. The level-based lexer of the older dialect keeps one number and
    no stack. At a line that is neither blank nor a comment, with
    [spaces] the width of its leading blanks, [handleIndentation] emits
    one INDENT for a rise of any width, and for a fall one DEDENT for
    every four columns, rounded up, whatever INDENT tokens the fall
    closes; it emits nothing when the width is the level. The closing loop
    of [tokenize] emits one DEDENT for every four columns of the last
    level. So a block indented by more than four columns is closed by more
    DEDENT tokens than the one INDENT that opened it. *)
Theorem level_lexer_dedents_by_four_columns input lx spaces p rest :
  LevelLexer.blanks (drop (LevelLexer.lastIndex lx) input) 0 (LevelLexer.lastIndex lx)
  = (spaces, p, rest) ->
  LevelLexer.blank_or_comment rest = false ->
  LevelLexer.handleIndentation input lx
  = LevelLexer.Build
      (LevelLexer.tokens lx
       ++ if (LevelLexer.currentIndent lx <? spaces)%nat
          then [LevelLexer.INDENT (spaces - LevelLexer.currentIndent lx)]
          else replicate ((LevelLexer.currentIndent lx - spaces + 3) / 4) LevelLexer.DEDENT)
      spaces p
  /\ LevelLexer.close (LevelLexer.handleIndentation input lx)
     = LevelLexer.tokens (LevelLexer.handleIndentation input lx)
       ++ replicate ((spaces + 3) / 4) LevelLexer.DEDENT.
Proof.
  intros Hblanks Hline.
  assert (LevelLexer.handleIndentation input lx
          = LevelLexer.Build
              (LevelLexer.tokens lx
               ++ if (LevelLexer.currentIndent lx <? spaces)%nat
                  then [LevelLexer.INDENT (spaces - LevelLexer.currentIndent lx)]
                  else replicate ((LevelLexer.currentIndent lx - spaces + 3) / 4)
                                 LevelLexer.DEDENT)
              spaces p) as Heq.
  { unfold LevelLexer.handleIndentation. rewrite Hblanks, Hline.
    destruct (Nat.ltb_spec (LevelLexer.currentIndent lx) spaces) as [Hrise|Hnot]; [done|].
    destruct (Nat.ltb_spec spaces (LevelLexer.currentIndent lx)) as [Hfall|Hsame].
    - by rewrite dedent_loop_tokens.
    - replace (LevelLexer.currentIndent lx - spaces) with 0 by lia. cbn.
      rewrite app_nil_r. f_equal. lia. }
  split; [done|]. rewrite Heq. unfold LevelLexer.close.
  cbn [LevelLexer.currentIndent LevelLexer.tokens].
  generalize (LevelLexer.tokens lx
              ++ if (LevelLexer.currentIndent lx <? spaces)%nat
                 then [LevelLexer.INDENT (spaces - LevelLexer.currentIndent lx)]
                 else replicate ((LevelLexer.currentIndent lx - spaces + 3) / 4)
                                LevelLexer.DEDENT).
  intros toks. apply close_loop_tokens. done.
Qed.

Lemma level_lexer_dedents_by_four_columns_witness :
  LevelLexer.handleIndentation "c" (LevelLexer.Build [LevelLexer.INDENT 8] 8 0)
  = LevelLexer.Build [LevelLexer.INDENT 8; LevelLexer.DEDENT; LevelLexer.DEDENT] 0 0
  /\ LevelLexer.close
       (LevelLexer.handleIndentation "c" (LevelLexer.Build [LevelLexer.INDENT 8] 8 0))
     = LevelLexer.tokens
         (LevelLexer.handleIndentation "c" (LevelLexer.Build [LevelLexer.INDENT 8] 8 0))
       ++ [].
Proof.
  exact (level_lexer_dedents_by_four_columns "c" (LevelLexer.Build [LevelLexer.INDENT 8] 8 0)
           0 0 "c" eq_refl eq_refl).
Defined.

End LexerFacts.

(** * Properties of the interpreter *)

Local Open Scope list_scope.

(** ** What execution never undoes *)

Section Preservation.
Context `{Host}.

Lemma frame_extends_refl sc : frame_extends sc sc.
Proof. by split. Qed.

Lemma frame_extends_trans a b c : frame_extends a b -> frame_extends b c -> frame_extends a c.
Proof. intros [? ?] [? ?]. split; [congruence | eauto]. Qed.

Lemma extends_refl st : extends st st.
Proof. split; eauto using frame_extends_refl. Qed.

Lemma extends_trans a b c : extends a b -> extends b c -> extends a c.
Proof.
  intros [S1 O1 G1 C1] [S2 O2 G2 C2]. split; [| by etrans | congruence | eauto].
  intros x sc Hsc. destruct (S1 _ _ Hsc) as (sc' & Hsc' & ?).
  destruct (S2 _ _ Hsc') as (sc'' & ? & ?). eauto using frame_extends_trans.
Qed.

Lemma preserves_ret {A} (a : A) : preserves (ret a).
Proof. intros st. apply extends_refl. Qed.

Lemma preserves_throw {A} msg : preserves (@throw A msg).
Proof. intros st. apply extends_refl. Qed.

Lemma preserves_out_of_fuel {A} : preserves (@out_of_fuel A).
Proof. by intros st. Qed.

Lemma preserves_interleaved {A} : preserves (@interleaved A).
Proof. by intros st. Qed.

Lemma preserves_gets {A} (f : Interpreter -> A) : preserves (gets f).
Proof. intros st. apply extends_refl. Qed.

Lemma preserves_lift {A} (c : Js.completion A) : preserves (lift c).
Proof. intros st. unfold lift. destruct c; apply extends_refl. Qed.

Lemma preserves_bind {A B} (m : M A) (k : A -> M B) :
  preserves m -> (forall a, preserves (k a)) -> preserves (bind m k).
Proof.
  intros Hm Hk st. unfold bind. specialize (Hm st).
  destruct (m st) as [a st'| |]; [|done..].
  specialize (Hk a st'). destruct (k a st'); eauto using extends_trans.
Qed.

Lemma Map_has_set {V} (m : Map V) k v k' :
  Map_has (Map_set m k v) k' = Map_has m k' || String.eqb k k'.
Proof.
  induction m as [|[k0 v0] m IH]; simpl.
  - by destruct (String.eqb k k').
  - destruct (String.eqb_spec k0 k) as [->|Hne]; simpl.
    + destruct (String.eqb k k'); [done|]. by rewrite orb_false_r.
    + rewrite IH. by destruct (String.eqb k0 k').
Qed.

Lemma Map_has_delete {V} (m : Map V) k k' :
  k <> k' -> Map_has (Map_delete m k) k' = Map_has m k'.
Proof.
  intros Hne. induction m as [|[k0 v0] m IH]; simpl; [done|].
  destruct (String.eqb_spec k0 k) as [->|Hne0]; simpl.
  - by destruct (String.eqb_spec k k').
  - by rewrite IH.
Qed.

Lemma extends_alter (f : Scope -> Scope) a st :
  (forall sc, frame_extends sc (f sc)) ->
  extends st (set_scopes (alter f a) st).
Proof.
  intros Hf. split; simpl; [|done..|auto].
  intros x sc Hsc. destruct (decide (x = a)) as [->|Hne].
  - exists (f sc). split; [|done]. by rewrite list_lookup_alter_eq, Hsc.
  - exists sc. split; [|apply frame_extends_refl]. by rewrite list_lookup_alter_ne.
Qed.

Lemma extends_Scope_set st a k v :
  extends st (set_scopes (fun s => Scope_set s a k v) st).
Proof.
  apply (extends_alter _ a). intros sc. split; [done|]. simpl.
  intros k' _ Hk. by rewrite Map_has_set, Hk.
Qed.

Lemma preserves_scope_set a k v : preserves (scope_set a k v).
Proof. intros st. apply extends_Scope_set. Qed.

Lemma Scope_assign_from_store fuel s a k v :
  (Scope_assign_from fuel s a k v).2 = s
  \/ exists b, (Scope_assign_from fuel s a k v).2 = Scope_set s b k v.
Proof.
  revert a. induction fuel as [|fuel IH]; intros a; simpl; [by left|].
  destruct (s !! a) as [sc|]; [|by left].
  destruct (Map_has _ _); [right; by exists a|].
  destruct (parent sc); [apply IH | by left].
Qed.

Lemma preserves_scope_assign a k v : preserves (scope_assign a k v).
Proof.
  intros st. unfold scope_assign, Scope_assign.
  destruct (Scope_assign_from_store (S a) (scopes st) a k v) as [Heq|[b Heq]].
  - replace (set_scopes _ st) with st; [apply extends_refl|].
    destruct st; unfold set_scopes; simpl in *. by rewrite Heq.
  - replace (set_scopes _ st) with (set_scopes (fun s => Scope_set s b k v) st);
      [apply extends_Scope_set|].
    destruct st; unfold set_scopes; simpl in *. by rewrite Heq.
Qed.

Lemma preserves_own_delete a k : persistent k = false -> preserves (own_delete a k).
Proof.
  intros Hk st. apply (extends_alter _ a). intros sc. split; [done|]. simpl.
  intros k' Hk' Hh. rewrite Map_has_delete; [done|]. intros ->. congruence.
Qed.

Lemma preserves_new_Scope p : preserves (new_Scope p).
Proof.
  intros st. split; simpl; [|done..|auto].
  intros a sc Hsc. exists sc. split; [|apply frame_extends_refl].
  by apply lookup_app_l_Some.
Qed.

Lemma preserves_new_object entries : preserves (new_object entries).
Proof.
  intros st. split; simpl; [|by apply prefix_app_r|done|auto].
  intros a sc Hsc. exists sc. split; [done|apply frame_extends_refl].
Qed.

Lemma preserves_simple (f : Interpreter -> Interpreter) :
  (forall st, scopes (f st) = scopes st /\ objects (f st) = objects st
              /\ globals (f st) = globals st /\ evalCache (f st) = evalCache st) ->
  preserves (modify f).
Proof.
  intros Hf st. destruct (Hf st) as (Hs & Ho & Hg & Hc). split; simpl.
  - rewrite Hs. eauto using frame_extends_refl.
  - by rewrite Ho.
  - done.
  - by rewrite Hc.
Qed.

Lemma preserves_new_function params body scope : preserves (new_function params body scope).
Proof. intros st. split; simpl; eauto using frame_extends_refl. Qed.

Lemma preserves_console_log args : preserves (console_log args).
Proof. by apply preserves_simple. Qed.

Lemma preserves_count_op : preserves count_op.
Proof. by apply preserves_simple. Qed.

Lemma preserves_set_stop b : preserves (set_stop b).
Proof. by apply preserves_simple. Qed.

Lemma preserves_bind_params fnScope i params args : preserves (bind_params fnScope i params args).
Proof.
  revert i. induction params as [|p ps IH]; intros i; simpl.
  - apply preserves_ret.
  - apply preserves_bind; [apply preserves_scope_set | auto].
Qed.

Lemma preserves_set_entries objScope entries : preserves (set_entries objScope entries).
Proof.
  induction entries as [|[k v] rest IH]; simpl.
  - apply preserves_ret.
  - apply preserves_bind; [apply preserves_scope_set | auto].
Qed.

Lemma Map_lookup_set {V} (m : Map V) k v k' :
  Map_lookup (Map_set m k v) k' = if String.eqb k k' then Some v else Map_lookup m k'.
Proof.
  induction m as [|[k0 v0] m IH]; simpl; [done|].
  destruct (String.eqb_spec k0 k) as [->|Hne]; simpl.
  - by destruct (String.eqb k k').
  - rewrite IH. destruct (String.eqb_spec k0 k') as [->|?]; [|done].
    by destruct (String.eqb_spec k k').
Qed.

Lemma Map_has_lookup {V} (m : Map V) k :
  Map_has m k = match Map_lookup m k with Some _ => true | None => false end.
Proof.
  induction m as [|[k0 v0] m IH]; simpl; [done|]. by destruct (String.eqb k0 k).
Qed.

Lemma preserves_fill_evalCache code : preserves (fill_evalCache code).
Proof.
  intros st. unfold fill_evalCache, bind, gets, lift, ret, evalCache_set, modify.
  destruct (Map_has (evalCache st) code) eqn:Hhas; [apply extends_refl|].
  destruct (deps_Lexer_tokenize code) as [tokens|e]; [|apply extends_refl].
  destruct (deps_Parser_parse tokens) as [ast|e]; [|apply extends_refl].
  split; simpl; eauto using frame_extends_refl.
  intros code' ast' Hl. rewrite Map_lookup_set.
  destruct (String.eqb_spec code code') as [->|]; [|done].
  rewrite Map_has_lookup, Hl in Hhas. done.
Qed.

Lemma preserves_spread p : preserves (spread p).
Proof. apply preserves_gets. Qed.

Lemma preserves_member obj prop : preserves (member obj prop).
Proof. apply preserves_gets. Qed.

Ltac preserves_step :=
  match goal with
  | |- preserves (bind _ _) => apply preserves_bind; [|intros ?]
  | |- preserves (ret _) => apply preserves_ret
  | |- preserves (throw _) => apply preserves_throw
  | |- preserves out_of_fuel => apply preserves_out_of_fuel
  | |- preserves interleaved => apply preserves_interleaved
  | |- preserves (gets _) => apply preserves_gets
  | |- preserves (own_has _ _) => apply preserves_gets
  | |- preserves (scope_get _ _) => apply preserves_gets
  | |- preserves (spread _) => apply preserves_gets
  | |- preserves (member _ _) => apply preserves_gets
  | |- preserves (lift _) => apply preserves_lift
  | |- preserves (scope_set _ _ _) => apply preserves_scope_set
  | |- preserves (scope_assign _ _ _) => apply preserves_scope_assign
  | |- preserves (own_delete _ _) => by apply preserves_own_delete
  | |- preserves (new_Scope _) => apply preserves_new_Scope
  | |- preserves (new_object _) => apply preserves_new_object
  | |- preserves (new_function _ _ _) => apply preserves_new_function
  | |- preserves (console_log _) => apply preserves_console_log
  | |- preserves count_op => apply preserves_count_op
  | |- preserves (set_stop _) => apply preserves_set_stop
  | |- preserves (bind_params _ _ _ _) => apply preserves_bind_params
  | |- preserves (set_entries _ _) => apply preserves_set_entries
  | |- preserves (fill_evalCache _) => apply preserves_fill_evalCache
  | |- preserves (if ?b then _ else _) => destruct b
  | |- preserves (match ?x with _ => _ end) => destruct x
  | H : _ |- preserves _ => apply H
  end.

Lemma interpreter_preserves fuel : all_preserve fuel.
Proof.
  induction fuel as [|fuel (IHb & IHs & IHe & IHw & IHf & IHv & IHa & IHp)].
  - repeat split; intros; apply preserves_out_of_fuel.
  - repeat split; intros.
    + cbn [executeBlock_from]. repeat preserves_step.
    + cbn [executeStatement]. repeat preserves_step.
    + cbn [executeElifs]. repeat preserves_step.
    + cbn [executeWhile]. repeat preserves_step.
    + cbn [executeFor]. repeat preserves_step.
    + cbn [evaluate]. repeat preserves_step.
    + cbn [evaluateAll]. repeat preserves_step.
    + cbn [apply]. repeat preserves_step.
Qed.

Lemma run_preserves fuel body : preserves (run fuel body).
Proof.
  unfold run, executeBlock. repeat preserves_step.
  apply (interpreter_preserves fuel).
Qed.

End Preservation.

Section Facts.
Context `{Host}.

Lemma bind_Returned {A B} (m : M A) (k : A -> M B) st a st' :
  m st = Returned a st' -> bind m k st = k a st'.
Proof. unfold bind. by intros ->. Qed.

(** ** The scope chain *)


Lemma scopes_wf_parent scopes a sc p :
  scopes_wf scopes = true -> scopes !! a = Some sc -> parent sc = Some p -> p < a.
Proof.
  unfold scopes_wf. rewrite forallb_forall. intros Hwf Ha Hp.
  specialize (Hwf (a, sc)). simpl in Hwf. rewrite Hp in Hwf.
  apply Nat.ltb_lt, Hwf, list_elem_of_In, list_elem_of_lookup.
  exists a. by rewrite list_lookup_imap, Ha.
Qed.



Lemma Map_set_absent {V} (m : Map V) k v :
  Map_has m k = false -> Map_set m k v = m ++ [(k, v)].
Proof.
  induction m as [|[k0 v0] m IH]; cbn; [done|].
  destruct (String.eqb k0 k); cbn; [done|]. intros Hm. by rewrite IH.
Qed.

Lemma set_scopes_ext f g st : (f (scopes st) = g (scopes st)) -> set_scopes f st = set_scopes g st.
Proof. unfold set_scopes. by intros ->. Qed.

(** ** Logical operators *)

(** C4. A binary expression evaluates its left operand first. With [and],
    a falsy left value is the result and the state is the one the left
    operand left: the right operand has no part in the outcome, whatever it
    is. With [or] the same holds for a truthy left value. In the other two
    cases the result is that of the right operand, evaluated after the
    left one. *)
Theorem logical_operators_short_circuit fuel l r scope st v st' :
  evaluate fuel l scope st = Returned v st' ->
  (truthy v = false ->
     evaluate (S fuel) (BinaryExpression l "and" r) scope st = Returned v st')
  /\ (truthy v = true ->
     evaluate (S fuel) (BinaryExpression l "or" r) scope st = Returned v st')
  /\ (truthy v = true ->
     evaluate (S fuel) (BinaryExpression l "and" r) scope st = evaluate fuel r scope st')
  /\ (truthy v = false ->
     evaluate (S fuel) (BinaryExpression l "or" r) scope st = evaluate fuel r scope st').
Proof.
  intros Hl. cbn [evaluate]. unfold bind. rewrite Hl. cbn.
  repeat split; by intros ->.
Qed.

(** ** Assignment *)




(** ** Runtime evaluation of source text *)





(** ** Object definitions *)

Lemma map_values_id sc : map_values (fun m => m) sc = sc.
Proof. by destruct sc. Qed.

Lemma set_scopes_id st : set_scopes (fun s => s) st = st.
Proof. by destruct st. Qed.

Lemma set_scopes_compose f g st :
  set_scopes g (set_scopes f st) = set_scopes (fun s => g (f s)) st.
Proof. done. Qed.

Lemma alter_map_values_compose f g a (s : list Scope) :
  alter (map_values g) a (alter (map_values f) a s)
  = alter (map_values (fun m => g (f m))) a s.
Proof. rewrite list_alter_alter_eq. by apply list_alter_ext. Qed.

Lemma set_entries_spec a entries st :
  set_entries a entries st
  = Returned tt (set_scopes (alter (map_values (set_all entries)) a) st).
Proof.
  revert st. induction entries as [|[k v] rest IH]; intros st; cbn [set_entries].
  - unfold ret. f_equal. rewrite <- (set_scopes_id st) at 1. apply set_scopes_ext.
    symmetry. apply list_alter_id. intros sc. apply map_values_id.
  - unfold bind, scope_set, modify. rewrite IH. f_equal.
    rewrite set_scopes_compose. apply set_scopes_ext. unfold Scope_set.
    by rewrite alter_map_values_compose.
Qed.

Lemma alter_new_frame (f : Scope -> Scope) (s : list Scope) sc :
  alter f (length s) (s ++ [sc]) = s ++ [f sc].
Proof.
  by rewrite <- (Nat.add_0_r (length s)), alter_app_r.
Qed.

Lemma set_all_unique entries :
  NoDup entries.*1 -> set_all entries [] = entries.
Proof.
  assert (forall m, NoDup (m ++ entries).*1 -> set_all entries m = m ++ entries) as Hgen.
  { induction entries as [|[k v] rest IH]; intros m Hnd; cbn.
    - by rewrite app_nil_r.
    - unfold set_all in IH. rewrite Map_set_absent.
      + rewrite IH; rewrite <- app_assoc; done.
      + rewrite fmap_app in Hnd. apply NoDup_app in Hnd as (_ & Hd & _).
        rewrite Map_has_lookup. destruct (Map_lookup m k) as [x|] eqn:Hx; [|done].
        exfalso. apply (Hd k); [|by left]. clear -Hx.
        induction m as [|[k0 v0] m IHm]; cbn in *; [done|].
        destruct (String.eqb_spec k0 k) as [->|]; [by left | right; auto]. }
  intros Hnd. by apply (Hgen []).
Qed.

Lemma Scope_get_root scopes a sc k :
  scopes !! a = Some sc -> parent sc = None ->
  Scope_get scopes a k = Map_get (values sc) k.
Proof.
  intros Ha Hp. unfold Scope_get. cbn. rewrite Ha, Hp.
  destruct (Map_has (values sc) k) eqn:Hh; [done|].
  unfold Map_get. rewrite Map_has_lookup in Hh. by destruct (Map_lookup _ _).
Qed.

(** C7. An object definition that names a parent bound to a plain object
    runs its body in a new frame that has no parent, so that a lookup in
    it only ever sees the bindings of that frame, and that starts from the
    entries of the parent object as they are when the definition runs. The
    object it binds is a new one, at an address no object had before, and
    holds the final bindings of that frame: the parent object is left as it
    was, and no later change of the parent object changes the child. *)
Theorem object_definition_copies_parent
    fuel name parentName properties scope st b props r st' :
  parentName <> "" ->
  Scope_get (scopes st) scope parentName = VObject b ->
  objects st !! b = Some props ->
  let objScope := length (scopes st) in
  let seeded :=
    set_scopes (fun s => s ++ [mkScope (set_all props []) None false]) st in
  executeBlock fuel properties objScope seeded = Returned r st' ->
  exists frame final,
    let child := length (objects st') in
    executeStatement (S fuel) (ObjectDefinition name (Some parentName) properties) scope st
      = Returned VUndefined final
    (* the frame of the body: seeded with the parent's entries, and isolated *)
    /\ (NoDup props.*1 -> set_all props [] = props)
    /\ (forall k, Scope_get (scopes seeded) objScope k = Map_get (set_all props []) k)
    /\ (forall later, extends seeded later ->
          forall k, Scope_get (scopes later) objScope k = own_value (scopes later) objScope k)
    /\ scopes st' !! objScope = Some frame /\ parent frame = None
    (* the new object: a new address, holding the final bindings of that frame *)
    /\ scopes final = Scope_set (scopes st') scope name (VObject child)
    /\ objects final = objects st' ++ [values frame]
    /\ child <> b
    /\ objects st' !! child = None
    /\ objects final !! b = Some props
    (* a later change of the parent object leaves the child as it is *)
    /\ (forall props', <[b := props']> (objects final) !! child = Some (values frame)).
Proof.
  intros Hname Hp Hb objScope seeded Hbody.
  apply String.eqb_neq in Hname.
  pose proof (proj1 (interpreter_preserves fuel) VNull properties objScope seeded) as Hext.
  unfold executeBlock in Hbody. rewrite Hbody in Hext.
  destruct Hext as [Hsc Hobj _ _].
  destruct (Hsc objScope (mkScope (set_all props []) None false)) as (frame & Hframe & Hpar & _).
  { subst seeded objScope. cbn. by rewrite lookup_app_r, Nat.sub_diag. }
  cbn in Hpar.
  assert (b < length (objects st')) as Hlt.
  { apply lookup_lt_Some in Hb. apply prefix_length in Hobj. cbn in Hobj. lia. }
  assert (objects st' !! b = Some props) as Hb'.
  { by eapply prefix_lookup_Some. }
  exists frame. eexists. cbn zeta. split; [|repeat split].
  - unfold objScope in *. cbn [executeStatement].
    erewrite bind_Returned; cycle 1.
    { rewrite Hname. erewrite bind_Returned; [|unfold scope_get, gets; by rewrite Hp].
      cbn [truthy typeof andb]. change (String.eqb "object" "object") with true. cbv iota.
      unfold spread, gets. cbv beta iota. by rewrite Hb. }
    cbn [default]. erewrite bind_Returned by reflexivity.
    erewrite bind_Returned by apply set_entries_spec.
    replace (set_scopes _ (set_scopes _ st)) with seeded; cycle 1.
    { rewrite set_scopes_compose. subst seeded. apply set_scopes_ext.
      cbv beta. by rewrite alter_new_frame. }
    erewrite bind_Returned; [|exact Hbody].
    erewrite bind_Returned; [|unfold gets; cbv beta; by rewrite Hframe].
    cbn [default]. erewrite bind_Returned by reflexivity.
    erewrite bind_Returned by reflexivity. reflexivity.
  - apply set_all_unique.
  - intros k. apply (Scope_get_root _ _ (mkScope (set_all props []) None false)); [|done].
    subst seeded objScope. cbn. by rewrite lookup_app_r, Nat.sub_diag.
  - intros later [Hlater _ _ _] k.
    destruct (Hlater objScope (mkScope (set_all props []) None false))
      as (sc & Hsc' & Hpar' & _).
    { subst seeded objScope. cbn. by rewrite lookup_app_r, Nat.sub_diag. }
    rewrite (Scope_get_root _ _ sc) by done. unfold own_value. by rewrite Hsc'.
  - done.
  - done.
  - done.
  - done.
  - lia.
  - by apply lookup_ge_None.
  - cbn. by apply lookup_app_l_Some.
  - intros props'. cbn. rewrite list_lookup_insert_ne by lia.
    by rewrite lookup_app_r, Nat.sub_diag.
Qed.


(** ** Loops and the two loop flags *)

(** C1, at the failing input. In a range-style [for] loop a [break] does
    not end the loop: the three iterations all run, each up to the flag
    test after its first statement ([count] ends at 3), the flag is still
    set after the loop, and the enclosing block stops there ([after] is
    never assigned). A [continue] leaves its flag set in the same way.
    The [while] loop consumes the flag: [count] ends at 1 and the block
    goes on. *)
Theorem for_loop_does_not_consume_break :
  (exists st',
      run 40 break_in_for (new_Interpreter None) = Returned VUndefined st'
      /\ Scope_get (scopes st') 0 "count" = VNum 3
      /\ Scope_get (scopes st') 0 "after" = VUndefined
      /\ own_has_in (scopes st') 0 "__break__" = true)
  /\ (exists st',
      run 40 continue_in_for (new_Interpreter None) = Returned VUndefined st'
      /\ Scope_get (scopes st') 0 "count" = VNum 3
      /\ Scope_get (scopes st') 0 "after" = VUndefined
      /\ own_has_in (scopes st') 0 "__continue__" = true)
  /\ (exists st',
      run 40 break_in_while (new_Interpreter None) = Returned VUndefined st'
      /\ Scope_get (scopes st') 0 "count" = VNum 1
      /\ Scope_get (scopes st') 0 "after" = VNum 1
      /\ own_has_in (scopes st') 0 "__break__" = false).
Proof.
  repeat split; eexists; (split; [vm_compute; reflexivity|]); by vm_compute.
Qed.

Lemma own_has_Returned scope k st :
  own_has scope k st = Returned (own_has_in (scopes st) scope k) st.
Proof. done. Qed.

(** X1. A block stops after the statement that leaves [__break__] or
    [__continue__] set in its frame: the statements after it are not
    executed, and the block returns the result of that statement. *)
Theorem block_stops_at_break_or_continue fuel res node rest scope st r st' :
  stop st = false ->
  executeStatement fuel node scope st = Returned r st' ->
  own_has_in (scopes st') scope "__ret__" = false ->
  own_has_in (scopes st') scope "__break__" || own_has_in (scopes st') scope "__continue__" = true ->
  executeBlock_from (S fuel) res (node :: rest) scope st = Returned r st'.
Proof.
  intros Hstop Hnode Hret Hsig. cbn [executeBlock_from].
  erewrite bind_Returned by reflexivity. rewrite Hstop.
  erewrite bind_Returned by exact Hnode.
  erewrite bind_Returned by apply own_has_Returned. rewrite Hret.
  erewrite bind_Returned by apply own_has_Returned.
  destruct (own_has_in (scopes st') scope "__break__"); [done|].
  erewrite bind_Returned by apply own_has_Returned.
  cbn in Hsig. by rewrite Hsig.
Qed.

(** X2. One turn of a [while] loop whose test is truthy and whose body
    leaves no [__ret__]: with [__break__] set the loop ends there and the
    flag is deleted; with [__continue__] set the flag is deleted and the
    loop goes on to the next test; with neither the loop goes on. *)
Theorem while_loop_consumes_break_and_continue fuel test body scope st t st1 r st2 :
  stop st = false ->
  evaluate fuel test scope st = Returned t st1 ->
  truthy t = true ->
  executeBlock fuel body scope st1 = Returned r st2 ->
  own_has_in (scopes st2) scope "__ret__" = false ->
  (own_has_in (scopes st2) scope "__break__" = true ->
     executeWhile (S fuel) test body scope st
     = Returned tt (delete_own scope "__break__" st2))
  /\ (own_has_in (scopes st2) scope "__break__" = false ->
      own_has_in (scopes st2) scope "__continue__" = true ->
      executeWhile (S fuel) test body scope st
      = executeWhile fuel test body scope (delete_own scope "__continue__" st2))
  /\ (own_has_in (scopes st2) scope "__break__" = false ->
      own_has_in (scopes st2) scope "__continue__" = false ->
      executeWhile (S fuel) test body scope st
      = executeWhile fuel test body scope st2).
Proof.
  intros Hstop Htest Ht Hbody Hret.
  assert (executeWhile (S fuel) test body scope st
          = (let* breaking := own_has scope "__break__" in
             if breaking then own_delete scope "__break__" else
             let* continuing := own_has scope "__continue__" in
             (if continuing then own_delete scope "__continue__" else ret tt);;
             executeWhile fuel test body scope) st2) as ->.
  { cbn [executeWhile]. erewrite bind_Returned by reflexivity. rewrite Hstop.
    erewrite bind_Returned by exact Htest. rewrite Ht. cbn [negb].
    erewrite bind_Returned by exact Hbody.
    erewrite bind_Returned by apply own_has_Returned. by rewrite Hret. }
  erewrite bind_Returned by apply own_has_Returned.
  repeat split.
  - by intros ->.
  - intros -> Hc. erewrite bind_Returned by apply own_has_Returned. rewrite Hc.
    by erewrite bind_Returned by reflexivity.
  - intros -> Hc. erewrite bind_Returned by apply own_has_Returned. rewrite Hc.
    by erewrite bind_Returned by reflexivity.
Qed.

(** X3. One turn of a [for] loop within its bounds whose body leaves no
    [__ret__]: the loop goes on to the next value of the iterator,
    whether or not [__break__] or [__continue__] is set. *)
Theorem for_loop_iterates_whatever_the_break_flag fuel iterator i end_ body scope st r st2 :
  PrimFloat.leb i end_ = true ->
  stop st = false ->
  executeBlock fuel body scope (set_scopes (fun s => Scope_set s scope iterator (VNum i)) st)
    = Returned r st2 ->
  own_has_in (scopes st2) scope "__ret__" = false ->
  executeFor (S fuel) iterator i end_ body scope st
  = executeFor fuel iterator (i + 1)%float end_ body scope st2.
Proof.
  intros Hle Hstop Hbody Hret. cbn [executeFor]. rewrite Hle. cbn [negb].
  erewrite bind_Returned by reflexivity. rewrite Hstop.
  erewrite bind_Returned by reflexivity.
  erewrite bind_Returned by exact Hbody.
  erewrite bind_Returned by apply own_has_Returned. by rewrite Hret.
Qed.

(** ** Function calls *)

Lemma bind_params_spec a i params args st :
  bind_params a i params args st
  = Returned tt (set_scopes (alter (map_values (bind_all i params args)) a) st).
Proof.
  revert i st. induction params as [|p ps IH]; intros i st; cbn [bind_params bind_all].
  - unfold ret. f_equal. rewrite <- (set_scopes_id st) at 1. apply set_scopes_ext.
    symmetry. apply list_alter_id. intros sc. apply map_values_id.
  - unfold bind, scope_set, modify. rewrite IH. f_equal.
    rewrite set_scopes_compose. apply set_scopes_ext. unfold Scope_set.
    by rewrite alter_map_values_compose.
Qed.

Lemma bind_all_other i params args m p :
  p ∉ params -> Map_lookup (bind_all i params args m) p = Map_lookup m p.
Proof.
  revert i m. induction params as [|q ps IH]; intros i m Hp; cbn [bind_all]; [done|].
  apply not_elem_of_cons in Hp as [Hne Hp]. rewrite IH by done.
  rewrite Map_lookup_set. by destruct (String.eqb_spec q p).
Qed.

Lemma bind_all_last i j params args m p :
  params !! j = Some p -> p ∉ drop (S j) params ->
  Map_lookup (bind_all i params args m) p = Some (default VUndefined (args !! (i + j))).
Proof.
  revert i j m. induction params as [|q ps IH]; intros i j m Hj Hp; [done|].
  cbn [bind_all]. destruct j as [|j]; cbn in Hj, Hp.
  - injection Hj as ->. rewrite bind_all_other by done.
    by rewrite Map_lookup_set, String.eqb_refl, Nat.add_0_r.
  - rewrite (IH (S i) j) by done. do 3 f_equal. lia.
Qed.

Lemma bind_all_extra i params args extra m :
  i + length params <= length args ->
  bind_all i params (args ++ extra) m = bind_all i params args m.
Proof.
  revert i m. induction params as [|q ps IH]; intros i m Hlen; cbn [bind_all]; [done|].
  cbn in Hlen. rewrite lookup_app_l by lia. apply IH. lia.
Qed.

Lemma apply_closure fuel id params body captured context args st :
  apply (S fuel) (VClosure id params body captured) context args st
  = executeBlock fuel body (length (scopes st))
      (set_scopes (fun s => s ++ [mkScope (bind_all 0 params args []) (Some captured) false]) st).
Proof.
  cbn [apply]. erewrite bind_Returned by reflexivity.
  erewrite bind_Returned by apply bind_params_spec.
  unfold executeBlock. f_equal. rewrite set_scopes_compose. apply set_scopes_ext.
  cbv beta. by rewrite alter_new_frame.
Qed.

Lemma evaluate_undefined_binding fuel p scope st frame :
  scopes st !! scope = Some frame ->
  Map_lookup (values frame) p = Some VUndefined ->
  evaluate (S fuel) (Identifier p) scope st = Thrown (Js.Error ("Undefined: " ++ p)) st.
Proof.
  intros Hf Hp. cbn [evaluate]. unfold bind, scope_get, gets, Scope_get. cbn.
  rewrite Hf, Map_has_lookup, Hp. unfold Map_get. by rewrite Hp.
Qed.

(** C2, as amended. A call of a declared function runs the body in a new
    frame, child of the captured frame, that binds the parameters by
    position. A parameter beyond the arguments given is bound to
    [undefined], and reading a name whose binding in the frame is
    [undefined] throws [Undefined: name], as it does for a name that is
    bound nowhere. Arguments beyond the parameters are ignored. *)
Theorem missing_argument_is_bound_but_unreadable
    fuel id params body captured context args st :
  let fnScope := length (scopes st) in
  let called :=
    set_scopes (fun s => s ++ [mkScope (bind_all 0 params args []) (Some captured) false])
               st in
  apply (S fuel) (VClosure id params body captured) context args st
    = executeBlock fuel body fnScope called
  /\ (forall i p, params !! i = Some p -> length args <= i -> p ∉ drop (S i) params ->
        Map_lookup (bind_all 0 params args []) p = Some VUndefined
        /\ forall fuel',
             evaluate (S fuel') (Identifier p) fnScope called
             = Thrown (Js.Error ("Undefined: " ++ p)) called)
  /\ (forall fuel' p st' frame,
        scopes st' !! fnScope = Some frame ->
        Map_lookup (values frame) p = Some VUndefined ->
        evaluate (S fuel') (Identifier p) fnScope st'
        = Thrown (Js.Error ("Undefined: " ++ p)) st')
  /\ (forall extra, length params <= length args ->
        apply (S fuel) (VClosure id params body captured) context (args ++ extra) st
        = apply (S fuel) (VClosure id params body captured) context args st).
Proof.
  intros fnScope called. split; [apply apply_closure|]. split; [|split].
  - intros i p Hi Hlen Hlast.
    assert (Map_lookup (bind_all 0 params args []) p = Some VUndefined) as Hl.
    { rewrite (bind_all_last 0 i) by done. cbn. by rewrite lookup_ge_None_2. }
    split; [done|]. intros fuel'.
    apply (evaluate_undefined_binding _ _ _ _
             (mkScope (bind_all 0 params args []) (Some captured) false)); [|exact Hl].
    subst called fnScope. cbn. by rewrite lookup_app_r, Nat.sub_diag.
  - intros. by eapply evaluate_undefined_binding.
  - intros extra Hlen. rewrite !apply_closure. by rewrite bind_all_extra.
Qed.



(** ** The return sentinel *)

Lemma extends_keeps_sentinel st st' a k :
  extends st st' -> persistent k = true ->
  own_has_in (scopes st) a k = true -> own_has_in (scopes st') a k = true.
Proof.
  intros [Hsc _ _ _] Hk. unfold own_has_in.
  destruct (scopes st !! a) as [sc|] eqn:Ha; [|done].
  destruct (Hsc _ _ Ha) as (sc' & -> & _ & Hkeep). auto.
Qed.

(** C10, as amended. A [return] executed in the global frame binds
    [__ret__] there. Once the global frame has that binding, every run
    ends with the binding still there; a later run of a program executes
    its first statement only and, when that statement completes, returns
    the value [__ret__] then has (the stale one unless the statement
    itself wrote it); a later run of the empty program returns [null]. *)
Theorem top_level_return_leaves_sentinel fuel e st v st1 :
  globals st < length (scopes st) ->
  evaluate fuel e (globals st) st = Returned v st1 ->
  exists st2,
    executeStatement (S fuel) (ReturnStatement e) (globals st) st = Returned VUndefined st2
    /\ own_has_in (scopes st2) (globals st2) "__ret__" = true
    /\ forall later,
         own_has_in (scopes later) (globals later) "__ret__" = true ->
         (forall fuel' body,
             match run fuel' body later with
             | Returned _ st' | Thrown _ st' =>
                 own_has_in (scopes st') (globals st') "__ret__" = true
             | OutOfFuel => True
             end)
         /\ (forall fuel' node rest,
               run (S fuel') (node :: rest) later
               = match executeStatement fuel' node (globals later) (with_stop false later) with
                 | Returned _ st' =>
                     Returned (Scope_get (scopes st') (globals later) "__ret__") st'
                 | Thrown e st' => Thrown e st'
                 | OutOfFuel => OutOfFuel
                 end)
         /\ (forall fuel', run (S fuel') [] later = Returned VNull (with_stop false later)).
Proof.
  intros Hg He.
  pose proof (proj1 (proj2 (proj2 (proj2 (proj2 (proj2 (interpreter_preserves fuel))))))
                e (globals st) st) as Hext.
  rewrite He in Hext.
  eexists. split; [|split].
  - cbn [executeStatement]. erewrite bind_Returned by exact He.
    erewrite bind_Returned by reflexivity. reflexivity.
  - cbn. destruct Hext as [Hsc _ Hgl _]. rewrite Hgl.
    destruct (lookup_lt_is_Some_2 _ _ Hg) as [sc Hsc0].
    destruct (Hsc _ _ Hsc0) as (sc' & Hsc' & _).
    unfold own_has_in, Scope_set. rewrite list_lookup_alter_eq, Hsc'. cbn.
    by rewrite Map_has_set, String.eqb_refl, orb_true_r.
  - intros later Hlater. split; [|split].
    + intros fuel' body. pose proof (run_preserves fuel' body later) as Hrun.
      destruct (run fuel' body later) as [r st'|err st'|]; [| |done].
      * rewrite (ext_globals _ _ Hrun). by eapply extends_keeps_sentinel.
      * rewrite (ext_globals _ _ Hrun). by eapply extends_keeps_sentinel.
    + intros fuel' node rest. unfold run, executeBlock.
      erewrite bind_Returned by reflexivity. erewrite bind_Returned by reflexivity.
      cbn [executeBlock_from]. erewrite bind_Returned by reflexivity.
      cbn [stop with_stop globals]. unfold bind at 1.
      pose proof (proj1 (proj2 (interpreter_preserves fuel')) node (globals later)
                    (with_stop false later)) as Hstep.
      destruct (executeStatement fuel' node (globals later) (with_stop false later))
        as [r st'|err st'|]; [|done..].
      assert (own_has (globals later) "__ret__" st' = Returned true st') as Hhas.
      { unfold own_has, gets. f_equal.
        by apply (extends_keeps_sentinel _ _ _ _ Hstep). }
      by rewrite (bind_Returned _ _ _ _ _ Hhas).
    + intros fuel'. reflexivity.
Qed.



(** X4. Whatever a run that the embedding follows does, whether it
    returns or throws, it leaves every frame in place with the parent it
    had and every binding it had other than the two loop flags, the global
    frame the same, and every cache entry as it was. *)
Theorem execution_only_extends fuel body st :
  match run fuel body st with
  | Returned _ st' | Thrown _ st' =>
      (forall a sc, scopes st !! a = Some sc ->
         exists sc', scopes st' !! a = Some sc' /\ frame_extends sc sc')
      /\ globals st' = globals st
      /\ (forall code ast, Map_lookup (evalCache st) code = Some ast ->
            Map_lookup (evalCache st') code = Some ast)
  | OutOfFuel => True
  end.
Proof.
  pose proof (run_preserves fuel body st) as Hrun.
  destruct (run fuel body st); [| |done]; by destruct Hrun.
Qed.

End Facts.

(** ** Well-founded scope chains *)

Section Reachable.
Context `{HostOk}.
Local Open Scope list_scope.

Lemma value_ok_mono n n' v : n <= n' -> value_ok n v -> value_ok n' v.
Proof. destruct v; cbn; auto with lia. Qed.

Lemma map_ok_mono n n' m : n <= n' -> map_ok n m -> map_ok n' m.
Proof.
  intros Hle Hm. eapply Forall_impl; [exact Hm|]. cbn. eauto using value_ok_mono.
Qed.

Lemma Forall_value_ok_mono n n' vs : n <= n' -> Forall (value_ok n) vs -> Forall (value_ok n') vs.
Proof.
  intros Hle Hm. eapply Forall_impl; [exact Hm|]. cbn. eauto using value_ok_mono.
Qed.

Lemma Forall_map_ok_mono n n' ms : n <= n' -> Forall (map_ok n) ms -> Forall (map_ok n') ms.
Proof.
  intros Hle Hm. eapply Forall_impl; [exact Hm|]. cbn. eauto using map_ok_mono.
Qed.

Lemma good_ret {A} n0 (P : nat -> A -> Prop) a :
  (forall n, n0 <= n -> P n a) -> good n0 P (ret a).
Proof. intros HP st Hst Hn. cbn. auto. Qed.

Lemma good_throw {A} n0 (P : nat -> A -> Prop) msg : good n0 P (throw msg).
Proof. intros st Hst Hn. cbn. auto. Qed.

Lemma good_out_of_fuel {A} n0 (P : nat -> A -> Prop) : good n0 P out_of_fuel.
Proof. by intros st Hst Hn. Qed.

Lemma good_bind {A B} n0 (P : nat -> A -> Prop) (Q : nat -> B -> Prop) m k :
  good n0 P m ->
  (forall a n1, n0 <= n1 -> P n1 a -> good n1 Q (k a)) ->
  good n0 Q (bind m k).
Proof.
  intros Hm Hk st Hst Hn. unfold bind. specialize (Hm st Hst Hn).
  destruct (m st) as [a st1|e st1|]; [|exact Hm|exact I].
  destruct Hm as (Hst1 & Hle & Ha).
  specialize (Hk a (length (scopes st1)) ltac:(lia) Ha st1 Hst1 ltac:(lia)).
  destruct (k a st1) as [b st2|e st2|]; [| |exact I].
  - destruct Hk as (? & ? & ?). split_and!; [done|lia|done].
  - destruct Hk as (? & ?). split; [done|lia].
Qed.

Lemma good_gets {A} n0 (P : nat -> A -> Prop) (f : Interpreter -> A) :
  (forall st, state_ok st -> n0 <= length (scopes st) -> P (length (scopes st)) (f st)) ->
  good n0 P (gets f).
Proof. intros HP st Hst Hn. cbn. auto. Qed.

Lemma good_lift {A} n0 (P : nat -> A -> Prop) (c : Js.completion A) :
  (forall a n, c = Js.Normal a -> n0 <= n -> P n a) -> good n0 P (lift c).
Proof. intros HP st Hst Hn. unfold lift. destruct c; cbn; auto. Qed.


(** *** The state changes *)

Lemma scopes_wf_iff scopes :
  scopes_wf scopes = true
  <-> forall a sc p, scopes !! a = Some sc -> parent sc = Some p -> p < a.
Proof.
  split; [intros Hwf a sc p; by apply scopes_wf_parent|].
  intros Hp. unfold scopes_wf. apply forallb_forall. intros [a sc] Hin.
  apply list_elem_of_In, list_elem_of_lookup in Hin as [i Hi].
  rewrite list_lookup_imap in Hi. destruct (scopes !! i) as [sc'|] eqn:Hsc; [|done].
  cbn in Hi. injection Hi as <- <-. cbn.
  destruct (parent sc') as [p|] eqn:Hpar; [|done]. apply Nat.ltb_lt. eauto.
Qed.

Lemma Map_set_ok n m k v : map_ok n m -> value_ok n v -> map_ok n (Map_set m k v).
Proof.
  intros Hm Hv. induction Hm as [|[k0 v0] m Hk0 Hm IH]; cbn.
  - by repeat constructor.
  - destruct (String.eqb k0 k); constructor; auto.
Qed.

Lemma Map_delete_ok n m k : map_ok n m -> map_ok n (Map_delete m k).
Proof.
  intros Hm. induction Hm as [|[k0 v0] m Hk0 Hm IH]; cbn; [constructor|].
  destruct (String.eqb k0 k); [done|]. by constructor.
Qed.

Lemma Map_get_ok n m k : map_ok n m -> value_ok n (Map_get m k).
Proof.
  intros Hm. unfold Map_get. induction Hm as [|[k0 v0] m Hk0 Hm IH]; cbn; [done|].
  by destruct (String.eqb k0 k).
Qed.

(** A change of the values of one frame that keeps them well formed. *)
Lemma state_ok_alter (f : Map value -> Map value) a st :
  state_ok st ->
  (forall m, map_ok (length (scopes st)) m -> map_ok (length (scopes st)) (f m)) ->
  state_ok (set_scopes (alter (map_values f) a) st).
Proof.
  intros [Hp Hf Ho Hg] Hfm. split; cbn; rewrite ?length_alter; [| |done..].
  - apply scopes_wf_iff. intros x sc p Hx Hpar.
    rewrite scopes_wf_iff in Hp. destruct (decide (x = a)) as [->|Hne].
    + rewrite list_lookup_alter_eq in Hx. destruct (scopes st !! a) as [sc0|] eqn:Ha; [|done].
      cbn in Hx. injection Hx as <-. eauto.
    + rewrite list_lookup_alter_ne in Hx by done. eauto.
  - apply Forall_alter; [done|]. intros sc _ Hsc. cbn. by apply Hfm.
Qed.

Lemma good_scope_set n0 a k v :
  value_ok n0 v -> good n0 (fun _ _ => True) (scope_set a k v).
Proof.
  intros Hv st Hst Hn. unfold scope_set, modify, Scope_set. cbn.
  rewrite length_alter. split_and!; [|done..].
  apply state_ok_alter; [done|]. intros m Hm.
  apply Map_set_ok; eauto using value_ok_mono.
Qed.

Lemma good_own_delete n0 a k : good n0 (fun _ _ => True) (own_delete a k).
Proof.
  intros st Hst Hn. cbn. rewrite length_alter. split_and!; [|done..].
  apply state_ok_alter; [done|]. intros m Hm. by apply Map_delete_ok.
Qed.

Lemma good_scope_assign n0 a k v :
  value_ok n0 v -> good n0 (fun _ _ => True) (scope_assign a k v).
Proof.
  intros Hv st Hst Hn. unfold scope_assign, Scope_assign.
  destruct (Scope_assign_from_store (S a) (scopes st) a k v) as [Heq|[b Heq]].
  - replace (set_scopes _ st) with st; [by split_and!|].
    destruct st; unfold set_scopes; cbn in *. by rewrite Heq.
  - replace (set_scopes _ st) with (set_scopes (fun s => Scope_set s b k v) st); cycle 1.
    { destruct st; unfold set_scopes; cbn in *. by rewrite Heq. }
    apply (good_scope_set n0 b k v Hv st Hst Hn).
Qed.

Lemma Scope_get_from_ok fuel st a k :
  state_ok st -> value_ok (length (scopes st)) (Scope_get_from fuel (scopes st) a k).
Proof.
  intros Hst. revert a. induction fuel as [|fuel IH]; intros a; cbn; [done|].
  destruct (scopes st !! a) as [sc|] eqn:Ha; [|done].
  destruct (Map_has (values sc) k).
  - apply Map_get_ok. by eapply (Forall_lookup_1 _ _ _ _ (ok_frames _ Hst)).
  - destruct (parent sc); [apply IH | done].
Qed.

Lemma good_scope_get n0 a k : good n0 value_ok (scope_get a k).
Proof. apply good_gets. intros st Hst _. by apply Scope_get_from_ok. Qed.

Lemma state_ok_grow st sc :
  state_ok st ->
  match parent sc with Some p => p < length (scopes st) | None => True end ->
  map_ok (length (scopes st)) (values sc) ->
  state_ok (set_scopes (fun s => s ++ [sc]) st).
Proof.
  intros [Hp Hf Ho Hg] Hpar Hsc. split; cbn; rewrite ?length_app; cbn.
  - apply scopes_wf_iff. rewrite scopes_wf_iff in Hp. intros a x p Ha Hx.
    destruct (decide (a < length (scopes st))) as [Hlt|Hge].
    + rewrite lookup_app_l in Ha by done. eauto.
    + rewrite lookup_app_r in Ha by lia.
      destruct (a - length (scopes st)) as [|d] eqn:Hd; [|by destruct d].
      cbn in Ha. injection Ha as <-. rewrite Hx in Hpar. lia.
  - apply Forall_app. split.
    + eapply Forall_impl; [exact Hf|]. cbn. intros. eapply map_ok_mono; [|done]. lia.
    + constructor; [|constructor]. eapply map_ok_mono; [|done]. lia.
  - eapply Forall_impl; [exact Ho|]. cbn. intros. eapply map_ok_mono; [|done]. lia.
  - lia.
Qed.

Lemma good_new_Scope n0 p :
  match p with Some q => q < n0 | None => True end ->
  good n0 (fun n a => a < n) (new_Scope p).
Proof.
  intros Hp st Hst Hn. cbn. rewrite length_app. cbn. split_and!; [|lia..].
  apply (state_ok_grow st (mkScope [] p false)); [done| |constructor].
  cbn. destruct p; [lia|done].
Qed.

Lemma state_ok_simple st st' :
  state_ok st -> scopes st' = scopes st -> objects st' = objects st ->
  globals st' = globals st -> state_ok st'.
Proof. intros [Hp Hf Ho Hg] Hs Hob Hgl. split; by rewrite ?Hs, ?Hob, ?Hgl. Qed.

Lemma good_modify_simple n0 (f : Interpreter -> Interpreter) :
  (forall st, scopes (f st) = scopes st /\ objects (f st) = objects st
              /\ globals (f st) = globals st) ->
  good n0 (fun _ _ => True) (modify f).
Proof.
  intros Hf st Hst Hn. destruct (Hf st) as (Hs & Ho & Hg). cbn. rewrite Hs.
  split_and!; [|done..]. by eapply state_ok_simple.
Qed.

Lemma good_new_object n0 entries :
  map_ok n0 entries -> good n0 value_ok (new_object entries).
Proof.
  intros He st [Hp Hf Ho Hg] Hn. cbn. split_and!; [|done..].
  split; cbn; [done..| |done].
  apply Forall_app. split; [done|]. constructor; [|constructor].
  eapply map_ok_mono; [|done]. lia.
Qed.

Lemma good_new_function n0 params body scope :
  scope < n0 -> good n0 value_ok (new_function params body scope).
Proof.
  intros Hs st Hst Hn. cbn. split_and!; [|done|lia].
  by eapply state_ok_simple.
Qed.

Lemma good_bind_params n0 fnScope i params args :
  Forall (value_ok n0) args ->
  good n0 (fun _ _ => True) (bind_params fnScope i params args).
Proof.
  intros Hargs. revert n0 i Hargs.
  induction params as [|p ps IH]; intros n0 i Hargs; cbn [bind_params].
  - by apply good_ret.
  - eapply good_bind.
    + apply good_scope_set. destruct (args !! i) as [v|] eqn:Hv; [|done].
      cbn. by eapply (Forall_lookup_1 _ _ _ _ Hargs).
    + intros _ n1 Hle _. apply IH. eauto using Forall_value_ok_mono.
Qed.

Lemma good_set_entries n0 objScope entries :
  map_ok n0 entries -> good n0 (fun _ _ => True) (set_entries objScope entries).
Proof.
  intros He. revert n0 He.
  induction entries as [|[k v] rest IH]; intros n0 He; cbn [set_entries].
  - by apply good_ret.
  - apply Forall_cons in He as [Hv Hrest]. eapply good_bind.
    + by apply good_scope_set.
    + intros _ n1 Hle _. apply IH. eauto using map_ok_mono.
Qed.

Lemma good_fill_evalCache n0 code : good n0 (fun _ _ => True) (fill_evalCache code).
Proof.
  intros st Hst Hn. unfold fill_evalCache, bind, gets, lift, ret, evalCache_set, modify.
  destruct (Map_has (evalCache st) code); [by split_and!|].
  destruct (deps_Lexer_tokenize code) as [tokens|e]; [|by split_and!].
  destruct (deps_Parser_parse tokens) as [ast|e]; [|by split_and!].
  split_and!; [|done..]. by eapply state_ok_simple.
Qed.

Lemma good_spread n0 p : value_ok n0 p -> good n0 map_ok (spread p).
Proof.
  intros Hp. apply good_gets. intros st Hst Hn. destruct p; try by constructor.
  - destruct (objects st !! addr) as [props|] eqn:Ha; [|by constructor].
    cbn. by eapply (Forall_lookup_1 _ _ _ _ (ok_objects _ Hst)).
  - apply host_entries_ok.
Qed.

Lemma good_member n0 obj prop : value_ok n0 obj -> good n0 value_ok (member obj prop).
Proof.
  intros Hobj. apply good_gets. intros st Hst Hn.
  assert (value_ok (length (scopes st)) (host_member obj prop)) as Hh.
  { apply host_member_ok. eauto using value_ok_mono. }
  destruct obj; try done.
  destruct (objects st !! addr) as [props|] eqn:Ha; [|done].
  destruct (Map_has props prop); [|done].
  apply Map_get_ok. by eapply (Forall_lookup_1 _ _ _ _ (ok_objects _ Hst)).
Qed.


Lemma good_gets_any {A} n0 (f : Interpreter -> A) : good n0 (fun _ _ => True) (gets f).
Proof. by apply good_gets. Qed.

Lemma good_own_has n0 a k : good n0 (fun _ _ => True) (own_has a k).
Proof. apply good_gets_any. Qed.

Lemma good_frame_entries n0 a :
  good n0 map_ok (gets (fun st => default [] (values <$> scopes st !! a))).
Proof.
  apply good_gets. intros st Hst _. destruct (scopes st !! a) as [sc|] eqn:Ha; [|constructor].
  cbn. by eapply (Forall_lookup_1 _ _ _ _ (ok_frames _ Hst)).
Qed.

Lemma good_objects n0 : good n0 (fun n objs => Forall (map_ok n) objs) (gets objects).
Proof. apply good_gets. intros st Hst _. apply (ok_objects _ Hst). Qed.

Lemma good_globals n0 : good n0 (fun n g => g < n) (gets globals).
Proof. apply good_gets. intros st Hst _. apply (ok_globals _ Hst). Qed.

Lemma good_weaken {A} n0 n1 (P Q : nat -> A -> Prop) m :
  good n0 P m -> n0 <= n1 -> (forall n a, n1 <= n -> P n a -> Q n a) -> good n1 Q m.
Proof.
  intros Hm Hle HPQ st Hst Hn. specialize (Hm st Hst ltac:(lia)).
  destruct (m st) as [a st'|e st'|]; [|done..].
  destruct Hm as (? & ? & ?). split_and!; [done..|]. apply HPQ; [lia|done].
Qed.

Lemma binop_ok n op l r : value_ok n l -> value_ok n r -> value_ok n (binop op l r).
Proof.
  intros Hl Hr. pose proof (host_binop_ok n op l r Hl Hr) as Hh.
  assert (forall o : option value, (forall v, o = Some v -> value_ok n v)
            -> value_ok n (or_host op l r o)) as Hor.
  { intros [v|] Hv; cbn; auto. }
  assert (forall o : option bool, value_ok n (or_host op l r (VBool <$> o))) as Hb.
  { intros [b|]; cbn; auto. }
  assert (forall f, value_ok n (or_host op l r (arith f l r))) as Ha.
  { intros f. apply Hor. unfold arith. intros v.
    destruct (numeric l), (numeric r); intros [= <-]; done. }
  unfold binop. repeat case_match; first [apply Hb | apply Ha | done | idtac].
  apply Hor. unfold plus. intros v Hv. repeat case_match; by simplify_eq.
Qed.

Lemma compound_ok n op c v : value_ok n c -> value_ok n v -> value_ok n (compound op c v).
Proof. intros Hc Hv. unfold compound. repeat case_match; auto using binop_ok. Qed.


Ltac ok_side :=
  first [ done | lia
        | eapply value_ok_mono; [|eassumption]; lia
        | eapply map_ok_mono; [|eassumption]; lia
        | eapply Forall_value_ok_mono; [|eassumption]; lia
        | eapply Forall_map_ok_mono; [|eassumption]; lia
        | by apply Forall_nil_2 ].

Ltac good_leaf :=
  first
    [ apply good_scope_get | apply good_own_has
    | lazymatch goal with
      | |- good _ _ (gets objects) => apply good_objects
      | |- good _ _ (gets globals) => apply good_globals
      | |- good _ _ (gets (fun st => default [] _)) => apply good_frame_entries
      | |- good _ _ (gets _) => apply good_gets_any
      end
    | apply good_own_delete | apply good_fill_evalCache
    | apply good_scope_set; solve [ok_side]
    | apply good_scope_assign; solve [ok_side]
    | apply good_new_function; solve [ok_side]
    | apply good_new_object; solve [ok_side]
    | apply good_set_entries; solve [ok_side]
    | apply good_bind_params; solve [ok_side]
    | apply good_spread; solve [ok_side]
    | apply good_member; solve [ok_side]
    | apply good_modify_simple; by intros []
    | apply good_throw | apply good_out_of_fuel
    | apply good_ret; intros; cbv beta; solve [ok_side]
    | match goal with H : _ |- _ => eapply H; solve [ok_side] end ].

Ltac good_step :=
  lazymatch goal with
  | |- good _ _ (bind (if ?b then _ else _) _) => destruct b
  | |- good _ _ (bind _ _) =>
      eapply good_bind; [solve [good_leaf] | intros ? ? ? ?; cbv beta in *]
  | |- good _ _ (if ?b then _ else _) => destruct b
  | |- good _ _ (match ?x with _ => _ end) => destruct x
  | |- good _ _ _ => solve [good_leaf]
  end.

Lemma interpreter_good fuel : all_good fuel.
Proof.
  induction fuel as [|fuel (IHb & IHs & IHe & IHw & IHf & IHv & IHa & IHp)].
  - repeat split; intros; apply good_out_of_fuel.
  - repeat split; intros.
    + cbn [executeBlock_from]. destruct stmts; repeat good_step.
    + cbn [executeStatement]. destruct node; repeat good_step.
      * eapply (good_bind _ value_ok).
        { destruct (deps_ModuleManager_resolve moduleName) eqn:Hr.
          - apply good_ret. intros. by eapply host_resolve_ok.
          - apply good_lift. intros. by eapply host_import_ok. }
        intros ? ? ? ?. repeat good_step.
      * eapply (good_bind _ map_ok).
        { destruct parent0 as [parentName|]; repeat good_step. }
        intros base n1 Hle Hbase.
        eapply good_bind; [by apply good_new_Scope|].
        intros objScope n2 Hle2 Hobj. cbv beta in Hobj. repeat good_step.
      * eapply (good_bind _ value_ok).
        { eapply good_bind; [apply good_scope_get|]. intros found n2 Hle2 Hfound.
          apply good_ret. intros. apply compound_ok; [destruct (truthy _)|]; ok_side. }
        intros ? ? ? ?. repeat good_step.
    + cbn [executeElifs]. repeat good_step.
    + cbn [executeWhile]. repeat good_step.
    + cbn [executeFor]. repeat good_step.
    + cbn [evaluate]. repeat good_step.
      * apply good_ret. intros. apply binop_ok; ok_side.
      * eapply (good_bind _ (fun n t => value_ok n t.1 /\ value_ok n t.2)).
        { destruct node; repeat good_step.
          all: apply good_ret; intros; cbn; split; ok_side. }
        intros [fn context] n1 Hle [Hfn Hcontext]. cbn [fst snd] in *. repeat good_step.
    + cbn [evaluateAll]. repeat good_step.
      apply good_ret. intros. constructor; ok_side.
    + cbn [apply]. repeat good_step.
      * cbn in H1. eapply good_bind; [by apply good_new_Scope|].
        intros fnScope n1 Hle Hfn. cbv beta in Hfn. repeat good_step.
      * apply good_lift. intros v n Hv Hle.
        eapply host_apply_ok; [| | |exact Hv]; ok_side.
Qed.

(** X6. Running a program keeps the store of scopes well founded: in the
    state that a run which the embedding follows leaves, whether it
    returns or throws, the parent of every
    frame and the scope captured by every function stored in a frame or
    in an object is an older frame, so no chain of parents ever cycles. *)
Theorem run_keeps_scopes_well_founded fuel body st :
  state_ok st ->
  match run fuel body st with
  | Returned _ st' | Thrown _ st' => state_ok st'
  | OutOfFuel => True
  end.
Proof.
  intros Hst.
  assert (good 0 value_ok (run fuel body)) as Hrun.
  { unfold run, executeBlock, set_stop. repeat good_step.
    by apply (interpreter_good fuel). }
  specialize (Hrun st Hst ltac:(lia)).
  destruct (run fuel body st); [apply Hrun..|done].
Qed.

(** A new interpreter is well formed when the external map holds no
    function of an interpreter. *)
Lemma new_Interpreter_ok external :
  map_ok 1 (default [] external) -> state_ok (new_Interpreter external).
Proof.
  intros Hext. unfold new_Interpreter. split; cbn [scopes objects globals length].
  { done. } 2: { constructor. } 2: { lia. }
  constructor; [|constructor]. cbn [values].
  do 2 (apply Map_set_ok; [|done]).
  revert Hext. generalize (default [] external). intros ext Hext.
  generalize (@nil (string * value)) (Forall_nil_2 (fun kv : string * value => value_ok 1 kv.2)).
  induction Hext as [|[k v] ext Hv Hext IH]; intros m Hm; cbn; [exact Hm|].
  apply IH. by apply Map_set_ok.
Qed.

(** In a well-founded store the walks from frame [a] end within [a + 1]
    steps: more fuel changes nothing. *)
Lemma Scope_walk_enough fuel scopes a name val :
  scopes_wf scopes = true -> a < fuel ->
  Scope_get_from fuel scopes a name = Scope_get scopes a name
  /\ Scope_assign_from fuel scopes a name val = Scope_assign scopes a name val.
Proof.
  intros Hwf. unfold Scope_get, Scope_assign.
  assert (forall f1 f2 a, a < f1 -> a < f2 ->
            Scope_get_from f1 scopes a name = Scope_get_from f2 scopes a name
            /\ Scope_assign_from f1 scopes a name val
               = Scope_assign_from f2 scopes a name val) as Hany.
  { induction f1 as [|f1 IH]; intros f2 b H1 H2; [lia|].
    destruct f2 as [|f2]; [lia|]. cbn.
    destruct (scopes !! b) as [sc|] eqn:Hb; [|done].
    destruct (Map_has (values sc) name); [done|].
    destruct (parent sc) as [p|] eqn:Hp; [|done].
    pose proof (scopes_wf_parent _ _ _ _ Hwf Hb Hp). apply IH; lia. }
  intros Hlt. apply Hany; lia.
Qed.

End Reachable.

(** * The statements above at concrete inputs *)

Section Examples.
#[local] Existing Instance example_host.
Local Open Scope list_scope.

(** [False and f()] and [True or f()] leave the state as it was, while a
    call of [f] does not. *)
Lemma logical_operators_short_circuit_witness :
  evaluate 2 (BinaryExpression (Literal (LBool false)) "and" f_call) 0 with_f
  = Returned (VBool false) with_f
  /\ evaluate 2 (BinaryExpression (Literal (LBool true)) "or" f_call) 0 with_f
     = Returned (VBool true) with_f
  /\ evaluate 5 f_call 0 with_f <> Returned (VBool true) with_f.
Proof.
  split; [|split; [|by vm_compute]].
  - apply (logical_operators_short_circuit 1 (Literal (LBool false)) f_call 0 with_f
             (VBool false) with_f); reflexivity.
  - apply (logical_operators_short_circuit 1 (Literal (LBool true)) f_call 0 with_f
             (VBool true) with_f); reflexivity.
Defined.




Lemma object_definition_copies_parent_witness :
  exists final,
    executeStatement 4 (ObjectDefinition "Child" (Some "Base") [Assignment "y" "=" (num 2)])
                     0 with_Base
    = Returned VUndefined final
    /\ objects final = [[("x", VNum 1)]; [("x", VNum 1); ("y", VNum 2)]]
    /\ Scope_get (scopes final) 0 "Child" = VObject 1
    /\ <[0 := [("x", VNum 9)]]> (objects final) !! 1 = Some [("x", VNum 1); ("y", VNum 2)].
Proof.
  destruct (object_definition_copies_parent 3 "Child" "Base" [Assignment "y" "=" (num 2)]
              0 with_Base 0 [("x", VNum 1)] VUndefined
              (mkInterpreter
                 (scopes with_Base ++ [mkScope [("x", VNum 1); ("y", VNum 2)] None false])
                 [[("x", VNum 1)]] 0 [] 0 false [] 1))
    as (frame & final & Hexec & _ & _ & _ & Hframe & _ & Hscopes & Hobjects & _ & _ & _ & Hlater);
    [discriminate | reflexivity..|].
  injection Hframe as <-.
  exists final. split; [exact Hexec|]. split; [exact Hobjects|]. split.
  - rewrite Hscopes. reflexivity.
  - apply Hlater.
Defined.

Lemma top_level_return_leaves_sentinel_witness :
  exists st2,
    executeStatement 2 (ReturnStatement (num 7)) 0 (new_Interpreter None)
    = Returned VUndefined st2
    /\ own_has_in (scopes st2) 0 "__ret__" = true
    /\ run 3 [Assignment "y" "=" (num 1); Assignment "z" "=" (num 2)] st2
       = match executeStatement 2 (Assignment "y" "=" (num 1)) 0 (with_stop false st2) with
         | Returned _ st' => Returned (Scope_get (scopes st') 0 "__ret__") st'
         | Thrown e st' => Thrown e st'
         | OutOfFuel => OutOfFuel
         end.
Proof.
  destruct (top_level_return_leaves_sentinel 1 (num 7) (new_Interpreter None) (VNum 7)
              (new_Interpreter None)) as (st2 & Hexec & Hhas & Hlater);
    [cbn; lia | reflexivity |].
  exists st2. split; [exact Hexec|].
  assert (globals st2 = 0) as Hg.
  { cbn in Hexec. by injection Hexec as <-. }
  rewrite Hg in Hhas. split; [exact Hhas|].
  destruct (Hlater st2) as (_ & Hfirst & _); [by rewrite Hg|].
  rewrite Hfirst, Hg. reflexivity.
Defined.

Lemma block_stops_at_break_or_continue_witness :
  exists st',
    executeStatement 1 BreakStatement 0 (new_Interpreter None) = Returned VUndefined st'
    /\ executeBlock_from 2 VNull [BreakStatement; Assignment "x" "=" (num 1)] 0
         (new_Interpreter None)
       = Returned VUndefined st'.
Proof.
  eexists. split; [reflexivity|].
  apply block_stops_at_break_or_continue; reflexivity.
Defined.

Lemma while_loop_consumes_break_and_continue_witness :
  executeWhile 3 (Literal (LBool true)) [BreakStatement] 0 (new_Interpreter None)
  = Returned tt (new_Interpreter None).
Proof.
  destruct (while_loop_consumes_break_and_continue 2 (Literal (LBool true)) [BreakStatement] 0
              (new_Interpreter None) (VBool true) (new_Interpreter None) VUndefined
              (set_scopes (fun s => Scope_set s 0 "__break__" (VBool true))
                          (new_Interpreter None)))
    as (Hbreak & _); [reflexivity..|].
  rewrite Hbreak; reflexivity.
Defined.

Lemma for_loop_iterates_whatever_the_break_flag_witness :
  exists st2,
    own_has_in (scopes st2) 0 "__break__" = true
    /\ executeFor 3 "i" 1 3 [BreakStatement] 0 (new_Interpreter None)
       = executeFor 2 "i" 2 3 [BreakStatement] 0 st2.
Proof.
  eexists. split; cycle 1.
  - apply (for_loop_iterates_whatever_the_break_flag 2 "i" 1 3 [BreakStatement] 0
             (new_Interpreter None) VUndefined); reflexivity.
  - reflexivity.
Defined.

(** Reading the second parameter of a two-parameter function called with
    one argument throws. *)
Lemma missing_argument_read_throws :
  exists st',
    run 20 call_with_missing_argument (new_Interpreter None)
    = Thrown (Js.Error "Undefined: b") st'.
Proof. eexists. vm_compute. reflexivity. Qed.

(** After a top-level [return] of 7, a run of the empty program returns
    [null], and a run of a program that starts with a [return] of 8
    returns 8: neither returns the stale 7. *)
Lemma later_run_need_not_return_stale_value :
  exists st7 st8,
    run 5 [ReturnStatement (num 7)] (new_Interpreter None) = Returned (VNum 7) st7
    /\ run 5 [] st7 = Returned VNull st7
    /\ run 5 [ReturnStatement (num 8); Assignment "y" "=" (num 1)] st7
       = Returned (VNum 8) st8.
Proof.
  do 2 eexists. split; [vm_compute; reflexivity|]. split; vm_compute; reflexivity.
Qed.


Lemma example_host_ok : @HostOk example_host.
Proof.
  split; cbn; try done.
  - intros n h. constructor.
  - intros n name context args objs v _ _ _ [= <-]. done.
Qed.

Lemma run_keeps_scopes_well_founded_witness :
  state_ok (new_Interpreter None)
  /\ exists v st',
       @run example_host 9
         [FunctionDeclaration "f" ["a"] [ReturnStatement (Identifier "a")];
          ExpressionStatement (CallExpression (Identifier "f") [num 1])]
         (new_Interpreter None)
       = Returned v st'
       /\ length (scopes st') = 2 /\ state_ok st'.
Proof.
  assert (state_ok (new_Interpreter None)) as Hst.
  { apply new_Interpreter_ok. constructor. }
  split; [exact Hst|].
  pose proof (run_keeps_scopes_well_founded (H0 := example_host_ok) 9
    [FunctionDeclaration "f" ["a"] [ReturnStatement (Identifier "a")];
     ExpressionStatement (CallExpression (Identifier "f") [num 1])]
    (new_Interpreter None) Hst) as Hrun.
  destruct (run _ _ _) as [v st'|e st'|] eqn:Hr in Hrun.
  - exists v, st'. split; [exact Hr|]. split; [|exact Hrun].
    vm_compute in Hr. by injection Hr as <- <-.
  - vm_compute in Hr. discriminate.
  - vm_compute in Hr. discriminate.
Defined.

End Examples.

(** * More on the lexer *)

Module LexerStructure.
Import Js Lexer LexerSpec.
Local Open Scope list_scope.

Lemma replay_app stack a b :
  replay stack (a ++ b) = replay stack a ≫= fun stack' => replay stack' b.
Proof.
  revert stack. induction a as [|tok a IH]; intros stack; cbn [replay app]; [done|].
  destruct (type tok); try apply IH.
  - destruct (value tok), stack as [|top ?]; try done.
    destruct (top <? n)%nat; [apply IH | done].
  - destruct stack as [|? [|? ?]]; first [done | apply IH].
Qed.

Lemma replay_other stack toks :
  Forall (fun tok => type tok <> INDENT /\ type tok <> DEDENT) toks ->
  replay stack toks = Some stack.
Proof.
  induction 1 as [|tok toks [H1 H2] _ IH]; cbn; [done|].
  by destruct (type tok).
Qed.

Lemma classify_not_structural lineNum val :
  type (classify lineNum val) <> INDENT /\ type (classify lineNum val) <> DEDENT.
Proof.
  unfold classify.
  repeat match goal with |- context [if ?b then _ else _] => destruct b end; by cbn.
Qed.

Lemma tokenizeLine_from_other lineNum skip s :
  Forall (fun tok => type tok <> INDENT /\ type tok <> DEDENT)
         (tokenizeLine_from lineNum skip s).
Proof.
  revert skip. induction s as [|c rest IH]; intros skip; cbn [tokenizeLine_from]; [done|].
  destruct skip as [|k]; [|apply IH].
  destruct (regex_match_at _) as [len|]; [|apply IH].
  match goal with |- context [if ?b then _ else _] => destruct b end; [done|].
  constructor; [apply classify_not_structural | apply IH].
Qed.

Lemma stack_ok_cons top stack :
  stack_ok stack = true -> (default 0 (head stack) <? top)%nat = true ->
  stack_ok (top :: stack) = true.
Proof. destruct stack as [|next l]; [done|]. cbn. intros -> ->. done. Qed.

Lemma stack_ok_tail top stack : stack_ok (top :: stack) = true -> stack <> [] -> stack_ok stack = true.
Proof. destruct stack as [|next l]; [done|]. cbn. by intros [_ ?]%andb_true_iff. Qed.

(** What the loop that pops levels does to a well-formed stack. *)
Lemma dedent_to_replay indent lineNum toks stack :
  stack_ok stack = true ->
  replay [0] toks = Some stack ->
  let r := dedent_to indent lineNum toks stack in
  stack_ok r.2 = true /\ replay [0] r.1 = Some r.2
  /\ (default 0 (head r.2) <= indent)
  /\ (r.2 = stack \/ default 0 (head stack) > indent).
Proof.
  revert toks. induction stack as [|top below IH]; intros toks Hok Hr; [done|].
  cbn [dedent_to]. destruct (indent <? top)%nat eqn:Hlt.
  - apply Nat.ltb_lt in Hlt.
    destruct below as [|next l].
    { cbn in Hok. apply Nat.eqb_eq in Hok. lia. }
    destruct (IH (toks ++ [Token DEDENT NoValue (Some lineNum)])) as (H1 & H2 & H3 & H4).
    + by eapply stack_ok_tail.
    + by rewrite replay_app, Hr.
    + cbn zeta. split_and!; [done..|]. right. cbn. lia.
  - apply Nat.ltb_ge in Hlt. cbn. split_and!; [done..|lia|by left].
Qed.

Lemma handle_indent_replay lx indent lineNum :
  stack_ok (indentStack lx) = true ->
  replay [0] (tokens lx) = Some (indentStack lx) ->
  let lx' := handle_indent lx indent lineNum in
  stack_ok (indentStack lx') = true /\ replay [0] (tokens lx') = Some (indentStack lx').
Proof.
  intros Hok Hr. unfold handle_indent.
  destruct (indentStack lx) as [|top below] eqn:Hs; [done|].
  destruct (top <? indent)%nat eqn:Hlt.
  - cbn [tokens indentStack]. split.
    + apply stack_ok_cons; [done|]. by cbn.
    + rewrite replay_app, Hr. cbn [mbind option_bind replay type value]. by rewrite Hlt.
  - rewrite <- Hs in *. pose proof (dedent_to_replay indent lineNum _ _ Hok Hr) as Hd.
    destruct (dedent_to _ _ _ _) as [toks st]. cbn in *. tauto.
Qed.

Lemma tokenize_step_replay lx i raw :
  stack_ok (indentStack lx) = true ->
  replay [0] (tokens lx) = Some (indentStack lx) ->
  let lx' := tokenize_step lx i raw in
  stack_ok (indentStack lx') = true /\ replay [0] (tokens lx') = Some (indentStack lx').
Proof.
  intros Hok Hr. unfold tokenize_step. destruct (_ || _); [done|].
  destruct (handle_indent_replay lx (indent_width raw) (i + 1) Hok Hr) as [H1 H2].
  cbn [tokens indentStack]. split; [done|].
  rewrite replay_app, H2. cbn. apply replay_other, Forall_app. split.
  - apply tokenizeLine_from_other.
  - by repeat constructor.
Qed.

Lemma tokenize_lines_replay lines lx i :
  stack_ok (indentStack lx) = true ->
  replay [0] (tokens lx) = Some (indentStack lx) ->
  let lx' := tokenize_lines lx i lines in
  stack_ok (indentStack lx') = true /\ replay [0] (tokens lx') = Some (indentStack lx').
Proof.
  revert lx i. induction lines as [|raw rest IH]; intros lx i Hok Hr; cbn; [done|].
  destruct (tokenize_step_replay lx i raw Hok Hr). by apply IH.
Qed.

Lemma close_indents_replay toks stack :
  stack_ok stack = true ->
  replay [0] toks = Some stack ->
  replay [0] (close_indents toks stack).1 = Some [0] /\ (close_indents toks stack).2 = [0].
Proof.
  revert toks. induction stack as [|top below IH]; intros toks Hok Hr; [done|].
  destruct below as [|next l].
  - cbn in *. apply Nat.eqb_eq in Hok. by subst.
  - rewrite LexerFacts.close_indents_cons. apply IH.
    + by eapply stack_ok_tail.
    + by rewrite replay_app, Hr.
Qed.

(** X7. The tokens of every input are well nested: replayed in order on
    the stack [[0]], every INDENT carries a width above that of the block
    it is in, every DEDENT closes a block that an INDENT opened, and the
    replay ends on [[0]]. *)
Theorem tokens_are_well_nested (input : string) :
  exists toks, tokenize input = Normal toks /\ replay [0] toks = Some [0].
Proof.
  exists (tokens (run input)). split; [done|]. unfold run.
  destruct (tokenize_lines_replay (split_lines input) init 0) as [Hok Hr]; [done..|].
  destruct (close_indents_replay _ _ Hok Hr) as [H1 H2].
  by destruct (close_indents _ _).
Qed.

(** *** One NEWLINE for each significant line *)

Lemma classify_not_newline lineNum val : type (classify lineNum val) <> NEWLINE.
Proof.
  unfold classify.
  repeat match goal with |- context [if ?b then _ else _] => destruct b end; by cbn.
Qed.

Lemma tokenizeLine_from_no_newline lineNum skip s :
  count NEWLINE (tokenizeLine_from lineNum skip s) = 0.
Proof.
  revert skip. induction s as [|c rest IH]; intros skip; cbn [tokenizeLine_from]; [done|].
  destruct skip as [|k]; [|apply IH].
  destruct (regex_match_at _) as [len|]; [|apply IH].
  match goal with |- context [if ?b then _ else _] => destruct b end; [done|].
  change (?x :: ?l) with ([x] ++ l).
  rewrite LexerFacts.count_app, IH, LexerFacts.count_singleton.
  destruct (decide _) as [Heq|]; [|done]. by apply classify_not_newline in Heq.
Qed.

Lemma dedent_to_no_newline indent lineNum toks stack :
  count NEWLINE (dedent_to indent lineNum toks stack).1 = count NEWLINE toks.
Proof.
  revert toks. induction stack as [|top below IH]; intros toks; cbn [dedent_to]; [done|].
  destruct (indent <? top)%nat; [|done].
  rewrite IH, LexerFacts.count_app, LexerFacts.count_singleton. cbn.
  case_decide; [done|lia].
Qed.

Lemma handle_indent_no_newline lx indent lineNum :
  count NEWLINE (tokens (handle_indent lx indent lineNum)) = count NEWLINE (tokens lx).
Proof.
  unfold handle_indent. destruct (indentStack lx) as [|top below] eqn:Hs; [done|].
  destruct (top <? indent)%nat.
  - cbn [tokens]. rewrite LexerFacts.count_app, LexerFacts.count_singleton. cbn.
    case_decide; [done|lia].
  - rewrite <- Hs. pose proof (dedent_to_no_newline indent lineNum (tokens lx) (indentStack lx)).
    by destruct (dedent_to _ _ _ _).
Qed.

Lemma tokenize_lines_newlines lines lx i :
  count NEWLINE (tokens (tokenize_lines lx i lines))
  = count NEWLINE (tokens lx) + length (filter (fun raw => significant raw = true) lines).
Proof.
  revert lx i. induction lines as [|raw rest IH]; intros lx i; cbn [tokenize_lines]; [cbn; lia|].
  rewrite IH, filter_cons. unfold tokenize_step, significant.
  destruct (_ || _); cbn [negb].
  - case_decide; [done|lia].
  - case_decide; [|done]. cbn [tokens length]. unfold tokenizeLine.
    rewrite !LexerFacts.count_app, tokenizeLine_from_no_newline, handle_indent_no_newline,
      LexerFacts.count_singleton.
    cbn. case_decide; [lia|done].
Qed.

Lemma close_indents_no_newline toks stack :
  count NEWLINE (close_indents toks stack).1 = count NEWLINE toks.
Proof.
  revert toks. induction stack as [|top below IH]; intros toks; [done|].
  destruct below as [|next l]; [done|].
  rewrite LexerFacts.close_indents_cons, IH, LexerFacts.count_app, LexerFacts.count_singleton.
  cbn. case_decide; [done|lia].
Qed.

(** X8. The lexer emits exactly one NEWLINE token for each line of the
    input that is neither blank nor a comment, and none for the others. *)
Theorem one_newline_per_significant_line (input : string) :
  exists toks,
    tokenize input = Normal toks
    /\ count NEWLINE toks
       = length (filter (fun raw => significant raw = true) (split_lines input)).
Proof.
  exists (tokens (run input)). split; [done|]. unfold run.
  pose proof (tokenize_lines_newlines (split_lines input) init 0) as Hn.
  pose proof (close_indents_no_newline (tokens (tokenize_lines init 0 (split_lines input)))
                (indentStack (tokenize_lines init 0 (split_lines input)))) as Hc.
  destruct (close_indents _ _). cbn in *. lia.
Qed.

(** *** The fields of the tokens *)

Lemma all_chars_take_span p s : all_chars p (take (span_len p s) s) = true.
Proof. induction s as [|c r IH]; cbn; [done|]. destruct (p c) eqn:Hc; cbn; [by rewrite Hc|done]. Qed.

Lemma span_len_le p s : span_len p s <= String.length s.
Proof. induction s as [|c r IH]; cbn; [lia|]. destruct (p c); cbn; lia. Qed.

Lemma length_take n s : n <= String.length s -> String.length (take n s) = n.
Proof.
  revert n. induction s as [|c r IH]; intros [|n]; cbn; try lia.
  intros. rewrite IH; lia.
Qed.

Lemma length_drop n s : String.length (drop n s) = String.length s - n.
Proof. revert n. induction s as [|c r IH]; intros [|n]; cbn; try done. Qed.

Lemma take_cons n c r : take (S n) (String c r) = String c (take n r).
Proof. done. Qed.

Lemma take_take n m s : n <= m -> take n (take m s) = take n s.
Proof.
  revert n m. induction s as [|c r IH]; intros [|n] [|m]; cbn; try done; try lia.
  intros. f_equal. apply IH. lia.
Qed.

Lemma take_startsWith p s : startsWith p s = true -> take (String.length p) s = p.
Proof.
  revert s. induction p as [|a p IH]; intros [|b s]; cbn; try done.
  intros [Hab Hp]%andb_true_iff. apply Ascii.eqb_eq in Hab as ->. f_equal. auto.
Qed.

Lemma span_len_all p s : all_chars p s = true -> span_len p s = String.length s.
Proof.
  induction s as [|c r IH]; cbn; [done|].
  intros [-> Hr]%andb_true_iff. f_equal. auto.
Qed.

Lemma ident_start_plain c :
  is_ident_start c = true ->
  Ascii.eqb "!" c = false /\ Ascii.eqb dquote c = false /\ Ascii.eqb "#" c = false.
Proof. by destruct c as [[] [] [] [] [] [] [] []]. Qed.

Lemma digit_plain c :
  is_digit c = true ->
  Ascii.eqb "!" c = false /\ Ascii.eqb dquote c = false /\ Ascii.eqb "#" c = false
  /\ is_ident_start c = false /\ Ascii.eqb c "T" = false /\ Ascii.eqb c "F" = false.
Proof. by destruct c as [[] [] [] [] [] [] [] []]. Qed.

Lemma classify_string lineNum s :
  classify lineNum (String dquote s)
  = Token STR_LITERAL (Text (slice_1_m1 (String dquote s))) (Some lineNum).
Proof. done. Qed.

Lemma classify_obj lineNum s :
  classify lineNum (String "#" s)
  = Token OBJ_IDENTIFIER (Text (slice_1_m1 (String "#" s))) (Some lineNum).
Proof. done. Qed.

Lemma classify_number_literal lineNum s :
  classify lineNum (String "!" s)
  = Token NUMBER_LITERAL (ParseFloat (slice_1_m1 (String "!" s))) (Some lineNum).
Proof. done. Qed.

Lemma classify_identifier lineNum c r :
  is_ident_start c = true ->
  classify lineNum (String c r)
  = if String.eqb (String c r) "True" || String.eqb (String c r) "False"
    then Token BOOL_LITERAL (Flag (String.eqb (String c r) "True")) (Some lineNum)
    else Token IDENTIFIER (Text (String c r)) (Some lineNum).
Proof.
  intros Hc. destruct (ident_start_plain c Hc) as (H1 & H2 & H3).
  unfold classify. cbn [startsWith]. rewrite H1, H2, H3, Hc. cbn [andb]. done.
Qed.

Lemma classify_digits lineNum c r :
  is_digit c = true -> all_chars is_digit r = true ->
  classify lineNum (String c r) = Token NUMBER (Text (String c r)) (Some lineNum).
Proof.
  intros Hc Hr. destruct (digit_plain c Hc) as (H1 & H2 & H3 & H4 & H5 & H6).
  unfold classify. cbn [startsWith String.eqb]. rewrite H1, H2, H3, H4, H5, H6. cbn [andb orb span_len String.length]. rewrite Hc.
  rewrite (span_len_all _ _ Hr), Nat.eqb_refl. done.
Qed.

Lemma regex_match_token_ok lineNum s len :
  regex_match_at s = Some len ->
  startsWith "--" (take len s) = false ->
  token_ok (classify lineNum (take len s)) = true.
Proof.
  unfold regex_match_at, first_match. cbn [fold_right]. intros Hm Hc.
  (* the comment *)
  destruct (re_comment s) as [n|] eqn:H1.
  { injection Hm as <-. unfold re_comment in H1.
    destruct (startsWith "--" s) eqn:Hs; [|done]. injection H1 as <-.
    destruct s as [|a [|b s]]; [done| |].
    - cbn in Hs. by rewrite andb_false_r in Hs.
    - cbn [drop take startsWith] in Hs, Hc. congruence. }
  (* the number literal *)
  destruct (re_number_literal s) as [n|] eqn:H2.
  { injection Hm as <-. unfold re_number_literal in H2.
    destruct s as [|a s]; [done|]. cbn [startsWith] in H2.
    destruct (Ascii.eqb "!" a) eqn:Ha; [|done]. apply Ascii.eqb_eq in Ha as <-.
    assert (exists k, n = S k) as [k ->].
    { cbn [andb] in H2. repeat case_match; simplify_eq; eexists; cbn; reflexivity. }
    by rewrite take_cons, classify_number_literal. }
  (* the string *)
  destruct (re_string s) as [n|] eqn:H3.
  { injection Hm as <-. unfold re_string in H3.
    destruct s as [|a s]; [done|]. unfold is_dquote in H3 at 1.
    destruct (Ascii.eqb a dquote) eqn:Ha; [|done]. apply Ascii.eqb_eq in Ha as ->.
    set (k := span_len (fun c => negb (is_dquote c)) s) in *.
    destruct (drop k s) as [|d rest] eqn:Hd; [done|]. injection H3 as <-.
    replace (k + 2) with (S (S k)) by lia. rewrite !take_cons, classify_string.
    unfold token_ok. cbn [type value line]. rewrite andb_true_iff. split; [|done].
    unfold slice_1_m1. cbn [String.length drop].
    assert (S k <= String.length s) as Hk.
    { pose proof (length_drop k s) as Hl. rewrite Hd in Hl. cbn in Hl. lia. }
    rewrite length_take by done. replace (S (S k) - 2) with k by lia.
    rewrite take_take by lia. apply all_chars_take_span. }
  (* the object identifier *)
  destruct (re_obj_identifier s) as [n|] eqn:H4.
  { injection Hm as <-. unfold re_obj_identifier in H4.
    destruct s as [|a [|d s]]; try done.
    destruct (Ascii.eqb a "#") eqn:Ha; [|done]. apply Ascii.eqb_eq in Ha as ->.
    destruct (is_ident_start d) eqn:Hid; [|done]. cbn [andb] in H4.
    set (k := span_len is_ident_char s) in *.
    destruct (startsWith "#" (drop k s)) eqn:Hh; [|done]. injection H4 as <-.
    replace (k + 3) with (S (S (S k))) by lia. rewrite !take_cons, classify_obj.
    unfold token_ok. cbn [type value line]. rewrite andb_true_iff. split; [|done].
    unfold slice_1_m1. cbn [String.length drop].
    assert (S k <= String.length s) as Hk.
    { pose proof (length_drop k s) as Hl. destruct (drop k s); [done|]. cbn in Hl. lia. }
    rewrite length_take by done. replace (S (S (S k)) - 2) with (S k) by lia.
    rewrite take_cons, take_take by lia. cbn [is_identifier]. rewrite Hid.
    apply all_chars_take_span. }
  (* the two-character operators *)
  destruct (re_operator2 s) as [n|] eqn:H5.
  { injection Hm as <-. unfold re_operator2 in H5.
    destruct (existsb _ _) eqn:He; [|done]. injection H5 as <-.
    apply existsb_exists in He as (op & Hin & Hop).
    assert (take 2 s = op) as ->.
    { cbn in Hin. destruct Hin as [<-|[<-|[<-|[<-|[<-|[<-|[<-|[<-|[]]]]]]]]];
        by rewrite <- (take_startsWith _ _ Hop). }
    cbn in Hin. by destruct Hin as [<-|[<-|[<-|[<-|[<-|[<-|[<-|[<-|[]]]]]]]]]. }
  (* the identifier *)
  destruct (re_identifier s) as [n|] eqn:H6.
  { injection Hm as <-. unfold re_identifier in H6.
    destruct s as [|a s]; [done|].
    destruct (is_ident_start a) eqn:Hid; [|done]. injection H6 as <-.
    rewrite take_cons, classify_identifier by done.
    destruct (String.eqb _ "True") eqn:Ht; [done|].
    destruct (String.eqb _ "False") eqn:Hf; [done|]. cbn [orb].
    unfold token_ok. cbn [type value line is_identifier]. rewrite Ht, Hf, Hid.
    by rewrite all_chars_take_span. }
  (* the digits *)
  destruct (re_digits s) as [n|] eqn:H7.
  { injection Hm as <-. unfold re_digits in H7.
    destruct (0 <? span_len is_digit s)%nat eqn:Hpos; [|done]. injection H7 as <-.
    destruct s as [|a s]; [done|]. cbn [span_len] in *.
    destruct (is_digit a) eqn:Hd; [|done]. rewrite take_cons.
    rewrite classify_digits by (done || apply all_chars_take_span).
    unfold token_ok, is_digits. cbn [type value line all_chars]. rewrite Hd.
    by rewrite all_chars_take_span. }
  (* a symbol *)
  unfold re_symbol in Hm. destruct s as [|a s]; [done|].
  destruct (existsb _ _) eqn:He; [|done]. injection Hm as <-. cbn [take].
  apply existsb_exists in He as (c & Hin & Hop). apply Ascii.eqb_eq in Hop as <-.
  cbn in Hin. repeat (destruct Hin as [<-|Hin]; [done|]). done.
Qed.

Lemma tokenizeLine_from_ok lineNum skip s :
  Forall (fun tok => token_ok tok = true) (tokenizeLine_from lineNum skip s).
Proof.
  revert skip. induction s as [|c rest IH]; intros skip; cbn [tokenizeLine_from]; [done|].
  destruct skip as [|k]; [|apply IH].
  destruct (regex_match_at _) as [len|] eqn:Hm; [|apply IH].
  destruct (startsWith "--" _) eqn:Hc; [done|].
  constructor; [by apply regex_match_token_ok | apply IH].
Qed.

Lemma dedent_to_ok indent lineNum toks stack :
  Forall (fun tok => token_ok tok = true) toks ->
  Forall (fun tok => token_ok tok = true) (dedent_to indent lineNum toks stack).1.
Proof.
  revert toks. induction stack as [|top below IH]; intros toks Hok; cbn [dedent_to]; [done|].
  destruct (indent <? top)%nat; [|done].
  apply IH, Forall_app. split; [done|]. by repeat constructor.
Qed.

Lemma tokenize_lines_ok lines lx i :
  Forall (fun tok => token_ok tok = true) (tokens lx) ->
  Forall (fun tok => token_ok tok = true) (tokens (tokenize_lines lx i lines)).
Proof.
  revert lx i. induction lines as [|raw rest IH]; intros lx i Hok; cbn [tokenize_lines]; [done|].
  apply IH. unfold tokenize_step. destruct (_ || _); [done|]. cbn [tokens].
  rewrite !Forall_app. split_and!.
  - unfold handle_indent. destruct (indentStack lx) as [|top below] eqn:Hs; [done|].
    destruct (top <? _)%nat eqn:Hlt.
    + cbn [tokens]. apply Forall_app. split; [done|]. repeat constructor.
      unfold token_ok. cbn [type value line]. apply Nat.ltb_lt in Hlt.
      rewrite andb_true_iff. split; [apply Nat.ltb_lt; lia | done].
    + pose proof (dedent_to_ok (indent_width raw) (i + 1) (tokens lx) (top :: below) Hok).
      by destruct (dedent_to _ _ _ _).
  - apply tokenizeLine_from_ok.
  - by repeat constructor.
Qed.

Lemma close_indents_ok toks stack :
  Forall (fun tok => token_ok tok = true) toks ->
  Forall (fun tok => token_ok tok = true) (close_indents toks stack).1.
Proof.
  revert toks. induction stack as [|top below IH]; intros toks Hok; [done|].
  destruct below as [|next l]; [done|].
  rewrite LexerFacts.close_indents_cons. apply IH, Forall_app. split; [done|].
  by repeat constructor.
Qed.

Lemma run_tokens_ok input : Forall (fun tok => token_ok tok = true) (tokens (run input)).
Proof.
  unfold run.
  pose proof (tokenize_lines_ok (split_lines input) init 0 (Forall_nil_2 _)) as Hl.
  pose proof (close_indents_ok _ (indentStack (tokenize_lines init 0 (split_lines input))) Hl) as Hc.
  by destruct (close_indents _ _) as [toks st].
Qed.

(** X9. Every token the lexer returns has the fields of its type: an
    INDENT a positive width, an identifier or object identifier a name of
    letters, digits and underscores that does not start with a digit (and
    an IDENTIFIER is neither [True] nor [False]), a NUMBER a non-empty run
    of digits, a STR_LITERAL a text without double quote, a SYMBOL one of
    the operator and punctuation texts that do not start with an
    exclamation mark; every token but a DEDENT has a line number. *)
Theorem tokens_are_well_typed (input : string) :
  exists toks, tokenize input = Normal toks /\ forallb token_ok toks = true.
Proof.
  exists (tokens (run input)). split; [done|].
  apply forallb_forall. intros tok Hin. apply list_elem_of_In in Hin.
  by apply (proj1 (Forall_forall _ _) (run_tokens_ok input)).
Qed.

(** X10. The lexer never returns the inequality operator as a SYMBOL
    token: a text that starts with an exclamation mark is classified as a
    number literal before anything else, so [!=] and a lone [!] come out
    as NUMBER_LITERAL tokens that hold [parseFloat] of the empty string.
    On the line [a != b] the parser is thus given no operator. *)
Theorem inequality_operator_is_never_a_symbol :
  (forall input tok,
     tok ∈ tokens (run input) -> type tok = SYMBOL ->
     value tok <> Text "!=" /\ value tok <> Text "!")
  /\ tokenize "a != b"
     = Normal [Token IDENTIFIER (Text "a") (Some 1);
               Token NUMBER_LITERAL (ParseFloat "") (Some 1);
               Token IDENTIFIER (Text "b") (Some 1);
               Token NEWLINE NoValue (Some 1)].
Proof.
  split; [|reflexivity]. intros input tok Hin Hty.
  apply (proj1 (Forall_forall _ _) (run_tokens_ok input)) in Hin.
  unfold token_ok in Hin. rewrite Hty in Hin.
  destruct (value tok) as [| | |s|]; try done.
  apply andb_true_iff in Hin as [Hs _].
  split; intros [= ->]; by vm_compute in Hs.
Qed.

(** *** String literals *)

Lemma tokenizeLine_from_skip lineNum skip s :
  String.length s <= skip -> tokenizeLine_from lineNum skip s = [].
Proof.
  revert skip. induction s as [|c r IH]; intros skip Hle; cbn [tokenizeLine_from]; [done|].
  cbn in Hle. destruct skip as [|k]; [lia|]. apply IH. lia.
Qed.

Lemma span_len_app_stop p s c r :
  all_chars p s = true -> p c = false -> span_len p (s ++ String c r)%string = String.length s.
Proof.
  intros Hs Hc. induction s as [|a s IH]; simpl in *; [by rewrite Hc|].
  apply andb_true_iff in Hs as [-> Hs]. f_equal. auto.
Qed.

Lemma drop_app_length s t : drop (String.length s) (s ++ t)%string = t.
Proof. induction s as [|a s IH]; simpl; [by destruct t|done]. Qed.

Lemma take_app_length s t : take (String.length s) (s ++ t)%string = s.
Proof. induction s as [|a s IH]; simpl; [by destruct t|by f_equal]. Qed.

Lemma take_all s : take (String.length s) s = s.
Proof. induction s as [|a s IH]; cbn; [done|by f_equal]. Qed.

Lemma length_app s t : String.length (s ++ t)%string = String.length s + String.length t.
Proof. induction s as [|a s IH]; simpl; [done|by f_equal]. Qed.

(** X11. A string literal keeps its text as it stands: a double quote, any
    text [s] without a double quote (comment marks, hash signs and
    exclamation marks included) and a double quote are lexed to the one
    token STR_LITERAL with value [s]. *)
Theorem string_literal_keeps_its_text (s : string) (lineNum : nat) :
  all_chars (fun c => negb (is_dquote c)) s = true ->
  tokenizeLine (String dquote (s ++ String dquote "")%string) lineNum
  = [Token STR_LITERAL (Text s) (Some lineNum)].
Proof.
  intros Hs. unfold tokenizeLine. cbn [tokenizeLine_from].
  assert (regex_match_at (String dquote (s ++ String dquote "")%string)
          = Some (String.length s + 2)) as ->.
  { unfold regex_match_at, first_match. cbn [fold_right].
    change (re_comment (String dquote ?x)) with (@None nat).
    change (re_number_literal (String dquote ?x)) with (@None nat).
    unfold re_string. change (is_dquote dquote) with true. cbv iota.
    rewrite span_len_app_stop by done. by rewrite drop_app_length. }
  replace (String.length s + 2) with (S (String.length (s ++ String dquote "")%string)); cycle 1.
  { rewrite length_app. cbn. lia. }
  rewrite take_cons, take_all. change (startsWith "--" (String dquote ?x)) with false.
  cbv iota. rewrite classify_string, tokenizeLine_from_skip by lia.
  unfold slice_1_m1. cbn [String.length drop]. rewrite length_app. cbn [String.length].
  replace (S (String.length s + 1) - 2) with (String.length s) by lia.
  by rewrite take_app_length.
Qed.

Lemma string_literal_keeps_its_text_witness :
  tokenizeLine (String dquote ("a -- #b! " ++ String dquote "")%string) 3
  = [Token STR_LITERAL (Text "a -- #b! ") (Some 3)].
Proof. apply (string_literal_keeps_its_text "a -- #b! " 3). reflexivity. Defined.

(** *** A fall to a column that is not on the stack *)

Lemma dedent_to_pops indent lineNum toks stack :
  stack_ok stack = true ->
  let r := dedent_to indent lineNum toks stack in
  exists popped,
    stack = popped ++ r.2
    /\ r.1 = toks ++ replicate (length popped) (Token DEDENT NoValue (Some lineNum))
    /\ default 0 (head r.2) <= indent
    /\ (indent < default 0 (head stack) -> popped <> [])
    /\ stack_ok r.2 = true.
Proof.
  revert toks. induction stack as [|top below IH]; intros toks Hok; [done|].
  cbn [dedent_to]. destruct (indent <? top)%nat eqn:Hlt.
  - apply Nat.ltb_lt in Hlt. destruct below as [|next l].
    { cbn in Hok. apply Nat.eqb_eq in Hok. lia. }
    destruct (IH (toks ++ [Token DEDENT NoValue (Some lineNum)]))
      as (popped & H1 & H2 & H3 & _ & H5).
    { by eapply stack_ok_tail. }
    exists (top :: popped). cbn zeta in *. split_and!; [by rewrite H1 at 1| |done..].
    rewrite H2, <- app_assoc. done.
  - apply Nat.ltb_ge in Hlt. exists []. cbn.
    split_and!; [done|by rewrite app_nil_r|done|lia|done].
Qed.

(** X12. A fall to a column that no open block has is not reported: when
    a line's indentation [w] is below the top of the stack and is not one
    of its levels, the lexer pushes DEDENT tokens only, at least one, down
    to a level below [w], and does not record [w]; a following line at the
    same column [w] is then given an INDENT, so that two lines at the same
    column end up in different blocks. *)
Theorem fall_to_unseen_column_opens_a_block_on_the_next_line
    (lx : t) (w lineNum nextLine : nat) :
  stack_ok (indentStack lx) = true ->
  w ∉ indentStack lx ->
  w < default 0 (head (indentStack lx)) ->
  let lx1 := handle_indent lx w lineNum in
  (exists k, 0 < k
     /\ tokens lx1 = tokens lx ++ replicate k (Token DEDENT NoValue (Some lineNum)))
  /\ handle_indent lx1 w nextLine
     = Build (tokens lx1 ++ [Token INDENT (Width w) (Some nextLine)])
             (w :: indentStack lx1).
Proof.
  intros Hok Hnot Hlt. unfold handle_indent at 1 2.
  destruct (indentStack lx) as [|top below] eqn:Hs; [done|]. cbn in Hlt.
  destruct (top <? w)%nat eqn:Htop; [apply Nat.ltb_lt in Htop; lia|].
  destruct (dedent_to_pops w lineNum (tokens lx) (top :: below) Hok)
    as (popped & H1 & H2 & H3 & H4 & H5).
  destruct (dedent_to _ _ _ _) as [toks st]. cbn [fst snd] in *. cbn zeta. split.
  - exists (length popped). split; [|done].
    destruct popped; [by destruct H4|cbn; lia].
  - unfold handle_indent. cbn [indentStack tokens].
    destruct st as [|top' st']; [done|].
    cbn in H3. assert (top' <> w) as Hne.
    { intros ->. apply Hnot. rewrite H1. apply elem_of_app. right. by left. }
    assert ((top' <? w)%nat = true) as -> by (apply Nat.ltb_lt; lia). done.
Qed.

Lemma fall_to_unseen_column_opens_a_block_on_the_next_line_witness :
  let lx := Build [] [4; 0] in
  let lx1 := handle_indent lx 2 3 in
  (exists k, 0 < k /\ tokens lx1 = tokens lx ++ replicate k (Token DEDENT NoValue (Some 3)))
  /\ handle_indent lx1 2 4
     = Build (tokens lx1 ++ [Token INDENT (Width 2) (Some 4)]) (2 :: indentStack lx1).
Proof.
  apply (fall_to_unseen_column_opens_a_block_on_the_next_line (Build [] [4; 0]) 2 3 4).
  - reflexivity.
  - cbn. intros Hin. by repeat (apply elem_of_cons in Hin as [?|Hin]; [done|]);
      apply elem_of_nil in Hin.
  - cbn. lia.
Defined.

End LexerStructure.

(** * Properties of the parser *)

Module ParserFacts.
Import Lexer Parser ParserSpec.
Local Open Scope list_scope.

Section Rules.
Variable tokens : list token.
Context {A B : Type}.
Implicit Types (total : bool) (pos : nat).

Lemma wp_ret total (a : A) Q pos : Q a pos -> wp total (ret a) Q pos.
Proof. done. Qed.

Lemma wp_bind total (m : P A) (k : A -> P B) Q pos :
  wp total m (fun a pos' => wp total (k a) Q pos') pos -> wp total (bind m k) Q pos.
Proof. unfold wp, bind. by destruct (m pos). Qed.

Lemma wp_mono total (m : P A) (Q Q' : A -> nat -> Prop) pos :
  wp total m Q pos -> (forall a pos', Q a pos' -> Q' a pos') -> wp total m Q' pos.
Proof. unfold wp. destruct (m pos); auto. Qed.

Lemma wp_throw total e (Q : A -> nat -> Prop) pos : wp total (throw e) Q pos.
Proof. done. Qed.

Lemma wp_unexpected total (Q : A -> nat -> Prop) pos : wp total (unexpected tokens) Q pos.
Proof. done. Qed.

Lemma wp_no_fuel (Q : A -> nat -> Prop) pos : wp false no_fuel Q pos.
Proof. done. Qed.

End Rules.

Section Primitives.
Variable tokens : list token.
Implicit Types (total : bool) (pos : nat).

Lemma check_at_lt type_ value_ pos :
  check_at tokens type_ value_ pos = true -> pos < length tokens.
Proof.
  unfold check_at. destruct (tokens !! pos) eqn:Hl; [|done].
  intros _. by eapply lookup_lt_Some.
Qed.

Lemma wp_check total type_ value_ Q pos :
  Q (check_at tokens type_ value_ pos) pos -> wp total (check tokens type_ value_) Q pos.
Proof. done. Qed.

Lemma wp_peek total n Q pos : Q (tokens !! (pos + n)) pos -> wp total (peek tokens n) Q pos.
Proof. done. Qed.

Lemma wp_more total Q pos :
  Q (pos <? length tokens)%nat pos -> wp total (more tokens) Q pos.
Proof. done. Qed.

Lemma wp_match total type_ value_ Q pos :
  (check_at tokens type_ value_ pos = true -> pos < length tokens -> Q true (S pos)) ->
  (check_at tokens type_ value_ pos = false -> Q false pos) ->
  wp total (match_ tokens type_ value_) Q pos.
Proof.
  intros Ht Hf. unfold wp, match_.
  destruct (check_at _ _ _ _) eqn:Hc; [|auto]. apply Ht; [done|]. by eapply check_at_lt.
Qed.

Lemma wp_consume total type_ value_ Q pos :
  (forall tok, tokens !! pos = Some tok -> check_at tokens type_ value_ pos = true ->
               pos < length tokens -> Q tok (S pos)) ->
  wp total (consume tokens type_ value_) Q pos.
Proof.
  intros HQ. unfold wp, consume.
  destruct (tokens !! pos) as [tok|] eqn:Hl; [|done].
  destruct (check_at _ _ _ _) eqn:Hc; [|done]. apply HQ; [done..|]. by eapply check_at_lt.
Qed.

Lemma wp_consumeAny total Q pos :
  (forall tok, tokens !! pos = Some tok -> pos < length tokens -> Q (Some tok) (S pos)) ->
  (tokens !! pos = None -> Q None (S pos)) ->
  wp total (consumeAny tokens) Q pos.
Proof.
  intros Hs Hn. unfold wp, consumeAny.
  destruct (tokens !! pos) as [tok|] eqn:Hl; [|auto]. apply Hs; [done|]. by eapply lookup_lt_Some.
Qed.

End Primitives.

(** One step of the run of a method, on a goal [wp total m Q pos]. *)
Ltac wp_leaf :=
  lazymatch goal with
  | |- wp _ (bind _ _) _ _ => apply wp_bind
  | |- wp _ (ret _) _ _ => apply wp_ret
  | |- wp _ (throw _) _ _ => apply wp_throw
  | |- wp _ (unexpected _) _ _ => apply wp_unexpected
  | |- wp false no_fuel _ _ => apply wp_no_fuel
  | |- wp _ (check _ _ _) _ _ => apply wp_check
  | |- wp _ (peek _ _) _ _ => apply wp_peek
  | |- wp _ (more _) _ _ => apply wp_more
  | |- wp _ (match_ _ _ _) _ _ => apply wp_match; intros
  | |- wp _ (consume _ _ _) _ _ => apply wp_consume; intros
  | |- wp _ (consumeAny _) _ _ => apply wp_consumeAny; intros
  | |- wp _ (if ?b then _ else _) _ _ => destruct b eqn:?
  | |- wp _ (match ?x with _ => _ end) _ _ => destruct x eqn:?
  end.

Ltac unfold_posts :=
  unfold advancing, staying, weight in *.

(** A call of a method that the induction hypothesis covers. *)
Ltac wp_call :=
  match goal with
  | H : _ |- wp _ _ _ _ =>
      eapply wp_mono; [eapply H; unfold weight in *; lia | cbv beta; intros ? ? ?]
  end.

Ltac wp_step := first [wp_leaf | wp_call].

Ltac wp_run := repeat wp_step; try assumption; try (unfold weight in *; lia).

Section Termination.
Variable tokens : list token.

Lemma expressions_end fuel : all_end tokens fuel.
Proof.
  induction fuel as [|fuel (IHe & IHo & IHol & IHa & IHal & IHc & IHcl & IHd & IHdl
                            & IHm & IHml & IHp & IHs & IHx)].
  - unfold all_end, advancing, staying, weight. repeat split; intros; lia.
  - unfold all_end, advancing, staying in *.
    repeat split; intros; cbn [parseExpression parseLogicalOr parseLogicalOr_loop
      parseLogicalAnd parseLogicalAnd_loop parseComparison parseComparison_loop
      parseAdditive parseAdditive_loop parseMultiplicative parseMultiplicative_loop
      parsePrimary parseSuffix parseExpressions].
    all: wp_run.
Qed.

Lemma parseParams_ends fuel params : advancing tokens fuel 1 (parseParams tokens fuel params).
Proof.
  revert params. induction fuel as [|fuel IH]; intros params; unfold advancing in *.
  - unfold weight. intros; lia.
  - intros; cbn [parseParams]. wp_run.
Qed.

Lemma parseImport_loop_ends fuel moduleName :
  staying tokens fuel 1 (parseImport_loop tokens fuel moduleName).
Proof.
  revert moduleName. induction fuel as [|fuel IH]; intros moduleName; unfold staying in *.
  - unfold weight. intros; lia.
  - intros; cbn [parseImport_loop]. wp_run.
Qed.

Lemma parseImport_ends fuel : advancing tokens fuel 1 (parseImport tokens fuel).
Proof.
  destruct fuel as [|fuel]; unfold advancing; [unfold weight; intros; lia|].
  intros. pose proof (parseImport_loop_ends fuel) as IH. unfold staying in IH.
  cbn [parseImport]. wp_run.
Qed.

Lemma parseAssignment_ends fuel : advancing tokens fuel 1 (parseAssignment tokens fuel).
Proof.
  destruct fuel as [|fuel]; unfold advancing; [unfold weight; intros; lia|].
  intros. destruct (expressions_end fuel) as (IH & _). unfold advancing in IH.
  cbn [parseAssignment]. wp_run.
Qed.

Lemma parseReturn_ends fuel : advancing tokens fuel 1 (parseReturn tokens fuel).
Proof.
  destruct fuel as [|fuel]; unfold advancing; [unfold weight; intros; lia|].
  intros. destruct (expressions_end fuel) as (IH & _). unfold advancing in IH.
  cbn [parseReturn]. wp_run.
Qed.

Lemma statements_end fuel : all_statements_end tokens fuel.
Proof.
  induction fuel as [|fuel (IHb & IHbl & IHs & IHf & IHo & IHfn & IHi & IHel & IHw)].
  - unfold all_statements_end, advancing, staying, weight. repeat split; intros; lia.
  - destruct (expressions_end fuel) as (IHe & _).
    pose proof (parseParams_ends fuel) as IHp.
    pose proof (parseImport_ends fuel) as IHim.
    pose proof (parseAssignment_ends fuel) as IHas.
    pose proof (parseReturn_ends fuel) as IHr.
    unfold all_statements_end, advancing, staying in *.
    repeat split; intros; cbn [parseBlock parseBlock_loop parseStatement parseFor
      parseObjectDefinition parseFunction parseIf parseElifs parseWhile].
    all: wp_run.
Qed.

(** The parser ends on every list of tokens. *)
Lemma parse_ends fuel : staying tokens fuel 11 (parse tokens fuel).
Proof.
  destruct fuel as [|fuel]; unfold staying; [unfold weight; intros; lia|].
  intros. destruct (statements_end fuel) as (IH & _). unfold staying in IH.
  cbn [parse]. wp_run.
Qed.

End Termination.

Section Refinement.
Variable tokens : list token.

Lemma refines_refl {A} (m : P A) : refines m m.
Proof. intros pos. by right. Qed.

Lemma refines_no_fuel {A} (m : P A) : refines no_fuel m.
Proof. intros pos. by left. Qed.

Lemma refines_bind {A B} (m m' : P A) (k k' : A -> P B) :
  refines m m' -> (forall a, refines (k a) (k' a)) -> refines (bind m k) (bind m' k').
Proof.
  intros Hm Hk pos. unfold bind. destruct (Hm pos) as [-> | ->]; [by left|].
  destruct (m pos) as [a pos'| |]; [|by right..]. apply Hk.
Qed.

Ltac refines_step :=
  lazymatch goal with
  | |- refines (bind _ _) (bind _ _) => apply refines_bind; [|intros ?]
  | |- refines (if ?b then _ else _) (if ?b then _ else _) => destruct b
  | |- refines (match ?x with _ => _ end) (match ?x with _ => _ end) => destruct x
  | |- refines ?m ?m => apply refines_refl
  | |- refines _ _ => match goal with H : _ |- _ => apply H end
  end.

Lemma expressions_refine fuel : all_refine tokens fuel.
Proof.
  induction fuel as [|fuel IH]; intros fuel' Hle.
  - repeat split; intros; apply refines_no_fuel.
  - destruct fuel' as [|fuel']; [lia|].
    destruct (IH fuel' ltac:(lia)) as (IHe & IHo & IHol & IHa & IHal & IHc & IHcl & IHd & IHdl
                                       & IHm & IHml & IHp & IHs & IHx).
    clear IH.
    repeat split; intros; cbn [parseExpression parseLogicalOr parseLogicalOr_loop
      parseLogicalAnd parseLogicalAnd_loop parseComparison parseComparison_loop
      parseAdditive parseAdditive_loop parseMultiplicative parseMultiplicative_loop
      parsePrimary parseSuffix parseExpressions].
    all: repeat refines_step.
Qed.

Lemma parseParams_refines fuel fuel' params :
  fuel <= fuel' -> refines (parseParams tokens fuel params) (parseParams tokens fuel' params).
Proof.
  revert fuel' params. induction fuel as [|fuel IH]; intros fuel' params Hle.
  - apply refines_no_fuel.
  - destruct fuel' as [|fuel']; [lia|]. specialize (IH fuel').
    cbn [parseParams]. repeat refines_step. lia.
Qed.

Lemma parseImport_loop_refines fuel fuel' moduleName :
  fuel <= fuel' ->
  refines (parseImport_loop tokens fuel moduleName) (parseImport_loop tokens fuel' moduleName).
Proof.
  revert fuel' moduleName. induction fuel as [|fuel IH]; intros fuel' moduleName Hle.
  - apply refines_no_fuel.
  - destruct fuel' as [|fuel']; [lia|]. specialize (IH fuel').
    cbn [parseImport_loop]. repeat refines_step. lia.
Qed.

Lemma parseImport_refines fuel fuel' :
  fuel <= fuel' -> refines (parseImport tokens fuel) (parseImport tokens fuel').
Proof.
  intros Hle. destruct fuel as [|fuel]; [apply refines_no_fuel|].
  destruct fuel' as [|fuel']; [lia|].
  pose proof (fun m => parseImport_loop_refines fuel fuel' m ltac:(lia)) as IH.
  cbn [parseImport]. repeat refines_step.
Qed.

Lemma parseAssignment_refines fuel fuel' :
  fuel <= fuel' -> refines (parseAssignment tokens fuel) (parseAssignment tokens fuel').
Proof.
  intros Hle. destruct fuel as [|fuel]; [apply refines_no_fuel|].
  destruct fuel' as [|fuel']; [lia|].
  destruct (expressions_refine fuel fuel' ltac:(lia)) as (IH & _).
  cbn [parseAssignment]. repeat refines_step.
Qed.

Lemma parseReturn_refines fuel fuel' :
  fuel <= fuel' -> refines (parseReturn tokens fuel) (parseReturn tokens fuel').
Proof.
  intros Hle. destruct fuel as [|fuel]; [apply refines_no_fuel|].
  destruct fuel' as [|fuel']; [lia|].
  destruct (expressions_refine fuel fuel' ltac:(lia)) as (IH & _).
  cbn [parseReturn]. repeat refines_step.
Qed.

Lemma statements_refine fuel : all_statements_refine tokens fuel.
Proof.
  induction fuel as [|fuel IH]; intros fuel' Hle.
  - repeat split; intros; apply refines_no_fuel.
  - destruct fuel' as [|fuel']; [lia|].
    destruct (IH fuel' ltac:(lia)) as (IHb & IHbl & IHs & IHf & IHo & IHfn & IHi & IHel & IHw).
    clear IH.
    destruct (expressions_refine fuel fuel' ltac:(lia)) as (IHe & _).
    pose proof (fun p => parseParams_refines fuel fuel' p ltac:(lia)) as IHp.
    pose proof (parseImport_refines fuel fuel' ltac:(lia)) as IHim.
    pose proof (parseAssignment_refines fuel fuel' ltac:(lia)) as IHas.
    pose proof (parseReturn_refines fuel fuel' ltac:(lia)) as IHr.
    repeat split; intros; cbn [parseBlock parseBlock_loop parseStatement parseFor
      parseObjectDefinition parseFunction parseIf parseElifs parseWhile].
    all: repeat refines_step.
Qed.

Lemma parse_refines fuel fuel' :
  fuel <= fuel' -> refines (parse tokens fuel) (parse tokens fuel').
Proof.
  intros Hle. destruct fuel as [|fuel]; [apply refines_no_fuel|].
  destruct fuel' as [|fuel']; [lia|].
  destruct (statements_refine fuel fuel' ltac:(lia)) as (IH & _).
  cbn [parse]. repeat refines_step.
Qed.

End Refinement.

(** X13. The parser ends on every list of tokens: with the fuel
    [enough tokens] it returns a program or throws, and it does the same
    with any larger amount of fuel. What it returns it returns with the
    cursor within the tokens. *)
Theorem parser_always_ends (tokens : list token) :
  (forall fuel, enough tokens <= fuel -> parse tokens fuel 0 = run tokens)
  /\ match run tokens with
     | Parsed _ pos => pos <= length tokens
     | Failed _ => True
     | NoFuel => False
     end.
Proof.
  pose proof (parse_ends tokens (enough tokens) 0) as Hend.
  unfold wp, weight, enough in Hend. specialize (Hend ltac:(lia)).
  fold (enough tokens) in Hend. fold (run tokens) in Hend. split.
  - intros fuel Hle. destruct (parse_refines tokens _ _ Hle 0) as [Hn|Heq]; [|done].
    fold (run tokens) in Hn. by rewrite Hn in Hend.
  - destruct (run tokens); [lia|done|done].
Qed.

Section TopLevel.
Variable tokens : list token.

Lemma wp_any {A} (m : P A) pos : wp false m (fun _ _ => True) pos.
Proof. unfold wp. by destruct (m pos). Qed.

Lemma parseBlock_loop_stops fuel statements pos :
  wp false (parseBlock_loop tokens fuel statements)
     (fun _ pos' => (pos' <? length tokens)%nat && negb (check_at tokens DEDENT None pos') = false)
     pos.
Proof.
  revert statements pos. induction fuel as [|fuel IH]; intros statements pos; [done|].
  pose proof (@wp_any _ (parseStatement tokens fuel)) as Hany.
  cbn [parseBlock_loop]. wp_run.
Qed.

End TopLevel.

(** X14. [parse()] does not ask that every token be used: when it returns
    a program, the cursor is at the end of the tokens or on a DEDENT token
    at the top level, which it neither consumes nor reports; the tokens
    from there on are left unread. *)
Theorem parse_stops_at_the_end_or_at_a_dedent :
  (forall tokens prog pos,
     run tokens = Parsed prog pos ->
     pos = length tokens
     \/ exists tok, tokens !! pos = Some tok /\ type tok = DEDENT)
  /\ run [Token DEDENT NoValue None; Token IDENTIFIER (Text "x") (Some 1);
          Token NEWLINE NoValue (Some 1)]
     = Parsed (Program []) 0.
Proof.
  split; [|reflexivity]. intros tokens prog pos Hrun.
  pose proof (parse_ends tokens (enough tokens) 0) as Hend.
  unfold wp, weight, enough in Hend. specialize (Hend ltac:(lia)).
  fold (enough tokens) in Hend. fold (run tokens) in Hend. rewrite Hrun in Hend.
  assert (wp false (parse tokens (enough tokens))
            (fun _ pos' => (pos' <? length tokens)%nat
                           && negb (check_at tokens DEDENT None pos') = false) 0) as Hstop.
  { unfold enough. replace (12 * length tokens + 12) with (S (S (12 * length tokens + 10))) by lia.
    cbn [parse parseBlock]. pose proof (parseBlock_loop_stops tokens) as IH. wp_run. }
  unfold wp in Hstop. fold (run tokens) in Hstop. rewrite Hrun in Hstop.
  apply andb_false_iff in Hstop as [Hlt|Hd].
  - left. apply Nat.ltb_ge in Hlt. lia.
  - right. apply negb_false_iff in Hd. unfold check_at in Hd.
    destruct (tokens !! pos) as [tok|]; [|done]. exists tok. split; [done|].
    apply andb_true_iff in Hd as [Hty _]. by apply bool_decide_eq_true in Hty.
Qed.

Ltac in_list := by repeat constructor.

Ltac not_in H :=
  repeat (apply elem_of_cons in H as [H|H]; [discriminate H|]); by apply elem_of_nil in H.

Section Operators.
Variable tokens : list token.

Lemma check_at_Some type_ value_ pos tok :
  tokens !! pos = Some tok -> check_at tokens type_ value_ pos = true ->
  type tok = type_
  /\ match value_ with
     | Some s => s = "" \/ value tok = Text s
     | None => True
     end.
Proof.
  unfold check_at. intros ->. intros [Hty Hv]%andb_true_iff. split.
  - by apply bool_decide_eq_true in Hty.
  - destruct value_ as [s|]; [|done]. apply orb_true_iff in Hv as [Hs|Hs].
    + left. by apply String.eqb_eq.
    + right. unfold value_is in Hs. destruct (value tok); try done.
      by apply String.eqb_eq in Hs as ->.
Qed.

Lemma operator_from_word pos tok s :
  tokens !! pos = Some tok -> check_at tokens IDENTIFIER (Some s) pos = true ->
  s = "and" \/ s = "or" -> operator_from tokens (value tok).
Proof.
  intros Hl Hc Hs. destruct (check_at_Some _ _ _ _ Hl Hc) as [Hty [->|Hv]].
  { by destruct Hs. }
  exists tok, s. split_and!; [by eapply list_elem_of_lookup_2|done|done| |right; by split].
  destruct Hs as [-> | ->]; in_list.
Qed.

Lemma operator_from_symbol pos tok s :
  tokens !! pos = Some tok -> check_at tokens SYMBOL (Some s) pos = true ->
  s ∈ known_operators -> operator_from tokens (value tok).
Proof.
  intros Hl Hc Hs. destruct (check_at_Some _ _ _ _ Hl Hc) as [Hty [->|Hv]].
  { not_in Hs. }
  exists tok, s. split_and!; [by eapply list_elem_of_lookup_2|done|done|done|by left].
Qed.

Lemma operator_from_comparison pos tok :
  tokens !! pos = Some tok ->
  check_at tokens SYMBOL None pos
  && includes comparison_ops (value <$> tokens !! (pos + 0)) = true ->
  operator_from tokens (value tok).
Proof.
  intros Hl [Hc Hi]%andb_true_iff. rewrite Nat.add_0_r, Hl in Hi. cbn in Hi.
  destruct (check_at_Some _ _ _ _ Hl Hc) as [Hty _].
  unfold value_is in Hi. destruct (value tok) as [| | |s|] eqn:Hv; try done.
  exists tok, s. split_and!; [by eapply list_elem_of_lookup_2|done|done| |by left].
  repeat (apply orb_true_iff in Hi as [Hi|Hi];
          [apply String.eqb_eq in Hi as ->; in_list|]).
  done.
Qed.

Lemma operator_from_either pos tok s1 s2 :
  tokens !! pos = Some tok ->
  check_at tokens SYMBOL (Some s1) pos || check_at tokens SYMBOL (Some s2) pos = true ->
  s1 ∈ known_operators -> s2 ∈ known_operators -> operator_from tokens (value tok).
Proof. intros Hl [Hc|Hc]%orb_true_iff ? ?; by eapply operator_from_symbol. Qed.

Lemma expr_ok_binary l op r :
  operator_from tokens op -> expr_ok tokens l -> expr_ok tokens r ->
  expr_ok tokens (BinaryExpression l op r).
Proof. unfold expr_ok. cbn [operators]. rewrite Forall_cons, Forall_app. tauto. Qed.

Lemma Forall_flat_map {X Y} (P : Y -> Prop) (f : X -> list Y) (l : list X) :
  Forall (fun x => Forall P (f x)) l <-> Forall P (flat_map f l).
Proof.
  induction l as [|x l IH]; cbn; [split; constructor|].
  rewrite Forall_cons, Forall_app. tauto.
Qed.

Lemma expr_ok_array es : Forall (expr_ok tokens) es -> expr_ok tokens (ArrayLiteral es).
Proof. unfold expr_ok. cbn [operators]. by rewrite <- Forall_flat_map. Qed.

Lemma expr_ok_call c args :
  expr_ok tokens c -> Forall (expr_ok tokens) args -> expr_ok tokens (CallExpression c args).
Proof. unfold expr_ok. cbn [operators]. rewrite Forall_app, <- Forall_flat_map. tauto. Qed.

Lemma expr_ok_literal v : expr_ok tokens (Literal v).
Proof. constructor. Qed.

Lemma expr_ok_identifier v : expr_ok tokens (Identifier v).
Proof. constructor. Qed.

Lemma expr_ok_member e v : expr_ok tokens e -> expr_ok tokens (MemberExpression e v).
Proof. done. Qed.

Lemma expr_ok_eval e : expr_ok tokens e -> expr_ok tokens (EvalCall e).
Proof. done. Qed.

Lemma Forall_snoc {X} (P : X -> Prop) l x : Forall P l -> P x -> Forall P (l ++ [x]).
Proof. intros. apply Forall_app. split; [done|]. by constructor. Qed.

Lemma stmts_ok_snoc body s :
  stmts_ok tokens body -> stmts_ok tokens [s] -> stmts_ok tokens (body ++ [s]).
Proof.
  unfold stmts_ok. rewrite <- !Forall_flat_map. intros. by apply Forall_app.
Qed.

Lemma stmts_ok_single node line : statement_ok tokens node -> stmts_ok tokens [Stmt node line].
Proof. unfold stmts_ok, statement_ok. cbn. by rewrite app_nil_r. Qed.

Lemma stmts_ok_nil : stmts_ok tokens [].
Proof. constructor. Qed.

Lemma known_word s : s = "and" \/ s = "or" -> s = "and" \/ s = "or".
Proof. done. Qed.

Ltac known := first [by left | by right | in_list].

Ltac ok_solve :=
  first
    [ assumption
    | apply expr_ok_literal | apply expr_ok_identifier | apply stmts_ok_nil
    | by apply Forall_nil_2
    | apply expr_ok_member; ok_solve
    | apply expr_ok_eval; ok_solve
    | apply expr_ok_array; ok_solve
    | apply expr_ok_call; ok_solve
    | apply expr_ok_binary; [ok_solve..]
    | apply Forall_snoc; ok_solve
    | eapply operator_from_comparison; eassumption
    | eapply operator_from_word; [eassumption | eassumption | known]
    | eapply operator_from_either; [eassumption | eassumption | known | known] ].

Ltac ok_call :=
  match goal with
  | H : _ |- wp _ _ _ _ =>
      eapply wp_mono; [eapply H; ok_solve | cbv beta; intros ? ? ?]
  end.

Ltac ok_run := repeat first [wp_leaf | ok_call]; try ok_solve.

Lemma expressions_give_known_operators fuel : all_operators_known tokens fuel.
Proof.
  induction fuel as [|fuel (IHe & IHo & IHol & IHa & IHal & IHc & IHcl & IHd & IHdl
                            & IHm & IHml & IHp & IHs & IHx)].
  - unfold all_operators_known, gives_expr. repeat split; intros; apply wp_no_fuel.
  - unfold all_operators_known, gives_expr in *.
    repeat split; intros; cbn [parseExpression parseLogicalOr parseLogicalOr_loop
      parseLogicalAnd parseLogicalAnd_loop parseComparison parseComparison_loop
      parseAdditive parseAdditive_loop parseMultiplicative parseMultiplicative_loop
      parsePrimary parseSuffix parseExpressions].
    all: ok_run.
Qed.

Lemma statement_ok_expr (f : expr -> statement) e :
  (forall e, statement_operators (f e) = operators e) ->
  expr_ok tokens e -> statement_ok tokens (f e).
Proof. unfold statement_ok, expr_ok. by intros ->. Qed.

Lemma statement_ok_for it s e body :
  expr_ok tokens s -> expr_ok tokens e -> stmts_ok tokens body ->
  statement_ok tokens (ForStatement it s e body).
Proof.
  unfold statement_ok, expr_ok, stmts_ok. cbn [statement_operators].
  rewrite !Forall_app. tauto.
Qed.

Lemma statement_ok_while t body :
  expr_ok tokens t -> stmts_ok tokens body -> statement_ok tokens (WhileStatement t body).
Proof.
  unfold statement_ok, expr_ok, stmts_ok. cbn [statement_operators].
  rewrite !Forall_app. tauto.
Qed.

Lemma statement_ok_if t c elifs alt :
  expr_ok tokens t -> stmts_ok tokens c ->
  Forall (fun elif => expr_ok tokens elif.1 /\ stmts_ok tokens elif.2) elifs ->
  match alt with Some a => stmts_ok tokens a | None => True end ->
  statement_ok tokens (IfStatement t c elifs alt).
Proof.
  unfold statement_ok, expr_ok, stmts_ok. cbn [statement_operators].
  rewrite !Forall_app. intros Ht Hc He Ha. split_and!; [done..| |].
  - apply Forall_flat_map. eapply Forall_impl; [exact He|].
    cbn. intros elif [? ?]. by apply Forall_app.
  - destruct alt; [done|constructor].
Qed.

Lemma statement_ok_function n ps body :
  stmts_ok tokens body -> statement_ok tokens (FunctionDeclaration n ps body).
Proof. done. Qed.

Lemma statement_ok_object n p props op :
  stmts_ok tokens props -> statement_ok tokens (ObjectDefinition n p props op).
Proof. done. Qed.

Ltac stmt_solve :=
  first
    [ assumption
    | by constructor
    | ok_solve
    | apply stmts_ok_nil
    | apply stmts_ok_single; stmt_solve
    | apply stmts_ok_snoc; stmt_solve
    | apply statement_ok_for; stmt_solve
    | apply statement_ok_while; stmt_solve
    | apply statement_ok_if; stmt_solve
    | apply statement_ok_function; stmt_solve
    | apply statement_ok_object; stmt_solve
    | apply (statement_ok_expr (Assignment _ _)); [done | stmt_solve]
    | apply (statement_ok_expr ReturnStatement); [done | stmt_solve]
    | apply (statement_ok_expr ExpressionStatement); [done | stmt_solve]
    | apply Forall_snoc; [stmt_solve | split; stmt_solve] ].

Ltac stmt_call :=
  match goal with
  | H : _ |- wp _ _ _ _ =>
      eapply wp_mono; [eapply H; stmt_solve | cbv beta; intros ? ? ?]
  end.

Ltac stmt_run := repeat first [wp_leaf | stmt_call]; try stmt_solve.

Lemma statements_give_known_operators fuel : all_statement_operators_known tokens fuel.
Proof.
  induction fuel as [|fuel (IHb & IHbl & IHs & IHf & IHo & IHfn & IHi & IHel & IHw)].
  - unfold all_statement_operators_known. repeat split; intros; apply wp_no_fuel.
  - destruct (expressions_give_known_operators fuel) as (IHe & _). unfold gives_expr in IHe.
    pose proof (@wp_any _ (parseParams tokens fuel [])) as IHp.
    assert (forall pos, wp false (parseImport tokens fuel)
                           (fun node _ => statement_ok tokens node) pos) as IHim.
    { intros pos. destruct fuel as [|fuel']; [apply wp_no_fuel|].
      pose proof (fun m => @wp_any _ (parseImport_loop tokens fuel' m)) as Hany.
      cbn [parseImport]. stmt_run. }
    assert (forall pos, wp false (parseAssignment tokens fuel)
                           (fun node _ => statement_ok tokens node) pos) as IHas.
    { intros pos. destruct fuel as [|fuel']; [apply wp_no_fuel|].
      destruct (expressions_give_known_operators fuel') as (IHe' & _).
      unfold gives_expr in IHe'. cbn [parseAssignment]. stmt_run. }
    assert (forall pos, wp false (parseReturn tokens fuel)
                           (fun node _ => statement_ok tokens node) pos) as IHr.
    { intros pos. destruct fuel as [|fuel']; [apply wp_no_fuel|].
      destruct (expressions_give_known_operators fuel') as (IHe' & _).
      unfold gives_expr in IHe'. cbn [parseReturn]. stmt_run. }
    unfold all_statement_operators_known in *.
    repeat split; intros; cbn [parseBlock parseBlock_loop parseStatement parseFor
      parseObjectDefinition parseFunction parseIf parseElifs parseWhile].
    all: stmt_run.
Qed.

Lemma run_operators prog pos :
  run tokens = Parsed prog pos ->
  Forall (operator_from tokens) (flat_map stmt_operators (body prog)).
Proof.
  intros Hrun.
  assert (wp false (parse tokens (enough tokens))
            (fun prog _ => stmts_ok tokens (body prog)) 0) as Hok.
  { unfold enough. replace (12 * length tokens + 12) with (S (12 * length tokens + 11)) by lia.
    destruct (statements_give_known_operators (12 * length tokens + 11)) as (IH & _).
    cbn [parse]. stmt_run. }
  unfold wp in Hok. fold (run tokens) in Hok. by rewrite Hrun in Hok.
Qed.

End Operators.

(** X15. Every operator of a binary expression in a program that
    [parse()] returns is one of the twelve operators that the interpreter
    has a case for, read from an [and] or [or] identifier or from a SYMBOL
    token of the input: no parsed expression reaches the [return null]
    that follows the interpreter's [switch]. *)
Theorem parsed_operators_are_known (tokens : list token) prog pos :
  run tokens = Parsed prog pos ->
  Forall (operator_from tokens) (flat_map stmt_operators (body prog)).
Proof. apply run_operators. Qed.

Lemma parsed_operators_are_known_witness :
  Forall
    (operator_from [Token IDENTIFIER (Text "a") (Some 1); Token SYMBOL (Text "<=") (Some 1);
                    Token IDENTIFIER (Text "b") (Some 1); Token NEWLINE NoValue (Some 1)])
    [Text "<="].
Proof.
  apply (parsed_operators_are_known
           [Token IDENTIFIER (Text "a") (Some 1); Token SYMBOL (Text "<=") (Some 1);
            Token IDENTIFIER (Text "b") (Some 1); Token NEWLINE NoValue (Some 1)]
           (Program [Stmt (ExpressionStatement
                             (BinaryExpression (Identifier (Text "a")) (Text "<=")
                                               (Identifier (Text "b")))) (Some 1)])
           4).
  reflexivity.
Defined.

(** X16. No source text parses to an inequality: since the lexer never
    returns [!=] as a SYMBOL token, no program that the parser returns on
    the tokens of a text holds a binary expression with the operator
    [!=], and the line [a != b] is refused (a NEWLINE is expected where
    the number literal stands). The [!=] case of the interpreter cannot be
    reached from a source text. *)
Theorem no_source_text_parses_to_an_inequality :
  (forall input prog pos,
     run (Lexer.tokens (Lexer.run input)) = Parsed prog pos ->
     Text "!=" ∉ flat_map stmt_operators (body prog))
  /\ run (Lexer.tokens (Lexer.run "a != b"))
     = Failed (Expected NEWLINE None
                 (Some (Token NUMBER_LITERAL (ParseFloat "") (Some 1)))).
Proof.
  split; [|reflexivity]. intros input prog pos Hrun Hin.
  pose proof (run_operators _ _ _ Hrun) as Hops.
  apply (proj1 (Forall_forall _ _) Hops) in Hin as (tok & s & Htok & Hv & [= <-] & _ & Hty).
  apply (proj1 (Forall_forall _ _) (LexerStructure.run_tokens_ok input)) in Htok.
  unfold LexerSpec.token_ok in Htok. rewrite Hv in Htok.
  destruct Hty as [Hty | [_ [? | ?]]]; [|done..]. rewrite Hty in Htok.
  apply andb_true_iff in Htok as [Hs _]. by vm_compute in Hs.
Qed.

Lemma no_source_text_parses_to_an_inequality_witness :
  Text "!=" ∉ [Text "=="].
Proof.
  apply (proj1 no_source_text_parses_to_an_inequality "a == b"
           (Program [Stmt (ExpressionStatement
                             (BinaryExpression (Identifier (Text "a")) (Text "==")
                                               (Identifier (Text "b")))) (Some 1)])
           4).
  reflexivity.
Defined.

(** X17. A source text that holds only blank lines and comment lines
    gives no token, and the parser returns the empty program on it. *)
Theorem blank_source_is_the_empty_program (input : string) :
  Forall (fun raw => LexerSpec.significant raw = false) (Js.split_lines input) ->
  Lexer.tokenize input = Js.Normal []
  /\ run (Lexer.tokens (Lexer.run input)) = Parsed (Program []) 0.
Proof.
  intros Hblank.
  assert (forall lines lx i,
            Forall (fun raw => LexerSpec.significant raw = false) lines ->
            Lexer.tokenize_lines lx i lines = lx) as Hskip.
  { induction lines as [|raw rest IH]; intros lx i Hl; cbn [Lexer.tokenize_lines]; [done|].
    apply Forall_cons in Hl as [Hraw Hrest]. rewrite <- (IH lx (S i) Hrest) at 2. f_equal.
    unfold Lexer.tokenize_step. unfold LexerSpec.significant in Hraw.
    apply negb_false_iff in Hraw. by rewrite Hraw. }
  assert (Lexer.run input = Lexer.init) as Hrun.
  { unfold Lexer.run. by rewrite (Hskip _ _ _ Hblank). }
  unfold Lexer.tokenize. by rewrite Hrun.
Qed.

Lemma blank_source_is_the_empty_program_witness :
  Lexer.tokenize "  -- nothing here"
  = Js.Normal []
  /\ run (Lexer.tokens (Lexer.run "  -- nothing here")) = Parsed (Program []) 0.
Proof. apply (blank_source_is_the_empty_program "  -- nothing here"). by repeat constructor. Defined.

Lemma parser_always_ends_witness :
  parse [Token IDENTIFIER (Text "x") (Some 1); Token NEWLINE NoValue (Some 1)] 100 0
  = run [Token IDENTIFIER (Text "x") (Some 1); Token NEWLINE NoValue (Some 1)].
Proof.
  apply (proj1 (parser_always_ends
                  [Token IDENTIFIER (Text "x") (Some 1); Token NEWLINE NoValue (Some 1)])).
  cbn. lia.
Defined.

Lemma parse_stops_at_the_end_or_at_a_dedent_witness :
  0 = length [Token DEDENT NoValue None; Token IDENTIFIER (Text "x") (Some 1)]
  \/ exists tok,
       [Token DEDENT NoValue None; Token IDENTIFIER (Text "x") (Some 1)] !! 0 = Some tok
       /\ type tok = DEDENT.
Proof.
  apply (proj1 parse_stops_at_the_end_or_at_a_dedent
           [Token DEDENT NoValue None; Token IDENTIFIER (Text "x") (Some 1)] (Program []) 0).
  reflexivity.
Defined.

End ParserFacts.

(** * Properties of the module manager *)

Module ModuleManagerFacts.
Import ModuleManager.
Local Open Scope list_scope.

Lemma resolve_registerObject mm name obj name' :
  resolve (registerObject mm name obj) name'
  = if String.eqb name name' then ResolvedObject obj else resolve mm name'.
Proof.
  unfold resolve, registerObject. cbn [objects modules].
  unfold Map_get. rewrite Map_has_set, Map_lookup_set.
  destruct (String.eqb name name'); [by rewrite orb_true_r|by rewrite orb_false_r].
Qed.

(** X18. [resolve] follows the registrations: after [registerObject] the
    name resolves to that object, whatever module text is registered
    under it; after [register] the name resolves to the URL of the text
    unless an object holds the name; a registration under one name leaves
    the other names as they were; and a name that nothing was registered
    under resolves to the relative path [./name]. *)
Theorem resolve_follows_the_registrations (mm : t) (name : string) :
  (forall obj name',
     resolve (registerObject mm name obj) name'
     = if String.eqb name name' then ResolvedObject obj else resolve mm name')
  /\ (forall content url name',
        resolve (register mm name content url).2 name'
        = if String.eqb name name' && negb (Map_has (objects mm) name')
          then ResolvedUrl url else resolve mm name')
  /\ (forall name', resolve init name' = ResolvedUrl ("./" ++ name')%string).
Proof.
  split; [|split].
  - intros obj name'. apply resolve_registerObject.
  - intros content url name'. unfold resolve, register. cbn [objects modules snd].
    rewrite Map_lookup_set.
    destruct (Map_has (objects mm) name'); [by rewrite andb_false_r|].
    rewrite andb_true_r. by destruct (String.eqb name name').
  - done.
Qed.

Section Importing.
Context `{Host}.

(** X19. Importing a name that the module manager resolves to an object
    loads no file: the statement binds, in the current frame and with
    [set], the part of the module name before its first dot to that
    object, and changes nothing else. *)
Theorem import_of_a_registered_object_binds_it
    (mm : t) (moduleName : string) (obj : value) (fuel scope : nat) (st : Interpreter) :
  deps_ModuleManager_resolve moduleName = resolve (registerObject mm moduleName obj) moduleName ->
  executeStatement (S fuel) (ImportStatement moduleName) scope st
  = Returned VUndefined
      (set_scopes (fun s => Scope_set s scope (before_dot moduleName) obj) st).
Proof.
  intros Hres. cbn [executeStatement]. rewrite Hres.
  rewrite resolve_registerObject, String.eqb_refl. done.
Qed.

End Importing.

Lemma import_of_a_registered_object_binds_it_witness :
  @executeStatement (example_host_with (registerObject init "math.js" (VHostObject "Math")))
     1 (ImportStatement "math.js") 0 (new_Interpreter None)
  = Returned VUndefined
      (set_scopes (fun s => Scope_set s 0 "math" (VHostObject "Math")) (new_Interpreter None)).
Proof.
  apply (import_of_a_registered_object_binds_it
           (H := example_host_with (registerObject init "math.js" (VHostObject "Math")))
           init "math.js" (VHostObject "Math") 0 0 (new_Interpreter None)).
  reflexivity.
Defined.

End ModuleManagerFacts.

(** * More on the interpreter *)

Section Calls.
Context `{Host}.
Local Open Scope list_scope.

(** X20. A call does not return [null] when no [return] ran: a function
    whose body is one statement returns the result of that statement (the
    value of an expression statement, [undefined] for an assignment), as
    long as the statement leaves no [__ret__], [__break__] or
    [__continue__] in the frame of the call. The statement runs in a new
    frame, child of the captured one, that binds the parameters. *)
Theorem a_call_returns_the_result_of_its_last_statement
    fuel id params node captured context args st r st1 :
  let fnScope := length (scopes st) in
  stop st = false ->
  executeStatement fuel node fnScope
    (set_scopes (fun s => s ++ [mkScope (bind_all 0 params args []) (Some captured) false]) st)
  = Returned r st1 ->
  own_has_in (scopes st1) fnScope "__ret__" = false ->
  own_has_in (scopes st1) fnScope "__break__" = false ->
  own_has_in (scopes st1) fnScope "__continue__" = false ->
  apply (S (S fuel)) (VClosure id params [node] captured) context args st
  = Returned r
      (mkInterpreter (scopes st1) (objects st1) (functions st1) (console st1)
                     (globals st1) (stop st1) (evalCache st1) (S (opCounter st1))).
Proof.
  intros fnScope Hstop Hnode Hret Hbreak Hcont.
  rewrite apply_closure. unfold executeBlock. cbn [executeBlock_from].
  erewrite bind_Returned by reflexivity. cbn [stop set_scopes]. rewrite Hstop.
  erewrite bind_Returned by exact Hnode.
  erewrite bind_Returned by apply own_has_Returned. fold fnScope. rewrite Hret.
  erewrite bind_Returned by apply own_has_Returned. rewrite Hbreak.
  erewrite bind_Returned by apply own_has_Returned. rewrite Hcont.
  erewrite bind_Returned by reflexivity.
  destruct fuel as [|fuel]; [done|]. reflexivity.
Qed.

End Calls.

Lemma a_call_returns_the_result_of_its_last_statement_witness :
  @apply example_host 4 (VClosure 0 ["a"] [ExpressionStatement (Identifier "a")] 0) VNull
     [VNum 5] (new_Interpreter None)
  = Returned (VNum 5)
      (mkInterpreter
         (scopes (new_Interpreter None) ++ [mkScope [("a", VNum 5)] (Some 0) false])%list
         [] 0 [] 0 false [] 1).
Proof.
  apply (a_call_returns_the_result_of_its_last_statement (H := example_host)
           2 0 ["a"] (ExpressionStatement (Identifier "a")) 0 VNull [VNum 5]
           (new_Interpreter None) (VNum 5)
           (set_scopes (fun s => (s ++ [mkScope [("a", VNum 5)] (Some 0) false])%list)
                       (new_Interpreter None))); reflexivity.
Defined.

(** * The parser on the tokens of a source text *)

Module BlockFacts.
Import Lexer LexerSpec Parser ParserSpec ParserFacts BlockSpec.
Local Open Scope list_scope.

(** ** Where the lexer puts INDENT and DEDENT *)

Lemma follows_app prev a b :
  follows prev (a ++ b) = follows prev a && follows (from_option Some prev (last a)) b.
Proof.
  revert prev. induction a as [|tok a IH]; intros prev; cbn [app follows]; [done|].
  rewrite IH, andb_assoc. f_equal. f_equal. rewrite last_cons. by destruct (last a).
Qed.

Lemma follows_plain prev toks :
  Forall (fun tok => type tok <> INDENT /\ type tok <> DEDENT) toks ->
  follows prev toks = true.
Proof.
  intros Hall. revert prev. induction Hall as [|tok toks [H1 H2] _ IH]; intros prev; [done|].
  cbn [follows]. rewrite IH, andb_true_r. unfold structural_token.
  by rewrite !bool_decide_eq_false_2.
Qed.

Lemma placed_snoc_structural toks tok :
  placed toks -> type tok = DEDENT \/ type tok = INDENT ->
  follows None (toks ++ [tok]) = true.
Proof.
  intros [Hf Hl] Hty. rewrite follows_app, Hf. cbn [andb follows]. rewrite andb_true_r.
  unfold last_ok in Hl. destruct (last toks) as [p|]; cbn; [|by rewrite orb_true_r].
  apply orb_true_iff. right. apply orb_true_iff.
  destruct Hl as [Hp|Hp]; [left|right]; by apply bool_decide_eq_true.
Qed.

Lemma dedent_to_placed indent lineNum toks stack :
  placed toks -> placed (dedent_to indent lineNum toks stack).1.
Proof.
  revert toks. induction stack as [|top below IH]; intros toks Hp; cbn [dedent_to]; [done|].
  destruct (indent <? top)%nat; [|done]. apply IH. split.
  - apply placed_snoc_structural; [done|by left].
  - unfold last_ok. rewrite last_snoc. by right.
Qed.

Lemma tokenize_step_placed lx i raw :
  placed (tokens lx) -> placed (tokens (tokenize_step lx i raw)).
Proof.
  intros Hp. unfold tokenize_step. destruct (_ || _); [done|]. cbn [tokens].
  assert (follows None (tokens (handle_indent lx (indent_width raw) (i + 1))) = true) as Hh.
  { unfold handle_indent. destruct (indentStack lx) as [|top below] eqn:Hs; [apply Hp|].
    destruct (top <? _)%nat.
    - cbn [tokens]. apply placed_snoc_structural; [done|by right].
    - pose proof (dedent_to_placed (indent_width raw) (i + 1) _ (top :: below) Hp) as Hd.
      destruct (dedent_to _ _ _ _). apply Hd. }
  split.
  - rewrite app_assoc, follows_app, follows_app, Hh. cbn [andb follows].
    rewrite follows_plain by apply LexerStructure.tokenizeLine_from_other.
    unfold structural_token. cbn. done.
  - unfold last_ok. rewrite app_assoc, last_snoc. by left.
Qed.

Lemma tokenize_lines_placed lines lx i :
  placed (tokens lx) -> placed (tokens (tokenize_lines lx i lines)).
Proof.
  revert lx i. induction lines as [|raw rest IH]; intros lx i Hp; cbn; [done|].
  by apply IH, tokenize_step_placed.
Qed.

Lemma close_indents_placed toks stack : placed toks -> placed (close_indents toks stack).1.
Proof.
  revert toks. induction stack as [|top below IH]; intros toks Hp; [done|].
  destruct below as [|next l]; [done|].
  rewrite LexerFacts.close_indents_cons. apply IH. split.
  - apply placed_snoc_structural; [done|by left].
  - unfold last_ok. rewrite last_snoc. by right.
Qed.

Lemma run_placed input : follows None (tokens (Lexer.run input)) = true.
Proof.
  unfold Lexer.run.
  pose proof (tokenize_lines_placed (Js.split_lines input) init 0
                (Build_placed [] eq_refl I)) as Hl.
  pose proof (close_indents_placed _ (indentStack (tokenize_lines init 0 (Js.split_lines input)))
                Hl) as Hc.
  destruct (close_indents _ _). apply Hc.
Qed.

(** ** The parser keeps the level of blocks *)

Section Levels.
Variable tokens : list token.
Hypothesis Hfollows : follows None tokens = true.

Lemma follows_lookup prev toks i tok next :
  follows prev toks = true ->
  toks !! i = Some tok -> toks !! S i = Some next ->
  structural_token next = true -> type tok = NEWLINE \/ type tok = DEDENT.
Proof.
  revert prev i. induction toks as [|t toks IH]; intros prev i Hf Hi Hn Hs; [done|].
  cbn [follows] in Hf. apply andb_true_iff in Hf as [_ Hf].
  destruct i as [|i]; cbn in Hi, Hn.
  - injection Hi as ->. destruct toks as [|n toks]; [done|]. injection Hn as ->.
    cbn [follows] in Hf. apply andb_true_iff in Hf as [Hf _]. rewrite Hs in Hf.
    cbn in Hf. apply orb_true_iff in Hf as [Hf|Hf]; apply bool_decide_eq_true in Hf; auto.
  - by eapply IH.
Qed.

Lemma counts_S ty pos tok :
  tokens !! pos = Some tok ->
  count ty (take (S pos) tokens)
  = count ty (take pos tokens) + (if decide (type tok = ty) then 1 else 0).
Proof.
  intros Hl. rewrite (take_S_r _ _ _ Hl), LexerFacts.count_app, LexerFacts.count_singleton.
  done.
Qed.

Lemma level_step_lookup pos tok :
  tokens !! pos = Some tok -> level_step tokens (type tok) pos.
Proof.
  intros Hl. unfold level_step, opens, closes. rewrite !(counts_S _ _ _ Hl).
  destruct (type tok); repeat case_decide; try done; lia.
Qed.

Lemma level_step_check type_ value_ pos :
  check_at tokens type_ value_ pos = true -> level_step tokens type_ pos.
Proof.
  intros Hc. unfold check_at in Hc. destruct (tokens !! pos) as [tok|] eqn:Hl; [|done].
  apply andb_true_iff in Hc as [Hty _]. apply bool_decide_eq_true in Hty as <-.
  by apply level_step_lookup.
Qed.

Lemma plain_not_structural pos tok :
  plain_before tokens pos -> tokens !! pos = Some tok ->
  type tok <> INDENT /\ type tok <> DEDENT.
Proof.
  intros (pos0 & prev & -> & Hprev & Hn & Hi & Hd) Hl.
  destruct (structural_token tok) eqn:Hs.
  - destruct (follows_lookup _ _ _ _ _ Hfollows Hprev Hl Hs); done.
  - unfold structural_token in Hs. apply orb_false_iff in Hs as [H1 H2].
    by apply bool_decide_eq_false in H1, H2.
Qed.

Lemma level_step_after pos tok :
  plain_before tokens pos -> tokens !! pos = Some tok ->
  opens tokens (S pos) = opens tokens pos /\ closes tokens (S pos) = closes tokens pos.
Proof.
  intros Hplain Hl. destruct (plain_not_structural _ _ Hplain Hl).
  pose proof (level_step_lookup _ _ Hl) as Hstep. unfold level_step in Hstep.
  by destruct (type tok).
Qed.

Lemma plain_before_check type_ value_ pos :
  check_at tokens type_ value_ pos = true ->
  type_ <> NEWLINE -> type_ <> INDENT -> type_ <> DEDENT -> plain_before tokens (S pos).
Proof.
  intros Hc ? ? ?. unfold check_at in Hc. destruct (tokens !! pos) as [tok|] eqn:Hl; [|done].
  apply andb_true_iff in Hc as [Hty _]. apply bool_decide_eq_true in Hty as <-.
  by exists pos, tok.
Qed.

Lemma wpl_match total type_ value_ Q pos :
  (check_at tokens type_ value_ pos = true -> level_step tokens type_ pos -> Q true (S pos)) ->
  (check_at tokens type_ value_ pos = false -> Q false pos) ->
  wp total (match_ tokens type_ value_) Q pos.
Proof.
  intros Ht Hf. apply wp_match; [|done]. intros Hc _. apply Ht; [done|].
  by eapply level_step_check.
Qed.

Lemma wpl_consume total type_ value_ Q pos :
  (forall tok, check_at tokens type_ value_ pos = true -> level_step tokens type_ pos ->
               Q tok (S pos)) ->
  wp total (consume tokens type_ value_) Q pos.
Proof.
  intros HQ. apply wp_consume. intros tok _ Hc _. apply HQ; [done|].
  by eapply level_step_check.
Qed.

End Levels.

Ltac wpl_leaf :=
  lazymatch goal with
  | |- wp _ (bind _ _) _ _ => apply wp_bind
  | |- wp _ (ret _) _ _ => apply wp_ret
  | |- wp _ (throw _) _ _ => apply wp_throw
  | |- wp _ (unexpected _) _ _ => apply wp_unexpected
  | |- wp false no_fuel _ _ => apply wp_no_fuel
  | |- wp _ (check _ _ _) _ _ => apply wp_check
  | |- wp _ (peek _ _) _ _ => apply wp_peek
  | |- wp _ (more _) _ _ => apply wp_more
  | |- wp _ (match_ _ _ _) _ _ => apply wpl_match; intros
  | |- wp _ (consume _ _ _) _ _ => apply wpl_consume; intros
  | |- wp _ (if ?b then _ else _) _ _ => destruct b eqn:?
  | |- wp _ (match ?x with _ => _ end) _ _ => destruct x eqn:?
  end.

Ltac wpl_call :=
  match goal with
  | H : _ |- wp _ _ _ _ => eapply wp_mono; [eapply H | cbv beta; intros ? ? ?]
  end.

Ltac level_solve := unfold level, level_step in *; cbn beta iota in *; lia.

Ltac wpl_run := repeat first [wpl_leaf | wpl_call]; try level_solve.

Section LevelInduction.
Variable tokens : list token.
Hypothesis Hfollows : follows None tokens = true.

Lemma expressions_keep_level fuel : all_keep_level tokens fuel.
Proof.
  induction fuel as [|fuel (IHe & IHo & IHol & IHa & IHal & IHc & IHcl & IHd & IHdl
                            & IHm & IHml & IHp & IHs & IHx)].
  - unfold all_keep_level, keeps_level. repeat split; intros; apply wp_no_fuel.
  - unfold all_keep_level, keeps_level in *.
    repeat split; intros; cbn [parseExpression parseLogicalOr parseLogicalOr_loop
      parseLogicalAnd parseLogicalAnd_loop parseComparison parseComparison_loop
      parseAdditive parseAdditive_loop parseMultiplicative parseMultiplicative_loop
      parsePrimary parseSuffix parseExpressions].
    all: wpl_run.
    apply wp_consumeAny; [|intros; apply wp_throw].
    intros tok Htok _.
    destruct (level_step_after tokens Hfollows (S pos) tok) as [Ho Hc]; [|done|].
    { by eapply plain_before_check. }
    wpl_run.
Qed.

Lemma parseParams_keeps_level fuel params :
  keeps_level tokens (parseParams tokens fuel params).
Proof.
  revert params. induction fuel as [|fuel IH]; intros params pos; unfold keeps_level in *.
  - apply wp_no_fuel.
  - cbn [parseParams]. wpl_run.
Qed.

Lemma parseImport_loop_keeps_level fuel moduleName pos :
  plain_before tokens pos ->
  wp false (parseImport_loop tokens fuel moduleName) (fun _ pos' => level tokens pos pos') pos.
Proof.
  revert moduleName pos. induction fuel as [|fuel IH]; intros moduleName pos Hplain.
  - apply wp_no_fuel.
  - cbn [parseImport_loop]. wpl_leaf. wpl_leaf. wpl_leaf. wpl_leaf.
    destruct ((pos <? length tokens)%nat && negb (check_at tokens NEWLINE None pos))
      eqn:Hcond; [|wpl_run].
    apply andb_true_iff in Hcond as [_ Hnl]. apply negb_true_iff in Hnl.
    apply wp_bind, wp_consumeAny; [|intros; apply wp_throw].
    intros tok Htok _.
    destruct (level_step_after tokens Hfollows pos tok) as [Ho Hc]; [done..|].
    eapply wp_mono; [apply IH|cbv beta; intros; level_solve].
    destruct (plain_not_structural tokens Hfollows pos tok) as [Hi Hd]; [done..|].
    exists pos, tok. split_and!; try done.
    intros Hty. unfold check_at in Hnl. rewrite Htok in Hnl.
    by rewrite bool_decide_eq_true_2 in Hnl.
Qed.

Lemma parseImport_keeps_level fuel : keeps_level tokens (parseImport tokens fuel).
Proof.
  destruct fuel as [|fuel]; intros pos; [apply wp_no_fuel|].
  cbn [parseImport]. wpl_leaf. wpl_leaf. wpl_leaf.
  eapply wp_mono; [apply parseImport_loop_keeps_level; by eapply plain_before_check|].
  cbv beta; intros. wpl_run.
Qed.

Lemma parseAssignment_keeps_level fuel : keeps_level tokens (parseAssignment tokens fuel).
Proof.
  destruct fuel as [|fuel]; intros pos; [apply wp_no_fuel|].
  destruct (expressions_keep_level fuel) as (IH & _). unfold keeps_level in IH.
  cbn [parseAssignment]. wpl_run.
Qed.

Lemma parseReturn_keeps_level fuel : keeps_level tokens (parseReturn tokens fuel).
Proof.
  destruct fuel as [|fuel]; intros pos; [apply wp_no_fuel|].
  destruct (expressions_keep_level fuel) as (IH & _). unfold keeps_level in IH.
  cbn [parseReturn]. wpl_run.
Qed.

Lemma statements_keep_level fuel : all_statements_keep_level tokens fuel.
Proof.
  induction fuel as [|fuel (IHb & IHbl & IHs & IHf & IHo & IHfn & IHi & IHel & IHw)].
  - unfold all_statements_keep_level, keeps_level. repeat split; intros; apply wp_no_fuel.
  - destruct (expressions_keep_level fuel) as (IHe & _).
    pose proof (parseParams_keeps_level fuel) as IHp.
    pose proof (parseImport_keeps_level fuel) as IHim.
    pose proof (parseAssignment_keeps_level fuel) as IHas.
    pose proof (parseReturn_keeps_level fuel) as IHr.
    unfold all_statements_keep_level, keeps_level in *.
    repeat split; intros; cbn [parseBlock parseBlock_loop parseStatement parseFor
      parseObjectDefinition parseFunction parseIf parseElifs parseWhile].
    all: wpl_run.
Qed.

Lemma parse_keeps_level fuel : keeps_level tokens (parse tokens fuel).
Proof.
  destruct fuel as [|fuel]; intros pos; [apply wp_no_fuel|].
  destruct (statements_keep_level fuel) as (IH & _). unfold keeps_level in IH.
  cbn [parse]. wpl_run.
Qed.

End LevelInduction.

(** In a prefix of tokens that replay on a stack, the DEDENTs are fewer than
    the levels of the stack and the INDENTs together. *)
Lemma replay_prefix stack toks stack' n :
  replay stack toks = Some stack' -> stack <> [] ->
  count DEDENT (take n toks) + 1 <= length stack + count INDENT (take n toks).
Proof.
  revert stack n. induction toks as [|tok rest IH]; intros stack n Hr Hne.
  - rewrite take_nil. destruct stack; [done|]. cbn. lia.
  - destruct n as [|n]; [destruct stack; [done|]; cbn; lia|].
    cbn [take]. change (tok :: take n rest) with ([tok] ++ take n rest).
    rewrite !LexerFacts.count_app, !LexerFacts.count_singleton.
    cbn [replay] in Hr. destruct (type tok) eqn:Hty; repeat case_decide; try done.
    all: try (specialize (IH _ n Hr Hne); lia).
    + destruct (value tok); try done. destruct stack as [|top below]; [done|].
      destruct (_ <? _)%nat; [|done]. specialize (IH _ n Hr ltac:(done)).
      cbn [length] in *. lia.
    + destruct stack as [|top [|next below]]; try done.
      specialize (IH _ n Hr ltac:(done)). cbn [length] in *. lia.
Qed.

(** X21. The lexer and the parser fit together: when the parser returns a
    program for the tokens of a source text, it has read every token. It
    never stops at a DEDENT that the lexer produced, although on other
    lists of tokens it can; on a text it does not accept it throws. *)
Theorem parser_reads_every_token_of_a_source_text (input : string) prog pos :
  Parser.run (tokens (Lexer.run input)) = Parsed prog pos ->
  pos = length (tokens (Lexer.run input)).
Proof.
  intros Hrun. set (toks := tokens (Lexer.run input)) in *.
  pose proof (parse_keeps_level toks (run_placed input) (enough toks) 0) as Hlevel.
  unfold wp in Hlevel. fold (Parser.run toks) in Hlevel. rewrite Hrun in Hlevel.
  unfold level, opens, closes in Hlevel. cbn [take] in Hlevel.
  assert (wp false (parse toks (enough toks))
            (fun _ pos' => (pos' <? length toks)%nat
                           && negb (check_at toks DEDENT None pos') = false) 0) as Hstop.
  { unfold enough. replace (12 * length toks + 12) with (S (S (12 * length toks + 10))) by lia.
    cbn [parse parseBlock]. pose proof (parseBlock_loop_stops toks) as IH. wp_run. }
  unfold wp in Hstop. fold (Parser.run toks) in Hstop. rewrite Hrun in Hstop.
  pose proof (parse_ends toks (enough toks) 0) as Hend.
  unfold wp, weight, enough in Hend. specialize (Hend ltac:(lia)).
  fold (enough toks) in Hend. fold (Parser.run toks) in Hend. rewrite Hrun in Hend.
  apply andb_false_iff in Hstop as [Hlt|Hd].
  { apply Nat.ltb_ge in Hlt. lia. }
  apply negb_false_iff in Hd.
  pose proof (level_step_check _ _ _ _ Hd) as [Ho Hc]. unfold opens, closes in Ho, Hc.
  assert (replay [0] toks = Some [0]) as Hreplay.
  { subst toks. unfold Lexer.run.
    destruct (LexerStructure.tokenize_lines_replay (Js.split_lines input) init 0) as [Hok Hr];
      [done..|].
    destruct (LexerStructure.close_indents_replay _ _ Hok Hr) as [H1 H2].
    by destruct (close_indents _ _). }
  pose proof (replay_prefix [0] toks [0] (S pos) Hreplay ltac:(done)) as Hprefix.
  cbn [length] in Hprefix. rewrite take_0 in Hlevel. change (count _ []) with 0 in Hlevel. lia.
Qed.

Lemma parser_reads_every_token_of_a_source_text_witness :
  Parser.run (tokens (Lexer.run loop_source))
  = Parsed (Program
      [Stmt (WhileStatement (Identifier (Text "x"))
         [Stmt (Assignment (Text "x") (Text "=")
                  (BinaryExpression (Identifier (Text "x")) (Text "-")
                     (Literal (ParseFloatOf (Text "1"))))) (Some 2)]) (Some 1)]) 11
  /\ 11 = length (tokens (Lexer.run loop_source)).
Proof.
  split; [reflexivity|].
  exact (parser_reads_every_token_of_a_source_text loop_source _ 11 eq_refl).
Defined.

End BlockFacts.

(** * Properties of the older interpreter *)

Module LegacyFacts.
Import Legacy LegacySpec.
Local Open Scope list_scope.
Local Open Scope legacy_scope.

Lemma only_writes_refl F D st : only_writes F D st st.
Proof. by split. Qed.

Lemma only_writes_trans F D a b c :
  only_writes F D a b -> only_writes F D b c -> only_writes F D a c.
Proof.
  intros [G1 L1 S1 K1 H1 T1] [G2 L2 S2 K2 H2 T2]. split.
  - congruence.
  - lia.
  - intros x Hx HF Hg. rewrite S2, S1; [done..|lia|done|congruence].
  - eauto.
  - by etrans.
  - congruence.
Qed.

Lemma only_writes_mono (F D F' D' : nat -> Prop) st st' :
  (forall a, F a -> F' a) -> (forall a, D a -> D' a) ->
  only_writes F D st st' -> only_writes F' D' st st'.
Proof. intros HF HD [G L S K Hh T]. split; eauto. Qed.

Section Rules.
Context `{Host}.

Lemma keeps_mono (F D F' D' : nat -> Prop) {A} (m : M A) :
  (forall a, F a -> F' a) -> (forall a, D a -> D' a) -> keeps F D m -> keeps F' D' m.
Proof.
  intros HF HD Hm st. specialize (Hm st).
  destruct (m st); eauto using only_writes_mono.
Qed.

Lemma keeps_nowhere F D {A} (m : M A) : keeps nowhere nowhere m -> keeps F D m.
Proof. apply keeps_mono; by intros ? []. Qed.

Lemma keeps_ret F D {A} (a : A) : keeps F D (ret a).
Proof. intros st. apply only_writes_refl. Qed.

Lemma keeps_throw F D {A} msg : keeps F D (@throw A msg).
Proof. intros st. apply only_writes_refl. Qed.

Lemma keeps_out_of_fuel F D {A} : keeps F D (@out_of_fuel A).
Proof. by intros st. Qed.

Lemma keeps_gets F D {A} (f : Interpreter -> A) : keeps F D (gets f).
Proof. intros st. apply only_writes_refl. Qed.

Lemma keeps_lift F D {A} (c : Js.completion A) : keeps F D (lift c).
Proof. intros st. unfold lift. destruct c; apply only_writes_refl. Qed.

Lemma keeps_bind F D {A B} (m : M A) (k : A -> M B) :
  keeps F D m -> (forall a, keeps F D (k a)) -> keeps F D (bind m k).
Proof.
  intros Hm Hk st. unfold bind. specialize (Hm st).
  destruct (m st) as [a st'| |]; [|done..].
  specialize (Hk a st'). destruct (k a st'); eauto using only_writes_trans.
Qed.

Lemma has_in_alter f maps a b k :
  (forall m, Map_has m k = true -> Map_has (f m) k = true) ->
  has_in maps a k = true -> has_in (alter f b maps) a k = true.
Proof.
  intros Hf. unfold has_in. destruct (decide (a = b)) as [->|Hne].
  - rewrite list_lookup_alter_eq. destruct (maps !! b); [apply Hf|done].
  - by rewrite list_lookup_alter_ne.
Qed.

Lemma only_writes_map_set (F D : nat -> Prop) st a k v :
  F a \/ a = globals st ->
  only_writes F D st (set_maps (alter (fun m => Map_set m k v) a) st).
Proof.
  intros Ha. split; cbn; [done| by rewrite length_alter | | |done..].
  - intros x _ HF Hg. apply list_lookup_alter_ne. intros ->. by destruct Ha.
  - intros x k' _. apply has_in_alter. intros m Hm. by rewrite Map_has_set, Hm.
Qed.

Lemma keeps_map_set (F D : nat -> Prop) a k v : F a -> keeps F D (map_set a k v).
Proof. intros Ha st. apply only_writes_map_set. by left. Qed.

Lemma keeps_map_delete (F D : nat -> Prop) a k : F a -> D a -> keeps F D (map_delete a k).
Proof.
  intros HF HD st. split; cbn; [done| by rewrite length_alter | | |done..].
  - intros x _ HF' _. apply list_lookup_alter_ne. by intros ->.
  - intros x k' HD' Hx. unfold has_in in *. rewrite list_lookup_alter_ne; [done|].
    by intros ->.
Qed.

Lemma keeps_new_cell F D c : keeps F D (new_cell c).
Proof. intros st. split; cbn; try done. by apply prefix_app_r. Qed.

Lemma keeps_new_function F D params body scope : keeps F D (new_function params body scope).
Proof. intros st. by split. Qed.

Lemma keeps_emit F D text : keeps F D (emit text).
Proof. intros st. by split. Qed.

Lemma keeps_bind_params (F D : nat -> Prop) a i params args :
  F a -> keeps F D (bind_params a i params args).
Proof.
  intros Ha. revert i. induction params as [|p ps IH]; intros i; cbn [bind_params].
  - apply keeps_ret.
  - apply keeps_bind; [by apply keeps_map_set | auto].
Qed.

Lemma keeps_mapM F D {A B} (f : A -> M B) items :
  (forall a, keeps F D (f a)) -> keeps F D (mapM f items).
Proof.
  intros Hf. induction items as [|a rest IH]; cbn [mapM]; [apply keeps_ret|].
  apply keeps_bind; [done|]. intros b. apply keeps_bind; [done|]. intros bs. apply keeps_ret.
Qed.

Lemma keeps_ops F D op cur val : keeps F D (ops op cur val).
Proof.
  unfold ops. repeat (case_match; [apply keeps_ret|]). apply keeps_lift.
Qed.

(** A map made on the way may be written and may lose keys. *)
Lemma keeps_new_Map (F D : nat -> Prop) {A} entries (k : nat -> M A) :
  (forall l, keeps (fun a => F a \/ a = l) (fun a => D a \/ a = l) (k l)) ->
  keeps F D (bind (new_Map entries) k).
Proof.
  intros Hk st. unfold bind, new_Map. specialize (Hk (length (maps st))).
  set (st1 := set_maps _ st). specialize (Hk st1).
  assert (only_writes (fun a => F a \/ a = length (maps st))
            (fun a => D a \/ a = length (maps st)) st1 = fun st' => only_writes _ _ st1 st')
    as _ by done.
  assert (forall st', only_writes (fun a => F a \/ a = length (maps st))
                        (fun a => D a \/ a = length (maps st)) st1 st' ->
                      only_writes F D st st') as Hback.
  { intros st' [G L S K Hh T]. subst st1. cbn in *. rewrite length_app in *. cbn in *.
    split.
    - done.
    - lia.
    - intros a Ha HF Hg. rewrite S; [|lia| |done].
      + by apply lookup_app_l.
      + intros [?|?]; [done|lia].
    - intros a k' HD Hhas. apply K.
      + intros [?| ->]; [done|]. unfold has_in in Hhas.
        rewrite lookup_ge_None_2 in Hhas; [done|lia].
      + unfold has_in in *. destruct (maps st !! a) eqn:Hl; [|done].
        by rewrite (lookup_app_l_Some _ _ _ _ Hl).
    - done.
    - done. }
  destruct (k _ st1); auto.
Qed.

(** The tail of an assignment, once the right-hand side has its value. *)
Lemma keeps_assign scope name operator val (own : bool) :
  keeps (eq scope) nowhere
    (let* g := gets globals in
     let target := if own then scope else g in
     let* found := map_get target name in
     let cur := if truthy found then found else VNum 0 in
     let* v := ops operator cur val in
     map_set target name v;;
     ret VUndefined).
Proof.
  intros st. unfold bind at 1. unfold gets at 1. cbn beta iota.
  unfold bind at 1. unfold map_get, gets at 1. cbn beta iota.
  set (target := if own then scope else globals st).
  set (cur := if truthy _ then _ else _).
  unfold bind at 1.
  pose proof (keeps_ops (eq scope) nowhere operator cur val st) as Hops.
  destruct (ops operator cur val st) as [v st1| |] eqn:Hv; [|done..].
  assert (st1 = st) as ->.
  { unfold ops in Hv. repeat case_match; unfold ret, lift in Hv; try congruence.
    destruct (ops_inherited _ _); congruence. }
  unfold bind, map_set, modify, ret. cbn.
  apply only_writes_map_set. subst target. destruct own; [by left|by right].
Qed.

Lemma stringify_keeps fuel val : keeps nowhere nowhere (stringify fuel val).
Proof.
  revert val. induction fuel as [|fuel IH]; intros val; [apply keeps_out_of_fuel|].
  cbn [stringify].
  repeat first
    [ apply keeps_ret | apply keeps_gets | apply keeps_lift
    | apply keeps_mapM; intros ?; apply IH
    | apply keeps_bind; [|intros ?]
    | case_match ].
Qed.

End Rules.

Ltac keeps_step :=
  match goal with
  | |- keeps _ _ (bind (new_Map _) _) => apply keeps_new_Map; intros ?
  | |- keeps _ _ (bind (gets globals) _) => apply keeps_assign
  | |- keeps _ _ (bind _ _) => apply keeps_bind; [|intros ?]
  | |- keeps _ _ (ret _) => apply keeps_ret
  | |- keeps _ _ (throw _) => apply keeps_throw
  | |- keeps _ _ out_of_fuel => apply keeps_out_of_fuel
  | |- keeps _ _ interleaved => apply keeps_out_of_fuel
  | |- keeps _ _ (gets _) => apply keeps_gets
  | |- keeps _ _ (map_has _ _) => apply keeps_gets
  | |- keeps _ _ (map_get _ _) => apply keeps_gets
  | |- keeps _ _ (spread _) => apply keeps_gets
  | |- keeps _ _ (member _ _) => apply keeps_gets
  | |- keeps _ _ (lift _) => apply keeps_lift
  | |- keeps _ _ (map_set _ _ _) => apply keeps_map_set; auto
  | |- keeps _ _ (map_delete _ _) => apply keeps_map_delete; auto
  | |- keeps _ _ (new_cell _) => apply keeps_new_cell
  | |- keeps _ _ (new_function _ _ _) => apply keeps_new_function
  | |- keeps _ _ (emit _) => apply keeps_emit
  | |- keeps _ _ (bind_params _ _ _ _) => apply keeps_bind_params; auto
  | |- keeps _ _ (mapM (stringify _) _) =>
      apply keeps_mapM; intros ?; apply keeps_nowhere, stringify_keeps
  | |- keeps _ _ (stringify _ _) => apply keeps_nowhere, stringify_keeps
  | |- keeps _ _ (if ?b then _ else _) => destruct b eqn:?
  | |- keeps _ _ (match ?x with _ => _ end) => destruct x eqn:?
  | H : _ |- keeps _ _ _ => apply H; try assumption
  | H : _ |- keeps _ _ _ => apply keeps_nowhere, H
  | H : _ |- keeps _ _ _ =>
      eapply keeps_mono; [| |apply H]; cbv beta; [intros ? <-; auto|by intros ? []]
  end.

Section Frames.
Context `{Host}.

Lemma older_interpreter_keeps fuel : all_keep fuel.
Proof.
  induction fuel as [|fuel (IHb & IHs & IHw & IHe & IHef & IHa & IHaf & IHc)].
  - repeat split; intros; apply keeps_out_of_fuel.
  - repeat split; intros.
    + cbn [executeBlock_from]. repeat keeps_step.
    + cbn [executeStatement]. repeat keeps_step.
    + cbn [executeWhile]. repeat keeps_step.
    + cbn [evaluateExpression]. repeat keeps_step.
    + cbn [evaluateExpression]. destruct node; cbn [eval_free] in *;
        repeat match goal with
               | H : _ && _ = true |- _ => apply andb_true_iff in H as [? ?]
               end; try done; repeat keeps_step.
    + cbn [evaluateAll]. repeat keeps_step.
    + cbn [evaluateAll]. destruct nodes; cbn [forallb] in *;
        repeat match goal with
               | H : _ && _ = true |- _ => apply andb_true_iff in H as [? ?]
               end; repeat keeps_step.
    + cbn [call]. repeat keeps_step.
Qed.

(** X22. Frame discipline of the older interpreter, in the runs that the
    embedding follows: a block run in a scope writes that map and the
    globals and no other map that existed, and a call writes only the
    globals among them, since it works on a copy of the map its function
    was declared in; no map that existed loses a key, the globals stay the
    same map and the stop flag is left alone. So a call leaves the map its
    function was declared in as it was, unless that map is the globals. *)
Theorem older_interpreter_writes_its_scope_and_the_globals fuel :
  (forall statements scope st,
     match executeBlock fuel statements scope st with
     | Returned _ st' | Thrown _ st' => maps_kept (eq scope) st st'
     | OutOfFuel => True
     end)
  /\ (forall callee args st,
        match call fuel callee args st with
        | Returned _ st' | Thrown _ st' => maps_kept nowhere st st'
        | OutOfFuel => True
        end).
Proof.
  destruct (older_interpreter_keeps fuel) as (IHb & _ & _ & _ & _ & _ & _ & IHc).
  split.
  - intros statements scope st. specialize (IHb VNull statements scope st).
    unfold executeBlock. destruct (executeBlock_from _ _ _ _ _); [| |done];
      destruct IHb; by split_and!; try (intros ? ? ?; by auto).
  - intros callee args st. specialize (IHc callee args st).
    destruct (call _ _ _ _); [| |done];
      destruct IHc; by split_and!; try (intros ? ? ?; by auto).
Qed.

(** ** A return value left in a scope *)

Lemma older_bind_ext {A B} (m : M A) (k k' : A -> M B) st :
  (forall a st', m st = Returned a st' -> k a st' = k' a st') ->
  bind m k st = bind m k' st.
Proof. intros Hk. unfold bind. destruct (m st); auto. Qed.

Lemma block_ends_on_return_value fuel res node rest scope st :
  has_in (maps st) scope return_value = true ->
  executeBlock_from fuel res (node :: rest) scope st
  = executeBlock_from fuel res [node] scope st.
Proof.
  intros Hhas. destruct fuel as [|fuel]; [done|]. cbn [executeBlock_from].
  apply older_bind_ext. intros stopped ? [= <- <-]. destruct (stop st); [done|].
  apply older_bind_ext. intros v st1 Hnode.
  apply older_bind_ext. intros returning ? [= <- <-].
  destruct (older_interpreter_keeps fuel) as (_ & IHs & _).
  specialize (IHs node scope st). rewrite Hnode in IHs.
  rewrite (ow_keys _ _ _ _ IHs scope return_value); [done| |done].
  by intros [].
Qed.

Lemma call_ends_on_return_value fuel id params node rest captured args st :
  has_in (maps st) captured return_value = true ->
  call fuel (VClosure id params (node :: rest) captured) args st
  = call fuel (VClosure id params [node] captured) args st.
Proof.
  intros Hhas. destruct fuel as [|fuel]; [done|]. cbn [call].
  apply older_bind_ext. intros entries ? [= <- <-].
  apply older_bind_ext. intros l st1 [= <- <-].
  apply older_bind_ext. intros [] st2 Hparams.
  unfold bind. rewrite block_ends_on_return_value; [done|].
  pose proof (keeps_bind_params (eq (length (maps st))) nowhere
                (length (maps st)) 0 params args eq_refl
                (set_maps (fun s => s ++ [default [] (maps st !! captured)]) st)) as Hk.
  rewrite Hparams in Hk. apply (ow_keys _ _ _ _ Hk); [by intros []|].
  unfold has_in in *. cbn. rewrite lookup_app_r, Nat.sub_diag by done. cbn.
  by destruct (maps st !! captured).
Qed.

(** ** Object definitions *)

Lemma older_bind_Returned {A B} (m : M A) (k : A -> M B) st b st' :
  bind m k st = Returned b st' ->
  exists a st1, m st = Returned a st1 /\ k a st1 = Returned b st'.
Proof. unfold bind. destruct (m st) as [a st1| |] eqn:Hm; [eauto|done..]. Qed.

Lemma ops_state op cur val st v st' : ops op cur val st = Returned v st' -> st' = st.
Proof.
  unfold ops. repeat case_match; unfold ret, lift; try congruence.
  destruct (ops_inherited _ _); congruence.
Qed.

Lemma has_in_set maps a k v :
  a < length maps -> has_in (alter (fun m => Map_set m k v) a maps) a k = true.
Proof.
  intros Ha. unfold has_in. rewrite list_lookup_alter_eq.
  destruct (lookup_lt_is_Some_2 maps a Ha) as [m ->]. cbn.
  by rewrite Map_has_set, String.eqb_refl, orb_true_r.
Qed.

(** Assignments run in an empty map that is not the globals leave it
    empty and bind their names in the globals. *)
Lemma plain_assignments_run fuel properties res l st v st' :
  maps st !! l = Some [] -> l <> globals st -> globals st < length (maps st) ->
  stop st = false ->
  Forall (fun s => plain_assignment s = true) properties ->
  executeBlock_from fuel res properties l st = Returned v st' ->
  maps st' !! l = Some [] /\ only_writes nowhere nowhere st st'
  /\ Forall (fun s => match s with
                       | Assignment k _ _ => has_in (maps st') (globals st) k = true
                       | _ => True
                       end) properties.
Proof.
  revert res properties st v st'.
  induction fuel as [|fuel IH]; intros res properties st v st' Hl Hg Hlen Hstop Hplain Hrun;
    [done|].
  destruct properties as [|node rest]; cbn [executeBlock_from] in Hrun.
  { injection Hrun as <- <-. split_and!; [done|apply only_writes_refl|constructor]. }
  apply Forall_cons in Hplain as [Hnode Hrest].
  apply older_bind_Returned in Hrun as (stopped & ? & [= <- <-] & Hrun). rewrite Hstop in Hrun.
  apply older_bind_Returned in Hrun as (r & st2 & Hstmt & Hrun).
  destruct node as [?|? ? ?|? ? ?|name operator e|? ? ? ?|? ?|? ? ? ?|?| | |?]; try done.
  cbn [plain_assignment] in Hnode.
  destruct fuel as [|fuel']; [done|]. cbn [executeStatement] in Hstmt.
  apply older_bind_Returned in Hstmt as (? & ? & [= <- <-] & Hstmt). rewrite Hstop in Hstmt.
  apply older_bind_Returned in Hstmt as (val & st1 & Hval & Hstmt).
  apply older_bind_Returned in Hstmt as (own & ? & [= <- <-] & Hstmt).
  apply older_bind_Returned in Hstmt as (g & ? & [= <- <-] & Hstmt).
  cbv zeta in Hstmt.
  apply older_bind_Returned in Hstmt as (found & ? & [= <- <-] & Hstmt).
  apply older_bind_Returned in Hstmt as (v0 & st1' & Hops & Hstmt).
  apply ops_state in Hops as ->.
  apply older_bind_Returned in Hstmt as ([] & ? & [= <-] & [= <- <-]).
  destruct (older_interpreter_keeps fuel') as (_ & _ & _ & _ & IHef & _).
  specialize (IHef e l Hnode st). rewrite Hval in IHef.
  destruct IHef as [G1 L1 S1 K1 H1 T1].
  assert (maps st1 !! l = Some []) as Hl1.
  { rewrite S1; [done| |by intros []|done]. by eapply lookup_lt_Some. }
  assert (has_in (maps st1) l name = false) as Hown by (unfold has_in; by rewrite Hl1).
  rewrite Hown in *.
  set (st2 := set_maps _ st1) in *.
  assert (only_writes nowhere nowhere st1 st2) as Hw2.
  { apply only_writes_map_set. by right. }
  assert (maps st2 !! l = Some []) as Hl2.
  { subst st2. cbn. rewrite list_lookup_alter_ne; [done|]. congruence. }
  apply older_bind_Returned in Hrun as (returning & ? & [= <- <-] & Hrun).
  assert (has_in (maps st2) l return_value = false) as Hret
    by (unfold has_in; by rewrite Hl2).
  change (has_in (alter _ _ _) l return_value)
    with (has_in (maps st2) l return_value) in Hrun.
  rewrite Hret in Hrun.
  destruct (IH VUndefined rest st2 v st') as (Hl' & Hw' & Hall); try done.
  { subst st2. cbn. congruence. }
  { subst st2. cbn. rewrite length_alter. lia. }
  { subst st2. cbn. congruence. }
  split_and!.
  - done.
  - eapply only_writes_trans; [|eapply only_writes_trans]; [|exact Hw2|exact Hw'].
    by split.
  - constructor.
    + apply (ow_keys _ _ _ _ Hw'); [by intros []|]. subst st2. cbn. rewrite <- G1.
      apply has_in_set. lia.
    + subst st2. cbn in Hall. by rewrite G1 in Hall.
Qed.

(** ** Parameters *)

Lemma older_bind_params_keeps l i params args :
  keeps (eq l) nowhere (bind_params l i params args).
Proof. by apply keeps_bind_params. Qed.

Lemma bind_params_returns l i params args st :
  exists st', bind_params l i params args st = Returned tt st'
              /\ length (maps st') = length (maps st) /\ stop st' = stop st
              /\ forall p, p ∉ params -> get_in (maps st') l p = get_in (maps st) l p.
Proof.
  revert i st. induction params as [|q ps IH]; intros i st; cbn [bind_params].
  - exists st. by split_and!.
  - unfold bind, map_set, modify. destruct (IH (S i) (set_maps
      (alter (fun m => Map_set m q (default VUndefined (args !! i))) l) st))
      as (st' & -> & Hlen & Hstop & Hget).
    exists st'. split_and!; [done|by rewrite Hlen; cbn; rewrite length_alter|done|].
    intros p Hp. apply not_elem_of_cons in Hp as [Hne Hp]. rewrite (Hget p Hp). cbn.
    unfold get_in. rewrite list_lookup_alter_eq. destruct (maps st !! l); [|done]. cbn.
    unfold Map_get. rewrite Map_lookup_set. by destruct (String.eqb_spec q p).
Qed.

Lemma bind_params_binds l i params args st j p :
  l < length (maps st) -> NoDup params -> params !! j = Some p ->
  exists st', bind_params l i params args st = Returned tt st'
              /\ stop st' = stop st
              /\ has_in (maps st') l p = true
              /\ get_in (maps st') l p = default VUndefined (args !! (i + j)).
Proof.
  revert i j st. induction params as [|q ps IH]; intros i j st Hl Hnd Hj; [done|].
  apply NoDup_cons in Hnd as [Hq Hnd]. cbn [bind_params]. unfold bind, map_set, modify.
  set (st1 := set_maps _ st).
  destruct j as [|j]; cbn in Hj.
  - injection Hj as ->.
    destruct (bind_params_returns l (S i) ps args st1) as (st' & Hrun & Hlen & Hstop & Hget).
    pose proof (older_bind_params_keeps l (S i) ps args st1) as Hk. rewrite Hrun in Hk.
    exists st'. rewrite Hrun. split_and!; [done|done| |].
    + apply (ow_keys _ _ _ _ Hk); [by intros []|]. by apply has_in_set.
    + rewrite (Hget p Hq). subst st1. cbn. unfold get_in. rewrite list_lookup_alter_eq.
      destruct (lookup_lt_is_Some_2 (maps st) l Hl) as [m ->]. cbn.
      unfold Map_get. by rewrite Map_lookup_set, String.eqb_refl, Nat.add_0_r.
  - destruct (IH (S i) j st1) as (st' & Hrun & Hstop & Hhas & Hget); [|done..|].
    { subst st1. cbn. by rewrite length_alter. }
    exists st'. rewrite Hrun. split_and!; [done|done|done|].
    rewrite Hget. do 2 f_equal. lia.
Qed.

End Frames.

(** X25. The older interpreter reads a parameter without error whether
    or not the call gave it an argument: a function that returns one of
    its parameters returns the argument at that place, and [undefined]
    when the call has fewer arguments. *)
Theorem older_interpreter_reads_a_missing_argument_as_undefined
    `{Host} fuel id params captured args i p st :
  stop st = false -> NoDup params -> params !! i = Some p ->
  exists st',
    call (S (S (S (S fuel)))) (VClosure id params [ReturnStatement (Identifier p)] captured)
         args st
    = Returned (default VUndefined (args !! i)) st'.
Proof.
  intros Hstop Hnd Hi. cbn [call].
  unfold bind at 1. unfold gets at 1. unfold bind at 1. unfold new_Map at 1.
  set (st1 := set_maps _ st).
  destruct (bind_params_binds (length (maps st)) 0 params args st1 i p)
    as (st2 & Hrun & Hstop2 & Hhas & Hget); [|done..|].
  { subst st1. cbn. rewrite length_app. cbn. lia. }
  unfold bind at 1. rewrite Hrun. cbn [executeBlock_from executeStatement evaluateExpression].
  unfold bind, gets, map_has, map_get, map_set, map_delete, modify, ret. cbn.
  assert (stop st2 = false) as Hs2 by (by rewrite Hstop2).
  rewrite Hs2. cbn beta iota. rewrite Hs2. cbn beta iota. rewrite Hhas. cbn.
  unfold has_in, get_in in *. rewrite !list_lookup_alter_eq.
  destruct (maps st2 !! length (maps st)) as [m|] eqn:Hm; [|done]. cbn.
  rewrite Map_has_set, String.eqb_refl, orb_true_r.
  unfold gets. cbn. rewrite list_lookup_alter_eq, Hm. cbn.
  unfold Map_get in *. rewrite Map_lookup_set, String.eqb_refl. cbn.
  rewrite Hget. eauto.
Qed.

Lemma older_interpreter_reads_a_missing_argument_as_undefined_witness :
  exists st',
    @call example_host 4 (VClosure 0 ["a"; "b"] [ReturnStatement (Identifier "b")] 0)
          [VNum 1] (new_Interpreter None)
    = Returned VUndefined st'.
Proof.
  apply (@older_interpreter_reads_a_missing_argument_as_undefined example_host 0 0
           ["a"; "b"] 0 [VNum 1] 1 "b" (new_Interpreter None)).
  - reflexivity.
  - by apply (bool_decide_unpack (NoDup ["a"; "b"])).
  - reflexivity.
Defined.

(** X26. The older interpreter has no short-circuit: the right operand
    of a binary expression is evaluated whatever the left one gave, so an
    error in it is thrown even after a left operand that would decide an
    [and] or an [or]; and these two operators, which the switch does not
    know, give [null] for all operands. *)
Theorem older_interpreter_evaluates_both_operands
    `{Host} fuel node_left operator node_right scope st left st1 :
  evaluateExpression fuel node_left scope st = Returned left st1 ->
  (forall e st2,
     evaluateExpression fuel node_right scope st1 = Thrown e st2 ->
     evaluateExpression (S fuel) (BinaryExpression node_left operator node_right) scope st
     = Thrown e st2)
  /\ (forall right st2,
        evaluateExpression fuel node_right scope st1 = Returned right st2 ->
        operator = "and" \/ operator = "or" ->
        evaluateExpression (S fuel) (BinaryExpression node_left operator node_right) scope st
        = Returned VNull st2).
Proof.
  intros Hleft. cbn [evaluateExpression]. unfold bind. rewrite Hleft. split.
  - intros e st2 ->. done.
  - intros right st2 -> [-> | ->]; done.
Qed.

Lemma older_interpreter_evaluates_both_operands_witness :
  @evaluateExpression example_host 2
     (BinaryExpression (Literal (LBool false)) "and" (Identifier "f")) 0 (new_Interpreter None)
  = Thrown (Js.Error "Undefined variable: f") (new_Interpreter None).
Proof.
  apply (proj1 (@older_interpreter_evaluates_both_operands example_host 1
                  (Literal (LBool false)) "and" (Identifier "f") 0 (new_Interpreter None)
                  (VBool false) (new_Interpreter None) eq_refl)).
  reflexivity.
Defined.

(** X24. An object defined without a parent by assignments comes out with
    no property at all: its body runs in a map of its own, and an
    assignment to a name that this map lacks writes the globals. Each name
    assigned in the body is bound in the globals afterwards, wherever the
    definition stands. *)
Theorem object_body_assignments_go_to_the_globals
    `{Host} fuel name properties scope st v st' :
  stop st = false ->
  scope < length (maps st) ->
  globals st < length (maps st) ->
  Forall (fun s => plain_assignment s = true) properties ->
  executeStatement fuel (ObjectDefinition name None properties) scope st = Returned v st' ->
  (exists a, get_in (maps st') scope name = VObject a /\ heap st' !! a = Some (Plain []))
  /\ forall k op e, Assignment k op e ∈ properties ->
                    has_in (maps st') (globals st') k = true.
Proof.
  intros Hstop Hscope Hglobals Hplain Hrun.
  destruct fuel as [|fuel]; [done|]. cbn [executeStatement] in Hrun.
  apply older_bind_Returned in Hrun as (? & ? & [= <- <-] & Hrun). rewrite Hstop in Hrun.
  apply older_bind_Returned in Hrun as (obj & ? & [= <- <-] & Hrun).
  apply older_bind_Returned in Hrun as (l & st0 & [= <- <-] & Hrun).
  apply older_bind_Returned in Hrun as (r & st1 & Hbody & Hrun).
  apply older_bind_Returned in Hrun as (entries & ? & [= <- <-] & Hrun).
  apply older_bind_Returned in Hrun as (made & st2 & [= <- <-] & Hrun).
  apply older_bind_Returned in Hrun as ([] & ? & [= <-] & [= <- <-]).
  apply plain_assignments_run in Hbody as (Hl & Hw & Hall); cbn; try done.
  - destruct Hw as [G1 L1 S1 K1 H1 T1]. cbn in *. rewrite length_app in L1. cbn in L1.
    rewrite Hl. cbn. split.
    + exists (length (heap st1)). split.
      * unfold get_in. rewrite list_lookup_alter_eq.
        destruct (lookup_lt_is_Some_2 (maps st1) scope ltac:(lia)) as [m ->]. cbn.
        unfold Map_get. by rewrite Map_lookup_set, String.eqb_refl.
      * by rewrite lookup_app_r, Nat.sub_diag.
    + intros k op e Hin. rewrite Forall_forall in Hall. specialize (Hall _ Hin). cbn in Hall.
      rewrite G1. apply has_in_alter; [|done]. intros m Hm. by rewrite Map_has_set, Hm.
  - by rewrite lookup_app_r, Nat.sub_diag.
  - lia.
  - rewrite length_app. lia.
Qed.

Lemma object_body_assignments_go_to_the_globals_witness :
  let st' :=
    mkInterpreter
      [[("print", VBuiltin Print); ("input", VBuiltin Input);
        ("x", VNum 1); ("y", VNum 2); ("Point", VObject 0)]; []]
      [Plain []] 0 [] 0 false in
  (exists a, get_in (maps st') 0 "Point" = VObject a /\ heap st' !! a = Some (Plain []))
  /\ forall k op e,
       Assignment k op e ∈ [Assignment "x" "=" (num 1); Assignment "y" "=" (num 2)] ->
       has_in (maps st') (globals st') k = true.
Proof.
  apply (@object_body_assignments_go_to_the_globals example_host 5 "Point"
           [Assignment "x" "=" (num 1); Assignment "y" "=" (num 2)] 0
           (new_Interpreter None) VUndefined).
  - reflexivity.
  - cbn. lia.
  - cbn. lia.
  - by repeat constructor.
  - reflexivity.
Defined.

(** X23. A return value left in a map ends every block run in it after
    one statement: the block returns as it would without the statements
    that follow. The same holds for every call of a function declared in
    that map, whose copy holds the value too. So after a [return] at the
    top level every later run, and every call of a top-level function,
    runs one statement only. *)
Theorem return_value_left_in_a_scope_ends_blocks_and_calls
    `{Host} fuel node rest scope st :
  has_in (maps st) scope return_value = true ->
  executeBlock fuel (node :: rest) scope st = executeBlock fuel [node] scope st
  /\ forall id params args,
       call fuel (VClosure id params (node :: rest) scope) args st
       = call fuel (VClosure id params [node] scope) args st.
Proof.
  intros Hhas. split.
  - by apply block_ends_on_return_value.
  - intros. by apply call_ends_on_return_value.
Qed.

Lemma return_value_left_in_a_scope_ends_blocks_and_calls_witness :
  let st := mkInterpreter [[("__return_value__", VNum 1)]] [] 0 [] 0 false in
  @executeBlock example_host 5 [Assignment "x" "=" (num 2); Assignment "y" "=" (num 3)] 0 st
  = @executeBlock example_host 5 [Assignment "x" "=" (num 2)] 0 st.
Proof.
  exact (proj1 (@return_value_left_in_a_scope_ends_blocks_and_calls example_host 5
                  (Assignment "x" "=" (num 2)) [Assignment "y" "=" (num 3)] 0
                  (mkInterpreter [[("__return_value__", VNum 1)]] [] 0 [] 0 false) eq_refl)).
Defined.

End LegacyFacts.
